(** * protoc-gen-go-mcp: the Union Flattener and the Schema Compiler

    A shallow embedding of [transformOneOfFieldsRecursive] and [deepCopyMap]
    (src/pkg/generator/oneof_transform_test.go) and of the schema-compilation
    operations exercised by src/pkg/generator/generator_test.go, with the
    properties the specification states about them. *)

From stdpp Require Import gmap strings list fin_maps.

#[local] Set Warnings "-register-all".

(** ** JSON-shaped values

    The dynamic contents of a Go [interface{}] holding decoded JSON:
    [nil], [bool], a number, [string], [[]interface{}] and
    [map[string]interface{}].  The flattener never inspects a number, so the
    numeric payload is kept as an integer.  A Go map has no duplicate keys and
    no order of its own: it is a [gmap]. *)

Inductive value : Type :=
| VNull
| VBool (b : bool)
| VNumber (n : Z)
| VString (s : string)
| VArray (l : list value)
| VMap (m : gmap string value).

(** Nesting depth of a value; the recursion of the flattener is bounded by it. *)
Fixpoint height (obj : value) : nat :=
  match obj with
  | VArray l => S (foldr (fun x acc => height x `max` acc) 0 l)
  | VMap m => S (map_fold (fun _ x acc => height x `max` acc) 0 m)
  | _ => 0
  end.

Definition list_height (l : list value) : nat :=
  foldr (fun x acc => height x `max` acc) 0 l.

Definition map_height (m : gmap string value) : nat :=
  map_fold (fun _ x acc => height x `max` acc) 0 m.

(** ** strings.HasSuffix *)

Definition HasSuffix (s suffix : string) : bool :=
  Nat.leb (String.length suffix) (String.length s) &&
  String.eqb
    (String.substring (String.length s - String.length suffix)
       (String.length suffix) s)
    suffix.

Definition oneOfSuffix : string := "OneOfType".
Definition objectTypeKey : string := "object_type".

(** ** The body of the first loop of [transformOneOfFieldsRecursive]

    [variantObjOf unionObj] is the map built by the inner loop
    [for k, val := range unionObj { if k != "object_type" { variantObj[k] = val } }];
    that loop only reads [unionObj], so its result does not depend on the
    iteration order. *)

Definition variantObjOf (unionObj : gmap string value) : gmap string value :=
  map_fold
    (fun k val variantObj =>
       if decide (k = objectTypeKey) then variantObj else <[k := val]> variantObj)
    ∅ unionObj.

(** One iteration [key, value] of [for key, value := range v], acting on the
    map [v] being ranged over. *)
Definition rewriteEntry (key : string) (val : value) (v : gmap string value)
  : gmap string value :=
  if HasSuffix key oneOfSuffix then
    match val with
    | VMap unionObj =>
        match unionObj !! objectTypeKey with
        | Some (VString typeStr) =>
            match unionObj !! typeStr with
            | Some fieldValue =>
                (* v[typeStr] = fieldValue; delete(v, key) *)
                delete key (<[typeStr := fieldValue]> v)
            | None =>
                (* v[typeStr] = variantObj; delete(v, key) *)
                delete key (<[typeStr := VMap (variantObjOf unionObj)]> v)
            end
        | _ => v
        end
    | _ => v
    end
  else v.

(** ** Ranging over a map that the loop body mutates

    Go leaves the iteration order of a map unspecified, does not produce an
    entry removed before it is reached, and may or may not produce an entry
    created during the iteration.  A run of the loop is therefore described by
    the sequence [keys] of keys the iterator comes to: a key that is not
    (or no longer) in the map when its turn comes produces no iteration; a key
    that is in the map is produced with the value the map holds at that
    moment. *)

Fixpoint rangeRewrite (keys : list string) (v : gmap string value)
  : gmap string value :=
  match keys with
  | [] => v
  | key :: rest =>
      match v !! key with
      | Some val => rangeRewrite rest (rewriteEntry key val v)
      | None => rangeRewrite rest v
      end
  end.

(** The place of a map or array inside the value being transformed. *)
Inductive seg : Type :=
| Key (k : string)
| Idx (i : nat).

(** An iteration schedule gives, for the map found at a place, the sequence of
    keys its [range] loop comes to. *)
Definition schedule : Type := list seg -> gmap string value -> list string.

(** Every schedule of a Go run comes to each key the map holds when the loop
    starts (unless the entry was removed first, in which case coming to it
    does nothing). *)
Definition covers (order : schedule) : Prop :=
  forall p (v : gmap string value) k, is_Some (v !! k) -> k ∈ order p v.

(** A run that produces exactly the entries present at the start, in
    ascending key order of the map's representation, and skips entries
    created meanwhile. *)
Definition initialKeys : schedule := fun _ v => (map_to_list v).*1.

(** The same run in the opposite order. *)
Definition initialKeysRev : schedule := fun _ v => reverse (map_to_list v).*1.

(** A run that also comes to every key a substitution can create, after the
    initial ones. *)
Definition createdKeys (v : gmap string value) : list string :=
  omap (fun kv =>
          match kv.2 with
          | VMap unionObj =>
              match unionObj !! objectTypeKey with
              | Some (VString typeStr) => Some typeStr
              | _ => None
              end
          | _ => None
          end) (map_to_list v).

Definition initialThenCreated : schedule :=
  fun _ v => (map_to_list v).*1 ++ createdKeys v.

(** ** transformOneOfFieldsRecursive

    The Go function rewrites its argument in place and returns nothing; on a
    tree (a decoded JSON payload shares no sub-object) that is the function
    from the value before to the value after.  The recursion descends into the
    values of the rewritten map, so it is written with the nesting depth as
    fuel. *)

Fixpoint transformFuel (order : schedule) (fuel : nat) (p : list seg) (obj : value)
  : value :=
  match fuel with
  | O => obj
  | S fuel' =>
      match obj with
      | VMap v =>
          let v' := rangeRewrite (order p v) v in
          VMap (map_imap
                  (fun k x => Some (transformFuel order fuel' (p ++ [Key k]) x)) v')
      | VArray l =>
          VArray (imap (fun i x => transformFuel order fuel' (p ++ [Idx i]) x) l)
      | _ => obj
      end
  end.

Definition transformAt (order : schedule) (p : list seg) (obj : value) : value :=
  transformFuel order (height obj) p obj.

Definition transformOneOfFieldsRecursive (order : schedule) (obj : value) : value :=
  transformAt order [] obj.

(** ** Well-formed wrappers

    [wrapperOf key val] recognises the entries the loop body rewrites: the
    key ends in ["OneOfType"], the value is a map, and that map binds
    ["object_type"] to a string.  It returns the discriminator and the value
    the body stores under it. *)

Definition wrapperOf (key : string) (val : value) : option (string * value) :=
  if HasSuffix key oneOfSuffix then
    match val with
    | VMap unionObj =>
        match unionObj !! objectTypeKey with
        | Some (VString typeStr) =>
            Some (typeStr,
                  default (VMap (variantObjOf unionObj)) (unionObj !! typeStr))
        | _ => None
        end
    | _ => None
    end
  else None.

(** A wrapper value is malformed when it is not a map, or is a map without
    ["object_type"], or binds ["object_type"] to something that is not a
    string. *)
Definition malformed (val : value) : Prop :=
  match val with
  | VMap unionObj =>
      match unionObj !! objectTypeKey with
      | Some (VString _) => False
      | _ => True
      end
  | _ => True
  end.

#[global] Instance malformed_dec val : Decision (malformed val).
Proof.
  unfold malformed. destruct val as [| | | |?|unionObj]; try apply _.
  destruct (unionObj !! objectTypeKey) as [[| | |?| |]|]; apply _.
Defined.

(** ** Discriminators that do not end in ["OneOfType"]

    [targetsUnsuffixed m]: no discriminator of a well-formed wrapper of [m]
    ends in ["OneOfType"].  The entries a substitution creates in such a
    mapping are then never wrappers themselves. *)

Definition targetsUnsuffixed (m : gmap string value) : Prop :=
  map_Forall (fun key val =>
                match wrapperOf key val with
                | Some (typeStr, _) => HasSuffix typeStr oneOfSuffix = false
                | None => True
                end) m.

#[global] Instance targetsUnsuffixed_dec m : Decision (targetsUnsuffixed m).
Proof.
  unfold targetsUnsuffixed. apply map_Forall_dec. intros key val.
  destruct (wrapperOf key val) as [[? ?]|]; apply _.
Defined.

(** ** Mappings whose substitutions do not interfere

    [tidy m]: the discriminators of the well-formed wrappers of [m] do not end
    in ["OneOfType"] and are pairwise distinct. *)

Definition tidyEntry (m : gmap string value) (key : string) (val : value) : Prop :=
  match wrapperOf key val with
  | Some (typeStr, _) =>
      HasSuffix typeStr oneOfSuffix = false /\
      map_Forall (fun key' val' =>
                    fst <$> wrapperOf key' val' = Some typeStr -> key' = key) m
  | None => True
  end.

#[global] Instance tidyEntry_dec m key val : Decision (tidyEntry m key val).
Proof.
  unfold tidyEntry. destruct (wrapperOf key val) as [[typeStr ?]|]; apply _.
Defined.

Definition tidy (m : gmap string value) : Prop := map_Forall (tidyEntry m) m.

(** What the first loop makes of a tidy mapping: the entry [j ↦ y] is in the
    result when [y] is the promoted value of a wrapper with discriminator
    [j], or when [j ↦ y] is an entry of the mapping that is not a well-formed
    wrapper and [j] is no wrapper's discriminator. *)
Definition promotedTo (v : gmap string value) (j : string) (y : value) : Prop :=
  (exists key val, v !! key = Some val /\ wrapperOf key val = Some (j, y)) \/
  (v !! j = Some y /\ wrapperOf j y = None /\
   forall key val q, v !! key = Some val -> wrapperOf key val <> Some (j, q)).

(** ** Properties of every mapping inside a value *)

Fixpoint allMaps (P : gmap string value -> bool) (obj : value) : bool :=
  match obj with
  | VMap m => P m && map_fold (fun _ x acc => allMaps P x && acc) true m
  | VArray l => foldr (fun x acc => allMaps P x && acc) true l
  | _ => true
  end.

#[global] Instance tidy_dec (m : gmap string value) : Decision (tidy m).
Proof. unfold tidy. apply _. Defined.

Definition tidyb (m : gmap string value) : bool := bool_decide (tidy m).

(** [Tidy obj]: every mapping inside [obj] is tidy. *)
Definition Tidy (obj : value) : Prop := allMaps tidyb obj = true.

Definition unsuffixedb (m : gmap string value) : bool :=
  bool_decide (targetsUnsuffixed m).

(** [Unsuffixed obj]: in every mapping inside [obj], no discriminator of a
    well-formed wrapper ends in ["OneOfType"]. *)
Definition Unsuffixed (obj : value) : Prop := allMaps unsuffixedb obj = true.

(** ** Values on which no substitution fires *)

Definition settledMap (m : gmap string value) : Prop :=
  map_Forall (fun key val => wrapperOf key val = None) m.

Definition settledb (m : gmap string value) : bool := bool_decide (settledMap m).

(** [Settled obj]: no mapping inside [obj] holds a well-formed wrapper. *)
Definition Settled (obj : value) : Prop := allMaps settledb obj = true.

(** [noSuffixKey m]: no key of [m] ends in ["OneOfType"]. *)
Definition noSuffixKey (m : gmap string value) : Prop :=
  map_Forall (fun key _ => HasSuffix key oneOfSuffix = false) m.

Definition noSuffixKeyb (m : gmap string value) : bool :=
  bool_decide (noSuffixKey m).

(** [Flattened obj]: no key anywhere in [obj] ends in ["OneOfType"]. *)
Definition Flattened (obj : value) : Prop := allMaps noSuffixKeyb obj = true.

(** [plainTargets m]: no well-formed wrapper of [m] has the discriminator
    ["object_type"]. *)
Definition plainTargets (m : gmap string value) : Prop :=
  map_Forall (fun key val => fst <$> wrapperOf key val <> Some objectTypeKey) m.

Definition plainTargetsb (m : gmap string value) : bool :=
  bool_decide (plainTargets m).

Definition PlainTargets (obj : value) : Prop := allMaps plainTargetsb obj = true.

(** ** The scenarios of the specification *)


Definition exMessageVariantFlat : value :=
  VMap {[ "opt_a" := VMap {[ "value" := VString "x" ]} ]}.

Definition exPrimitiveVariant : value :=
  VMap {[ "kOneOfType" :=
            VMap {[ "object_type" := VString "s"; "value" := VString "hi" ]} ]}.




(** Two wrappers with the same discriminator. *)
Definition exSameTarget : value :=
  VMap {[ "aOneOfType" :=
            VMap {[ "object_type" := VString "x"; "x" := VNumber 1 ]};
          "bOneOfType" :=
            VMap {[ "object_type" := VString "x"; "x" := VNumber 2 ]} ]}.

(** A wrapper inside a map that lacks ["object_type"], promoting a value to
    the key ["object_type"]. *)
Definition exLateWrapper : value :=
  VMap {[ "aOneOfType" :=
            VMap {[ "bOneOfType" :=
                      VMap {[ "object_type" := VString "object_type" ]} ]} ]}.

(** A wrapper whose discriminator ends in ["OneOfType"] and whose payload is
    a wrapper again. *)
Definition exChained : value :=
  VMap {[ "aOneOfType" :=
            VMap {[ "object_type" := VString "bOneOfType";
                    "bOneOfType" :=
                      VMap {[ "object_type" := VString "c";
                              "c" := VNumber 1 ]} ]} ]}.

(** A wrapper next to an entry already bound to its discriminator. *)
Definition exSibling : gmap string value :=
  {[ "kOneOfType" := VMap {[ "object_type" := VString "a"; "a" := VNumber 1 ]};
     "a" := VNumber 0 ]}.

(** A malformed wrapper: the value under the ["OneOfType"] key is no map. *)
Definition exMalformed : gmap string value :=
  {[ "kOneOfType" := VString "opt_a"; "name" := VString "n" ]}.

(** A malformed wrapper, a map without ["object_type"], that holds a
    well-formed wrapper. *)
Definition exMalformedNested : value :=
  VMap {[ "kOneOfType" :=
            VMap {[ "innerOneOfType" :=
                      VMap {[ "object_type" := VString "a";
                              "a" := VNumber 1 ]} ]} ]}.

Definition exMalformedNestedFlat : value :=
  VMap {[ "kOneOfType" := VMap {[ "a" := VNumber 1 ]} ]}.

(** A malformed wrapper beside a well-formed wrapper whose discriminator is
    the key of the malformed one. *)
Definition exMalformedOverwritten : value :=
  VMap {[ "kOneOfType" := VString "opt_a";
          "aOneOfType" :=
            VMap {[ "object_type" := VString "kOneOfType";
                    "kOneOfType" := VNumber 5 ]} ]}.

Definition exMalformedOverwrittenFlat : value :=
  VMap {[ "kOneOfType" := VNumber 5 ]}.

(** ** The cases of the flattener's test *)

(** The table of [TestOneOfTransformation] (oneof_transform_test.go, lines
    63-126): each input with the value the test expects after the
    transformation. *)
Definition TestOneOfTransformation_cases : list (value * value) :=
  [ (VMap {[ "kindOneOfType" :=
               VMap {[ "object_type" := VString "device_data_applications";
                       "device_data_applications" :=
                         VMap {[ "application_code" := VString "test_app" ]} ]} ]},
     VMap {[ "device_data_applications" :=
               VMap {[ "application_code" := VString "test_app" ]} ]});
    (VMap {[ "someOneOfType" :=
               VMap {[ "object_type" := VString "string_value";
                       "string_value" := VString "hello" ]} ]},
     VMap {[ "string_value" := VString "hello" ]});
    (VMap {[ "outer" :=
               VMap {[ "innerOneOfType" :=
                         VMap {[ "object_type" := VString "option_a";
                                 "option_a" :=
                                   VMap {[ "value" := VString "test" ]} ]} ]} ]},
     VMap {[ "outer" :=
               VMap {[ "option_a" := VMap {[ "value" := VString "test" ]} ]} ]});
    (VMap {[ "primitiveOneOfType" :=
               VMap {[ "object_type" := VString "string_option";
                       "value" := VString "hello world";
                       "extra_field" := VNumber 123 ]} ]},
     VMap {[ "string_option" :=
               VMap {[ "value" := VString "hello world";
                       "extra_field" := VNumber 123 ]} ]}) ].

(** * The run on the heap

    [transformOneOfFieldsRecursive] returns nothing: it rewrites the maps it
    is handed, and [deepCopyMap] (oneof_transform_test.go, lines 148-163)
    builds new maps and arrays beside the old ones.  Here both are written
    over a store of objects, so that what is copied and what is shared can be
    told apart. *)

(** A Go map value and a slice value are references; a location names the
    object referred to.  The code takes no sub-slice, so a slice is named by
    the location of its backing array, whose length is the slice's.  Nil maps
    and nil slices are not represented: neither [json.Unmarshal] nor a
    literal of the test builds one. *)
Abbreviation loc := positive.

(** The contents of an [interface{}] holding decoded JSON. *)
Inductive iface : Type :=
| INil
| IBool (b : bool)
| INumber (n : Z)
| IString (s : string)
| ISlice (a : loc)
| IMap (l : loc).

Inductive object : Type :=
| OMap (entries : gmap string iface)
| OSlice (items : list iface).

Abbreviation heap := (gmap loc object).

(** [v[key]], [v[key] = x] and [delete(v, key)] on the map object at [v]. *)
Definition mapaccess (h : heap) (v : loc) (key : string) : option iface :=
  match h !! v with
  | Some (OMap entries) => entries !! key
  | _ => None
  end.

Definition mapassign (v : loc) (key : string) (x : iface) (h : heap) : heap :=
  match h !! v with
  | Some (OMap entries) => <[v := OMap (<[key := x]> entries)]> h
  | _ => h
  end.

Definition mapdelete (v : loc) (key : string) (h : heap) : heap :=
  match h !! v with
  | Some (OMap entries) => <[v := OMap (delete key entries)]> h
  | _ => h
  end.

(** The entries [variantObj] holds after the inner loop over [unionObj]; the
    values are the references [unionObj] holds, not copies of the objects. *)
Definition variantObjOfRefs (unionObj : gmap string iface) : gmap string iface :=
  map_fold
    (fun k val variantObj =>
       if decide (k = objectTypeKey) then variantObj else <[k := val]> variantObj)
    ∅ unionObj.

(** One iteration [key, value] of the first loop over the map object at [v].
    [make] allocates [variantObj] at a location that is not in use. *)
Definition rewriteEntryInPlace (v : loc) (key : string) (value : iface) (h : heap)
  : heap :=
  if HasSuffix key oneOfSuffix then
    match value with
    | IMap u =>
        match h !! u with
        | Some (OMap unionObj) =>
            match unionObj !! objectTypeKey with
            | Some (IString typeStr) =>
                match unionObj !! typeStr with
                | Some fieldValue =>
                    (* v[typeStr] = fieldValue; delete(v, key) *)
                    mapdelete v key (mapassign v typeStr fieldValue h)
                | None =>
                    (* variantObj := make(...); ...; v[typeStr] = variantObj;
                       delete(v, key) *)
                    let variantObj := fresh (dom h) in
                    let h1 := <[variantObj := OMap (variantObjOfRefs unionObj)]> h in
                    mapdelete v key (mapassign v typeStr (IMap variantObj) h1)
                end
            | _ => h
            end
        | _ => h
        end
    | _ => h
    end
  else h.

(** The first loop, coming to the keys [keys] in turn: a key that is not in
    the map at that moment produces no iteration, a key that is in it is
    produced with the value the map holds then. *)
Fixpoint rangeRewriteInPlace (v : loc) (keys : list string) (h : heap) : heap :=
  match keys with
  | [] => h
  | key :: rest =>
      match mapaccess h v key with
      | Some value => rangeRewriteInPlace v rest (rewriteEntryInPlace v key value h)
      | None => rangeRewriteInPlace v rest h
      end
  end.

(** The second loop, [for _, value := range v { body(value) }], coming to the
    keys [keys] in turn. *)
Fixpoint rangeValues (body : string -> iface -> heap -> option heap)
  (v : loc) (keys : list string) (h : heap) : option heap :=
  match keys with
  | [] => Some h
  | key :: rest =>
      match mapaccess h v key with
      | Some value => h' ← body key value h; rangeValues body v rest h'
      | None => rangeValues body v rest h
      end
  end.

(** [for _, item := range v { body(item) }] over a slice: Go reads the slice
    once, and nothing in the function writes to an array. *)
Fixpoint rangeItems (body : nat -> iface -> heap -> option heap)
  (i : nat) (items : list iface) (h : heap) : option heap :=
  match items with
  | [] => Some h
  | item :: rest => h' ← body i item h; rangeItems body (S i) rest h'
  end.

(** The order in which a [range] loop comes to the keys of the map found at a
    place, given the keys the map holds when the loop starts. *)
Definition keyOrder : Type := list seg -> gset string -> list string.

(** The schedule of the function on values that comes to the same keys. *)
Definition scheduleOf (order : keyOrder) : schedule :=
  fun p v => order p (dom v).

(** A loop whose body leaves the map alone comes to each key once. *)
Definition eachOnce (order : keyOrder) : Prop :=
  forall p (D : gset string),
    NoDup (order p D) /\ forall k, k ∈ D -> k ∈ order p D.

Definition sortedKeys : keyOrder := fun _ D => elements D.

(** [transformOneOfFieldsRecursive] on the heap.  [order1] schedules the
    first loop of each map and [order2] the second.  The recursion follows
    the references, so it is bounded by [fuel]; [None] is a run that needs
    more, or a reference that names no object of its type, which no Go value
    holds. *)
Fixpoint transformInPlace (order1 order2 : keyOrder) (fuel : nat) (p : list seg)
  (obj : iface) (h : heap) : option heap :=
  match obj with
  | IMap v =>
      match fuel with
      | O => None
      | S fuel' =>
          match h !! v with
          | Some (OMap entries) =>
              let h1 := rangeRewriteInPlace v (order1 p (dom entries)) h in
              match h1 !! v with
              | Some (OMap entries1) =>
                  rangeValues
                    (fun k x => transformInPlace order1 order2 fuel' (p ++ [Key k]) x)
                    v (order2 p (dom entries1)) h1
              | _ => None
              end
          | _ => None
          end
      end
  | ISlice a =>
      match fuel with
      | O => None
      | S fuel' =>
          match h !! a with
          | Some (OSlice items) =>
              rangeItems
                (fun i x => transformInPlace order1 order2 fuel' (p ++ [Idx i]) x)
                0 items h
          | _ => None
          end
      end
  | _ => Some h
  end.

(** ** deepCopyMap *)

(** [make([]interface{}, n)] and [copy(dst, src)]. *)
Definition make (n : nat) : list iface := replicate n INil.

Definition copy (dst src : list iface) : list iface :=
  take (length dst) src ++ drop (length src) dst.

(** The body of the loop of [deepCopyMap] for the entry [k, v]: a map is
    copied by the recursive call [rec], an array is copied into a new array
    of the same length, anything else is stored as it is. *)
Definition copyEntry (rec : loc -> heap -> option (loc * heap))
  (result : loc) (k : string) (v : iface) (h : heap) : option heap :=
  match v with
  | IMap val =>
      '(c, h') ← rec val h;
      Some (mapassign result k (IMap c) h')
  | ISlice val =>
      match h !! val with
      | Some (OSlice items) =>
          let arr := fresh (dom h) in
          let h' := <[arr := OSlice (copy (make (length items)) items)]> h in
          Some (mapassign result k (ISlice arr) h')
      | _ => None
      end
  | _ => Some (mapassign result k v h)
  end.

(** The loop [for k, v := range m].  Its body writes to [result] and to new
    objects only, so every entry of [m] is produced once; the order decides
    nothing but which unused locations the new objects get. *)
Definition copyEntries (rec : loc -> heap -> option (loc * heap))
  (result : loc) (entries : list (string * iface)) (h : heap) : option heap :=
  foldr (fun kv acc => h1 ← acc; copyEntry rec result kv.1 kv.2 h1) (Some h) entries.

Fixpoint deepCopyMap (fuel : nat) (m : loc) (h : heap) : option (loc * heap) :=
  match fuel with
  | O => None
  | S fuel' =>
      match h !! m with
      | Some (OMap entries) =>
          let result := fresh (dom h) in
          h' ← copyEntries (deepCopyMap fuel') result (map_to_list entries)
                 (<[result := OMap ∅]> h);
          Some (result, h')
      | _ => None
      end
  end.

(** What [deepCopyMap] follows from [m]: maps held in maps, to any depth, and
    the arrays those maps hold, one level deep.  [copyable fuel h m] says
    that these chains of maps are shorter than [fuel] and that every
    reference on them names an object of its kind; the same object may be
    reached more than once. *)
Fixpoint copyable (fuel : nat) (h : heap) (m : loc) : bool :=
  match fuel with
  | O => false
  | S fuel' =>
      match h !! m with
      | Some (OMap entries) =>
          forallb (fun kv : string * iface =>
                     match kv.2 with
                     | IMap val => copyable fuel' h val
                     | ISlice val =>
                         match h !! val with
                         | Some (OSlice _) => true
                         | _ => false
                         end
                     | _ => true
                     end)
            (map_to_list entries)
      | _ => false
      end
  end.

(** ** Values held as trees

    [repr h c x F]: in the heap [h] the contents [c] hold the value [x], every
    object of it lies in [F], and no object is reached twice: the parts
    [fp k] that hold the entries of a map, or the elements of an array, are
    pairwise disjoint and do not hold the map or the array itself. *)
Inductive repr (h : heap) : iface -> value -> gset loc -> Prop :=
| repr_nil F : repr h INil VNull F
| repr_bool b F : repr h (IBool b) (VBool b) F
| repr_number n F : repr h (INumber n) (VNumber n) F
| repr_string s F : repr h (IString s) (VString s) F
| repr_slice a items xs (fp : nat -> gset loc) F :
    h !! a = Some (OSlice items) ->
    a ∈ F ->
    length items = length xs ->
    (forall i c y, items !! i = Some c -> xs !! i = Some y -> repr h c y (fp i)) ->
    (forall i c, items !! i = Some c -> fp i ⊆ F /\ a ∉ fp i) ->
    (forall i j c c', i <> j -> items !! i = Some c -> items !! j = Some c' ->
                      fp i ## fp j) ->
    repr h (ISlice a) (VArray xs) F
| repr_map l m xm (fp : string -> gset loc) F :
    h !! l = Some (OMap m) ->
    l ∈ F ->
    dom m = dom xm ->
    (forall k c y, m !! k = Some c -> xm !! k = Some y -> repr h c y (fp k)) ->
    (forall k c, m !! k = Some c -> fp k ⊆ F /\ l ∉ fp k) ->
    (forall k k' c c', k <> k' -> m !! k = Some c -> m !! k' = Some c' ->
                       fp k ## fp k') ->
    repr h (IMap l) (VMap xm) F.

(** [unchangedOutside h F h']: every object of [h] is an object of [h'], and
    those outside [F] are as they were. *)
Definition unchangedOutside (h : heap) (F : gset loc) (h' : heap) : Prop :=
  dom h ⊆ dom h' /\ forall a, a ∈ dom h -> a ∉ F -> h' !! a = h !! a.

(** [suffixFree m]: no key of the map object ends in ["OneOfType"]. *)
Definition suffixFree (m : gmap string iface) : Prop :=
  forall key, is_Some (m !! key) -> HasSuffix key oneOfSuffix = false.

(** [quiet h h']: no object is removed, no array is changed, a map stays a
    map, and a map none of whose keys ends in ["OneOfType"] is unchanged. *)
Definition quiet (h h' : heap) : Prop :=
  dom h ⊆ dom h' /\
  (forall a items, h !! a = Some (OSlice items) -> h' !! a = Some (OSlice items)) /\
  (forall l m, h !! l = Some (OMap m) ->
     (exists m', h' !! l = Some (OMap m')) /\
     (suffixFree m -> h' !! l = Some (OMap m))).

(** [copied h h' v v']: what [deepCopyMap] stores for an entry holding [v]:
    a new map for a map, a new array with the same elements for an array,
    and [v] itself otherwise. *)
Definition copied (h h' : heap) (v v' : iface) : Prop :=
  match v with
  | IMap _ => exists u' e, v' = IMap u' /\ (u' ∉ dom h) /\ h' !! u' = Some (OMap e)
  | ISlice a =>
      exists a' items, v' = ISlice a' /\ (a' ∉ dom h) /\
        h' !! a' = Some (OSlice items) /\
        (a ∈ dom h -> h !! a = Some (OSlice items))
  | _ => v' = v
  end.

(** [NoSharing x]: every array that is the value of a mapping of [x] holds
    neither a mapping nor an array. *)
Definition scalar (x : value) : bool :=
  match x with
  | VMap _ | VArray _ => false
  | _ => true
  end.

Definition scalarItems (x : value) : bool :=
  match x with
  | VArray l => forallb scalar l
  | _ => true
  end.

Definition scalarArrays (m : gmap string value) : bool :=
  bool_decide (map_Forall (fun _ x => scalarItems x = true) m).

Definition NoSharing (x : value) : Prop := allMaps scalarArrays x = true.

(** The part of [F] a copy may share with the original: none of it when the
    value has no sharing ([flat]). *)
Definition shareable (flat : bool) (F : gset loc) : gset loc :=
  if flat then ∅ else F.

(** What a call of [deepCopyMap] does on a map held as a tree: it returns a
    new map holding the same value, changes no object, and the copy lies in
    the new objects and in what it may share of the original below its
    map. *)
Definition copySpec (rec : loc -> heap -> option (loc * heap)) (flat : bool)
  (f : nat) : Prop :=
  forall u (h : heap) xu G,
    height (VMap xu) <= f -> (flat = true -> NoSharing (VMap xu)) ->
    repr h (IMap u) (VMap xu) G -> G ⊆ dom h ->
    exists c h', rec u h = Some (c, h') /\ (c ∉ dom h) /\
      unchangedOutside h ∅ h' /\
      repr h' (IMap c) (VMap xu) ((dom h' ∖ dom h) ∪ shareable flat (G ∖ {[u]})).

(** ** Example heaps *)

(** [exPrimitiveVariant], held at location 1. *)
Definition exHeapVariant : heap :=
  {[ 1%positive := OMap {[ "kOneOfType" := IMap 2%positive ]};
     2%positive :=
       OMap {[ "object_type" := IString "s"; "value" := IString "hi" ]} ]}.

(** The heap after [deepCopyMap] of location 1 of [exHeapVariant]: the copy
    is at location 3. *)
Definition exHeapVariantCopy : heap :=
  {[ 1%positive := OMap {[ "kOneOfType" := IMap 2%positive ]};
     2%positive :=
       OMap {[ "object_type" := IString "s"; "value" := IString "hi" ]};
     3%positive := OMap {[ "kOneOfType" := IMap 4%positive ]};
     4%positive :=
       OMap {[ "object_type" := IString "s"; "value" := IString "hi" ]} ]}.

(** The heap after the in-place run on location 1 of [exHeapVariant]. *)
Definition exHeapVariantFlat : heap :=
  {[ 1%positive := OMap {[ "s" := IMap 3%positive ]};
     2%positive :=
       OMap {[ "object_type" := IString "s"; "value" := IString "hi" ]};
     3%positive := OMap {[ "value" := IString "hi" ]} ]}.

(** A mapping with an array of one mapping, which holds a wrapper. *)
Definition exItems : value := VMap {[ "items" := VArray [exPrimitiveVariant] ]}.

(** [exItems], held at location 1. *)
Definition exHeapItems : heap :=
  {[ 1%positive := OMap {[ "items" := ISlice 2%positive ]};
     2%positive := OSlice [IMap 3%positive];
     3%positive := OMap {[ "kOneOfType" := IMap 4%positive ]};
     4%positive :=
       OMap {[ "object_type" := IString "s"; "value" := IString "hi" ]} ]}.

(** A map that holds itself. *)
Definition exHeapCycle : heap :=
  {[ 1%positive := OMap {[ "self" := IMap 1%positive ]} ]}.

(** A map that holds the same map under two keys and the same array under
    two more. *)
Definition exHeapShared : heap :=
  {[ 1%positive :=
       OMap {[ "a" := IMap 2%positive; "b" := IMap 2%positive;
               "c" := ISlice 3%positive; "d" := ISlice 3%positive ]};
     2%positive := OMap {[ "x" := INumber 1 ]};
     3%positive := OSlice [IMap 2%positive] ]}.

(** * The Schema Compiler

    The compiler itself (generator.go: [kindToType], [getType],
    [messageSchema], [messageSchemaFromDescriptor],
    [isFieldRequiredWithOptionalSupport]) is not among the source files; its
    tests in src/pkg/generator/generator_test.go are.  The definitions below
    follow sections 3 and 4.1 of the specification, and take the values the
    tests assert wherever a test fixes one. *)

(** Modelled from the spec: the descriptor kinds, those of protoreflect.Kind
    (the enumeration of the protobuf library, of which the tests name
    eight). *)
Inductive Kind : Type :=
| BoolKind | EnumKind
| Int32Kind | Sint32Kind | Uint32Kind
| Int64Kind | Sint64Kind | Uint64Kind
| Sfixed32Kind | Fixed32Kind | FloatKind
| Sfixed64Kind | Fixed64Kind | DoubleKind
| StringKind | BytesKind | MessageKind | GroupKind.

#[global] Instance Kind_eq_dec : EqDecision Kind.
Proof. solve_decision. Defined.

(** The table of [TestKindToType] (generator_test.go, lines 132-144): each
    kind with the JSON type the test expects [kindToType] to return. *)
Definition TestKindToType_cases : list (Kind * string) :=
  [ (BoolKind, "boolean"); (StringKind, "string"); (Int32Kind, "integer");
    (Int64Kind, "string"); (FloatKind, "number"); (DoubleKind, "number");
    (BytesKind, "string"); (EnumKind, "string") ].

(** Modelled from the spec: [kindToType] is not under src/.  The rows are
    those of the table of section 4.1 (bool; string, bytes; int32, uint32;
    int64, uint64, sint64, fixed64; float, double), except for the enum kind,
    where the source's own test [TestKindToType] expects ["string"] and the
    test is followed.  A kind the table does not list has no result here. *)
Definition kindToType (kind : Kind) : option string :=
  match kind with
  | BoolKind => Some "boolean"
  | StringKind | BytesKind => Some "string"
  | Int32Kind | Uint32Kind => Some "integer"
  | Int64Kind | Uint64Kind | Sint64Kind | Fixed64Kind => Some "string"
  | FloatKind | DoubleKind => Some "number"
  | EnumKind => Some "string"
  | _ => None
  end.


(** Modelled from the spec: section 3; the cardinality of a field, singular,
    repeated or map; a map carries the kind of its keys. *)
Inductive Cardinality : Type :=
| Singular
| Repeated
| MapOf (keyKind : Kind).

(** Modelled from the spec: section 3, FieldDescriptor; name, kind,
    cardinality, explicit-optional flag, owning oneof, comment, and the
    referenced message or enum type; the required annotation is the input of
    the required-field policy. *)
Record FieldDescriptor : Type := mkField {
  Name : string;
  ValueKind : Kind;
  FieldCardinality : Cardinality;
  HasOptionalKeyword : bool;
  RequiredAnnotation : bool;
  ContainingOneof : option string;
  Comment : string;
  Message : string;
  EnumValues : list string
}.

(** Modelled from the spec: whether the field is repeated, and whether it is
    a map ([fd.IsList()], [fd.IsMap()]). *)
Definition IsList (fd : FieldDescriptor) : bool :=
  match FieldCardinality fd with Repeated => true | _ => false end.

Definition IsMap (fd : FieldDescriptor) : bool :=
  match FieldCardinality fd with MapOf _ => true | _ => false end.

(** Modelled from the spec: section 3, MessageDescriptor; fully-qualified
    name, ordered fields, comment. *)
Record MessageDescriptor : Type := mkMessage {
  FullName : string;
  Fields : list FieldDescriptor;
  MessageComment : string
}.

(** The generator as the tests build it:
    [&FileGenerator{optionalKeywordSupport: ...}]. *)
Record FileGenerator : Type := mkGenerator {
  optionalKeywordSupport : bool
}.

(** ** The required-field policy *)

(** Modelled from the spec: [isFieldRequiredWithOptionalSupport] is not under
    src/.  Section 3: a repeated or map field is never required; otherwise the
    result follows from the required annotation and, when optional-keyword
    support is enabled, from the absence of the optional keyword.  The rows
    of [TestOptionalKeywordSupport] fix every combination but that of a
    required annotation with the optional keyword, where the annotation is
    taken to win. *)
Definition isFieldRequiredWithOptionalSupport
  (g : FileGenerator) (fd : FieldDescriptor) : bool :=
  if IsList fd || IsMap fd then false
  else if RequiredAnnotation fd then true
  else if optionalKeywordSupport g then negb (HasOptionalKeyword fd)
  else false.

(** The table of [TestOptionalKeywordSupport] (part_000, lines 182-246):
    optional-keyword support, cardinality of the field, optional keyword,
    required annotation, expected result. *)
Definition TestOptionalKeywordSupport_cases
  : list (bool * Cardinality * bool * bool * bool) :=
  [ (false, Singular, false, false, false);
    (true, Singular, false, false, true);
    (false, Singular, true, false, false);
    (true, Singular, true, false, false);
    (false, Singular, false, true, true);
    (true, Singular, false, true, true);
    (true, Repeated, false, false, false);
    (true, MapOf StringKind, false, false, false) ].

(** ** Schema nodes and the definitions table

    A SchemaNode is a JSON object ([map[string]any] in the tests); the
    DefinitionsTable maps a fully-qualified message-type name to its node. *)

Abbreviation SchemaNode := (gmap string value).
Abbreviation DefinitionsTable := (gmap string (gmap string value)).

(** Modelled from the spec: sections 4.1 and 7; a compilation step reads and
    extends the definitions table, and either produces a result, fails with
    an explicit error, or (in this embedding only) runs out of fuel. *)
Inductive result (A : Type) : Type :=
| Ok (a : A)
| Failed (why : string)
| OutOfFuel.

Arguments Ok {A} a.
Arguments Failed {A} why.
Arguments OutOfFuel {A}.

Definition compile (A : Type) : Type :=
  DefinitionsTable -> result (A * DefinitionsTable).

Definition ret {A : Type} (a : A) : compile A := fun defs => Ok (a, defs).

Definition fail {A : Type} (why : string) : compile A := fun _ => Failed why.

Definition bind {A B : Type} (c : compile A) (k : A -> compile B) : compile B :=
  fun defs =>
    match c defs with
    | Ok (a, defs') => k a defs'
    | Failed why => Failed why
    | OutOfFuel => OutOfFuel
    end.

Notation "x <~ c ; k" := (bind c (fun x => k))
  (at level 20, c at level 100, k at level 200, only parsing).

Fixpoint mapM {A B : Type} (f : A -> compile B) (l : list A) : compile (list B) :=
  match l with
  | [] => ret []
  | a :: l' => b <~ f a ; bs <~ mapM f l' ; ret (b :: bs)
  end.

(** Modelled from the spec: section 4.1; the reference to a definition. *)
Definition refNode (name : string) : SchemaNode :=
  {[ "$ref" := VString ("#/$defs/" +:+ name) ]}.

(** Modelled from the spec: section 4.1, well-known types; the two
    descriptions hold the phrases [TestGetTypeStandard] looks for. *)
Definition wellKnown (name : string) : option SchemaNode :=
  if decide (name = "google.protobuf.Struct") then
    Some {[ "type" := VString "object"; "additionalProperties" := VBool true ]}
  else if decide (name = "google.protobuf.Value") then
    Some {[ "description" := VString "Accepts any dynamic JSON value" ]}
  else if decide (name = "google.protobuf.ListValue") then
    Some {[ "type" := VString "array"; "items" := VMap ∅;
            "description" := VString "Accepts any JSON array" ]}
  else if decide (name = "google.protobuf.Timestamp") then
    Some {[ "type" := VArray [VString "string"; VString "null"];
            "format" := VString "date-time" ]}
  else None.

(** Modelled from the spec: section 4.1; the description of an enum field
    lists its legal value names; here in order, separated by commas. *)
Fixpoint joinNames (names : list string) : string :=
  match names with
  | [] => ""
  | [n] => n
  | n :: rest => n +:+ ", " +:+ joinNames rest
  end.

(** Modelled from the spec: see [joinNames]. *)
Definition enumDescription (names : list string) : string :=
  "One of: " +:+ joinNames names.

(** Modelled from the spec: section 3, SchemaNode; a node is changed after
    its construction only to attach the comment as its description.  The
    comment is attached where the node has no description yet: the
    descriptions of the table of section 4.1 (enum, bytes, the well-known
    types) are given for every field of the kind, with or without a comment,
    and [TestGetTypeStandard] expects them, so a comment does not replace
    them. *)
Definition withDescription (comment : string) (node : SchemaNode) : SchemaNode :=
  if decide (comment = "") then node
  else match node !! "description" with
       | Some _ => node
       | None => <["description" := VString comment]> node
       end.

(** Modelled from the spec: section 4.1; the message types a field refers to
    by [$ref], that is its type when it is of message kind and not a
    well-known type. *)
Definition refersTo (fd : FieldDescriptor) : list string :=
  match ValueKind fd with
  | MessageKind =>
      match wellKnown (Message fd) with
      | Some _ => []
      | None => [Message fd]
      end
  | _ => []
  end.

(** Modelled from the spec: the message types the fields of a message refer
    to. *)
Definition references (md : MessageDescriptor) : list string :=
  flat_map refersTo (Fields md).

Section Compiler.

(** Modelled from the spec: section 6; the descriptor provider gives the
    message type of each fully-qualified name. *)
Context (env : gmap string MessageDescriptor).

(** Which oneof groups are themselves required is not said by the
    specification: it is left open. *)
Context (oneofRequired : FileGenerator -> string -> bool).

Context (g : FileGenerator).

(** [ensure name]: make sure the type [name] is in the definitions table. *)
Context (ensure : string -> compile unit).

(** Modelled from the spec: section 4.1, per-field type derivation; the
    schema of one value of the field. *)
Definition valueSchema (fd : FieldDescriptor) : compile SchemaNode :=
  match ValueKind fd with
  | MessageKind =>
      match wellKnown (Message fd) with
      | Some node => ret node
      | None => _ <~ ensure (Message fd) ; ret (refNode (Message fd))
      end
  | EnumKind =>
      match kindToType EnumKind with
      | Some t =>
          ret {[ "type" := VString t;
                 "description" := VString (enumDescription (EnumValues fd)) ]}
      | None => fail "unsupported kind"
      end
  | BytesKind =>
      match kindToType BytesKind with
      | Some t =>
          ret {[ "type" := VString t;
                 "description" := VString "base64-encoded bytes" ]}
      | None => fail "unsupported kind"
      end
  | kind =>
      match kindToType kind with
      | Some t => ret {[ "type" := VString t ]}
      | None => fail "unsupported kind"
      end
  end.

(** Modelled from the spec: section 4.1, map field; the schema of the keys. *)
Definition keySchema (keyKind : Kind) : compile SchemaNode :=
  match kindToType keyKind with
  | Some t => ret {[ "type" := VString t ]}
  | None => fail "unsupported kind"
  end.

(** Modelled from the spec: section 4.1; [getType] for a map field, a
    repeated field and a singular field; the field's comment becomes the
    node's description. *)
Definition getType (fd : FieldDescriptor) : compile SchemaNode :=
  node <~ (match FieldCardinality fd with
           | MapOf keyKind =>
               v <~ valueSchema fd ;
               k <~ keySchema keyKind ;
               ret {[ "type" := VString "object";
                      "additionalProperties" := VMap v;
                      "propertyNames" := VMap k ]}
           | Repeated =>
               e <~ valueSchema fd ;
               ret {[ "type" := VString "array"; "items" := VMap e ]}
           | Singular => valueSchema fd
           end) ;
  ret (withDescription (Comment fd) node).

(** Modelled from the spec: section 4.1, field belonging to a oneof, and cycle
    detection; the properties a oneof variant contributes besides its
    discriminator.  A message-typed variant whose type is not yet in the
    definitions table is compiled and its properties are inlined; one whose
    type is already there (or is being compiled) is referred to by [$ref];
    any other variant contributes its own schema under its name. *)
Definition variantPayload (fd : FieldDescriptor) : compile SchemaNode :=
  match refersTo fd, FieldCardinality fd with
  | [name], Singular =>
      fun defs =>
        match defs !! name with
        | Some _ => Ok ({[ Name fd := VMap (refNode name) ]}, defs)
        | None =>
            match ensure name defs with
            | Ok (_, defs') =>
                match defs' !! name with
                | Some node =>
                    match node !! "properties" with
                    | Some (VMap props) => Ok (props, defs')
                    | _ => Ok ({[ Name fd := VMap (refNode name) ]}, defs')
                    end
                | None => Failed "definition missing"
                end
            | Failed why => Failed why
            | OutOfFuel => OutOfFuel
            end
        end
  | _, _ => node <~ getType fd ; ret {[ Name fd := VMap node ]}
  end.

(** Modelled from the spec: section 4.1; a variant is an object schema with
    the discriminator ["object_type"], a constant equal to the field's name. *)
Definition variantSchema (fd : FieldDescriptor) : compile SchemaNode :=
  payload <~ variantPayload fd ;
  ret {[ "type" := VString "object";
         "properties" :=
           VMap (<["object_type" :=
                     VMap {[ "const" := VString (Name fd);
                             "type" := VString "string" ]}]> payload);
         "required" := VArray [VString "object_type"] ]}.

(** Modelled from the spec: the oneof groups of a message, each once, in order
    of first appearance. *)
Fixpoint oneofNames (fields : list FieldDescriptor) : list string :=
  match fields with
  | [] => []
  | fd :: rest =>
      match ContainingOneof fd with
      | Some o => o :: filter (fun o' => o' <> o) (oneofNames rest)
      | None => oneofNames rest
      end
  end.

(** Modelled from the spec: the fields of a oneof group, and the fields
    outside every oneof. *)
Definition inOneof (o : string) (fd : FieldDescriptor) : bool :=
  bool_decide (ContainingOneof fd = Some o).

Definition plainFields (md : MessageDescriptor) : list FieldDescriptor :=
  filter (fun fd => ContainingOneof fd = None) (Fields md).

(** Modelled from the spec: section 4.1; the property of a oneof group is
    named [<oneofName>OneOfType]. *)
Definition oneofProperty (o : string) : string := o +:+ "OneOfType".

(** Modelled from the spec: section 4.1, message schema; the ["required"]
    list holds the names of the fields that satisfy the required-field policy,
    then the property names of the required oneof groups. *)
Definition requiredNames (md : MessageDescriptor) : list string :=
  (Name <$> filter (fun fd => isFieldRequiredWithOptionalSupport g fd = true)
              (plainFields md))
  ++ (oneofProperty <$> filter (fun o => oneofRequired g o = true)
                          (oneofNames (Fields md))).

(** Modelled from the spec: section 4.1, message schema;
    [{type: object, properties, required, additionalProperties: false}],
    with one property per field outside a oneof and one
    [<oneof>OneOfType] property per oneof group. *)
Definition messageSchemaFromDescriptor (md : MessageDescriptor)
  : compile SchemaNode :=
  plain <~ mapM (fun fd => node <~ getType fd ; ret (Name fd, VMap node))
             (plainFields md) ;
  groups <~ mapM (fun o =>
                    variants <~ mapM variantSchema
                                  (List.filter (inOneof o) (Fields md)) ;
                    ret (oneofProperty o,
                         VMap {[ "oneOf" := VArray (VMap <$> variants) ]}))
              (oneofNames (Fields md)) ;
  ret (withDescription (MessageComment md)
         {[ "type" := VString "object";
            "properties" := VMap (list_to_map (plain ++ groups));
            "required" := VArray (VString <$> requiredNames md);
            "additionalProperties" := VBool false ]}).

End Compiler.

(** The schema of one value of a field inside the schema [getType] gives for
    the field: the schema itself for a singular field, the items of the array
    for a repeated field, the additional properties of the object for a
    map. *)
Definition valuePart (fd : FieldDescriptor) (node : SchemaNode) : option value :=
  match FieldCardinality fd with
  | Singular => Some (VMap node)
  | Repeated => node !! "items"
  | MapOf _ => node !! "additionalProperties"
  end.

(** The value of ["type"] in the schema [getType] gives for a field of a
    scalar kind, by the cardinality of the field. *)
Definition fieldType (fd : FieldDescriptor) (scalar : string) : string :=
  match FieldCardinality fd with
  | Singular => scalar
  | Repeated => "array"
  | MapOf _ => "object"
  end.

(** Modelled from the spec: section 4.1, cycle detection; a type already in
    the table is not compiled again; otherwise a placeholder is inserted under
    its name before its fields are compiled, and replaced by the schema
    afterwards. *)
Fixpoint ensureDefinition
  (env : gmap string MessageDescriptor)
  (oneofRequired : FileGenerator -> string -> bool) (g : FileGenerator)
  (fuel : nat) (name : string) : compile unit :=
  fun defs =>
    match defs !! name with
    | Some _ => Ok (tt, defs)
    | None =>
        match env !! name with
        | None => Failed "unresolved message type"
        | Some md =>
            match fuel with
            | O => OutOfFuel
            | S fuel' =>
                match messageSchemaFromDescriptor oneofRequired g
                        (ensureDefinition env oneofRequired g fuel')
                        md (<[name := ∅]> defs) with
                | Ok (node, defs') => Ok (tt, <[name := node]> defs')
                | Failed why => Failed why
                | OutOfFuel => OutOfFuel
                end
            end
        end
    end.

(** Modelled from the spec: section 4.1, contract; compiling one message
    against an empty definitions table.  No chain of nested compilations is
    longer than the number of message types, which is the fuel. *)
Definition messageSchema
  (env : gmap string MessageDescriptor)
  (oneofRequired : FileGenerator -> string -> bool) (g : FileGenerator)
  (md : MessageDescriptor) : result (SchemaNode * DefinitionsTable) :=
  messageSchemaFromDescriptor oneofRequired g
    (ensureDefinition env oneofRequired g (size env)) md ∅.

(** ** The message-reference graph and the definitions table *)

(** A field the compiler can handle: its kind has a JSON type (or is a
    well-known or resolvable message type), and so has the key kind of a map
    field. *)
Definition supportedField (env : gmap string MessageDescriptor)
  (fd : FieldDescriptor) : bool :=
  match ValueKind fd with
  | MessageKind =>
      match wellKnown (Message fd) with
      | Some _ => true
      | None => bool_decide (is_Some (env !! Message fd))
      end
  | kind => bool_decide (is_Some (kindToType kind))
  end &&
  match FieldCardinality fd with
  | MapOf keyKind => bool_decide (is_Some (kindToType keyKind))
  | _ => true
  end.

Definition supportedMessage (env : gmap string MessageDescriptor)
  (md : MessageDescriptor) : bool :=
  forallb (supportedField env) (Fields md).

(** Every message type of the provider is made of supported fields. *)
Definition supportedEnv (env : gmap string MessageDescriptor) : Prop :=
  map_Forall (fun _ md => supportedMessage env md = true) env.

#[global] Instance supportedEnv_dec env : Decision (supportedEnv env).
Proof. unfold supportedEnv. apply _. Defined.

Section ReferenceGraph.
Context (env : gmap string MessageDescriptor).

(** [edge a b]: the message type [a] has a field that refers to the type [b]. *)
Definition edge (a b : string) : Prop :=
  exists md, env !! a = Some md /\ b ∈ references md.

(** The types reachable from a message through one or more message-typed
    fields. *)
Definition reachableFrom (md : MessageDescriptor) (n : string) : Prop :=
  exists r, r ∈ references md /\ rtc edge r n.

(** The number of message types that are not yet in the table. *)
Definition pending (defs : DefinitionsTable) : nat :=
  size (dom env ∖ dom defs).

(** [grows defs defs' R]: the table [defs'] extends [defs], holds every type
    of [R], every type it adds is reachable from a type of [R], and every type
    a newly added type refers to is in [defs'] as well. *)
Definition grows (defs defs' : DefinitionsTable) (R : list string) : Prop :=
  dom defs ⊆ dom defs' /\
  (forall n, n ∈ R -> n ∈ dom defs') /\
  (forall x, x ∈ dom defs' -> x ∉ dom defs -> exists r, r ∈ R /\ rtc edge r x) /\
  (forall x y, x ∈ dom defs' -> x ∉ dom defs -> edge x y -> y ∈ dom defs').

(** [meets ok bound c R]: started on a table with at most [bound] types
    pending, the step [c] does not run out of fuel; it fails only if [ok] does
    not hold; and when it succeeds the table has grown by what is reachable
    from [R]. *)
Definition meets {A : Type} (ok : Prop) (bound : nat) (c : compile A)
  (R : list string) : Prop :=
  forall defs, pending defs <= bound ->
    match c defs with
    | Ok (_, defs') => grows defs defs' R
    | Failed _ => ~ ok
    | OutOfFuel => False
    end.

End ReferenceGraph.

(** ** Strings that list names *)


(** ** The required list of a message schema *)


(** ** Example descriptors *)

Definition scalarField (name : string) (kind : Kind) (card : Cardinality)
  : FieldDescriptor :=
  mkField name kind card false false None "" "" [].

Definition messageField (name : string) (card : Cardinality) (type : string)
  : FieldDescriptor :=
  mkField name MessageKind card false false None "" type [].

(** The fields of [CreateItemRequest] the tests look at: an annotated name, an
    optional description, repeated tags, a map of labels, thumbnail bytes. *)
Definition exCreateItemRequest : MessageDescriptor :=
  mkMessage "testdata.CreateItemRequest"
    [ mkField "name" StringKind Singular false true None "" "" [];
      mkField "description" StringKind Singular true false None "" "" [];
      scalarField "tags" StringKind Repeated;
      scalarField "labels" StringKind (MapOf StringKind);
      scalarField "thumbnail" BytesKind Singular;
      mkField "product" StringKind Singular false false (Some "item_type")
        "" "" [];
      mkField "service" StringKind Singular false false (Some "item_type")
        "" "" [] ] "".

(** A graph with a self-reference ([Node]), a mutual recursion ([A], [C]) and
    a type shared by two parents ([D], referred to by [B] and [C]). *)
Definition exNode : MessageDescriptor :=
  mkMessage "t.Node"
    [ messageField "children" Repeated "t.Node";
      scalarField "id" Int64Kind Singular ] "".

Definition exA : MessageDescriptor :=
  mkMessage "t.A"
    [ messageField "b" Singular "t.B"; messageField "c" Singular "t.C" ] "".

Definition exB : MessageDescriptor :=
  mkMessage "t.B" [ messageField "d" Singular "t.D" ] "".

Definition exC : MessageDescriptor :=
  mkMessage "t.C"
    [ messageField "d" Singular "t.D"; messageField "a" Singular "t.A" ] "".

Definition exD : MessageDescriptor :=
  mkMessage "t.D"
    [ messageField "at" Singular "google.protobuf.Timestamp";
      scalarField "n" Int32Kind Singular ] "".

Definition exEnv : gmap string MessageDescriptor :=
  {[ "t.Node" := exNode; "t.A" := exA; "t.B" := exB; "t.C" := exC;
     "t.D" := exD ]}.

Definition noOneofRequired : FileGenerator -> string -> bool := fun _ _ => false.



(** The names and the number of entries of the table a compilation returns. *)
Definition tableNames (r : result (SchemaNode * DefinitionsTable))
  : option (list string * nat) :=
  match r with
  | Ok (_, defs) => Some ((map_to_list defs).*1, size defs)
  | _ => None
  end.

Definition schemaProperties (r : result (SchemaNode * DefinitionsTable))
  : option value :=
  match r with
  | Ok (node, _) => node !! "properties"
  | _ => None
  end.


Definition schemaType (r : result (SchemaNode * DefinitionsTable))
  : option value :=
  match r with
  | Ok (node, _) => node !! "type"
  | _ => None
  end.

(** * Theorems *)

(** ** Basic facts: heights, fuel, unfolding equations *)

Lemma variantObjOf_delete (unionObj : gmap string value) :
  variantObjOf unionObj = delete objectTypeKey unionObj.
Proof.
  unfold variantObjOf.
  apply (map_fold_weak_ind (fun r m => r = delete objectTypeKey m)).
  - by rewrite delete_empty.
  - intros i x m' r Hi ->. case_decide as Heq.
    + subst i. by rewrite delete_insert_eq.
    + by rewrite delete_insert_ne.
Qed.

Lemma map_height_lookup (m : gmap string value) k x :
  m !! k = Some x -> height x <= map_height m.
Proof.
  unfold map_height. revert k x.
  apply (map_fold_weak_ind
           (fun r m => forall k x, m !! k = Some x -> height x <= r)).
  - intros k x. by rewrite lookup_empty.
  - intros i y m' r Hi IH k x. rewrite lookup_insert.
    case_decide; [intros [= ->]; lia|]. intros Hk. specialize (IH _ _ Hk). lia.
Qed.

Lemma map_height_le (m : gmap string value) H :
  (forall k x, m !! k = Some x -> height x <= H) -> map_height m <= H.
Proof.
  unfold map_height.
  apply (map_fold_weak_ind
           (fun r m => (forall k x, m !! k = Some x -> height x <= H) -> r <= H)).
  - lia.
  - intros i y m' r Hi IH Hall.
    assert (height y <= H) by (apply (Hall i); by rewrite lookup_insert_eq).
    assert (r <= H); [|lia].
    apply IH. intros k x Hk. apply (Hall k). rewrite lookup_insert_ne; [done|].
    intros ->. congruence.
Qed.

Lemma list_height_lookup (l : list value) i x :
  l !! i = Some x -> height x <= list_height l.
Proof.
  unfold list_height. revert i.
  induction l as [|y l IH]; intros [|i]; simpl; try done.
  - intros [= ->]. lia.
  - intros Hi. specialize (IH _ Hi). lia.
Qed.

Lemma height_VMap (m : gmap string value) : height (VMap m) = S (map_height m).
Proof. reflexivity. Qed.

Lemma height_VArray (l : list value) : height (VArray l) = S (list_height l).
Proof. reflexivity. Qed.

(** The values of a map after one iteration, and after the whole loop, are
    no deeper than the values it held before. *)
Lemma rewriteEntry_height key val (v : gmap string value) H :
  v !! key = Some val ->
  (forall k x, v !! k = Some x -> height x <= H) ->
  forall k x, rewriteEntry key val v !! k = Some x -> height x <= H.
Proof.
  intros Hkey Hall k x. unfold rewriteEntry.
  destruct (HasSuffix key oneOfSuffix); [|apply Hall].
  destruct val as [| | | |?|unionObj]; try apply Hall.
  destruct (unionObj !! objectTypeKey) as [[| | |typeStr| |]|] eqn:Hty;
    try apply Hall.
  pose proof (Hall _ _ Hkey) as Hval. rewrite height_VMap in Hval.
  destruct (unionObj !! typeStr) as [fieldValue|] eqn:Hfield.
  - rewrite lookup_delete. case_decide; [done|].
    rewrite lookup_insert. case_decide; [|apply Hall].
    intros [= <-]. pose proof (map_height_lookup _ _ _ Hfield). lia.
  - rewrite lookup_delete. case_decide; [done|].
    rewrite lookup_insert. case_decide; [|apply Hall].
    intros [= <-]. rewrite height_VMap, variantObjOf_delete.
    assert (map_height (delete objectTypeKey unionObj) <= map_height unionObj);
      [|lia].
    apply map_height_le. intros k' x' Hk'.
    apply lookup_delete_Some in Hk' as [_ Hk'].
    by eapply map_height_lookup.
Qed.

Lemma rangeRewrite_height keys (v : gmap string value) H :
  (forall k x, v !! k = Some x -> height x <= H) ->
  forall k x, rangeRewrite keys v !! k = Some x -> height x <= H.
Proof.
  revert v. induction keys as [|key rest IH]; intros v Hall; [done|].
  simpl. destruct (v !! key) as [val|] eqn:Hkey; [|by apply IH].
  apply IH. by apply rewriteEntry_height.
Qed.

Lemma transformFuel_enough order n1 n2 p obj :
  height obj <= n1 -> height obj <= n2 ->
  transformFuel order n1 p obj = transformFuel order n2 p obj.
Proof.
  revert n2 p obj. induction n1 as [|n1 IH]; intros [|n2] p obj H1 H2.
  - done.
  - destruct obj; simpl in *; try done; lia.
  - destruct obj; simpl in *; try done; lia.
  - destruct obj as [| | | |l|v]; try done.
    + rewrite height_VArray in H1, H2. simpl. f_equal.
      apply list_eq. intros i. rewrite !list_lookup_imap.
      destruct (l !! i) as [x|] eqn:Hi; [|done]. simpl. f_equal.
      pose proof (list_height_lookup _ _ _ Hi). apply IH; lia.
    + rewrite height_VMap in H1, H2. simpl. f_equal.
      apply map_eq. intros k. rewrite !map_lookup_imap.
      destruct (rangeRewrite (order p v) v !! k) as [x|] eqn:Hk; [|done].
      simpl. f_equal.
      assert (height x <= map_height v).
      { eapply rangeRewrite_height; [|done]. apply map_height_lookup. }
      apply IH; lia.
Qed.

(** [transformAt] obeys the recursion of the source: scalars are left alone,
    the elements of an array are transformed, and a map is first rewritten by
    the first loop, then each value of the rewritten map is transformed. *)
Lemma transformAt_VArray order p (l : list value) :
  transformAt order p (VArray l) =
  VArray (imap (fun i x => transformAt order (p ++ [Idx i]) x) l).
Proof.
  unfold transformAt. rewrite height_VArray. simpl. f_equal.
  apply list_eq. intros i. rewrite !list_lookup_imap.
  destruct (l !! i) as [x|] eqn:Hi; [|done]. simpl. f_equal.
  pose proof (list_height_lookup _ _ _ Hi). by apply transformFuel_enough.
Qed.

Lemma transformAt_VMap order p (v : gmap string value) :
  transformAt order p (VMap v) =
  VMap (map_imap (fun k x => Some (transformAt order (p ++ [Key k]) x))
          (rangeRewrite (order p v) v)).
Proof.
  unfold transformAt. rewrite height_VMap. simpl. f_equal.
  apply map_eq. intros k. rewrite !map_lookup_imap.
  destruct (rangeRewrite (order p v) v !! k) as [x|] eqn:Hk; [|done].
  simpl. f_equal. apply transformFuel_enough; [|done].
  eapply rangeRewrite_height; [|done]. apply map_height_lookup.
Qed.

Lemma transformAt_scalar order p obj :
  (forall l, obj <> VArray l) -> (forall v, obj <> VMap v) ->
  transformAt order p obj = obj.
Proof. intros Ha Hm. destruct obj; try done; [by destruct (Ha l)|by destruct (Hm m)]. Qed.

Lemma rewriteEntry_wrapperOf key val (v : gmap string value) :
  rewriteEntry key val v =
  match wrapperOf key val with
  | Some (typeStr, promoted) => delete key (<[typeStr := promoted]> v)
  | None => v
  end.
Proof.
  unfold rewriteEntry, wrapperOf.
  destruct (HasSuffix key oneOfSuffix); [|done].
  destruct val as [| | | |?|unionObj]; try done.
  destruct (unionObj !! objectTypeKey) as [[| | |typeStr| |]|]; try done.
  by destruct (unionObj !! typeStr).
Qed.

Lemma wrapperOf_suffix key val tp :
  wrapperOf key val = Some tp -> HasSuffix key oneOfSuffix = true.
Proof. unfold wrapperOf. by destruct (HasSuffix key oneOfSuffix). Qed.

Lemma wrapperOf_no_suffix key val :
  HasSuffix key oneOfSuffix = false -> wrapperOf key val = None.
Proof. unfold wrapperOf. by intros ->. Qed.

Lemma wrapperOf_malformed key val : malformed val -> wrapperOf key val = None.
Proof.
  unfold malformed, wrapperOf. destruct (HasSuffix key oneOfSuffix); [|done].
  destruct val as [| | | |?|unionObj]; try done.
  by destruct (unionObj !! objectTypeKey) as [[| | |?| |]|].
Qed.

Lemma wrapperOf_None key val :
  wrapperOf key val = None <-> HasSuffix key oneOfSuffix = false \/ malformed val.
Proof.
  split.
  - unfold malformed, wrapperOf. destruct (HasSuffix key oneOfSuffix); [|by left].
    destruct val as [| | | |?|unionObj]; try by right.
    destruct (unionObj !! objectTypeKey) as [[| | |?| |]|]; try by right.
  - intros [?|?]; [by apply wrapperOf_no_suffix|by apply wrapperOf_malformed].
Qed.

Lemma unsuffixed_wrapper (m : gmap string value) key val typeStr promoted :
  targetsUnsuffixed m -> m !! key = Some val ->
  wrapperOf key val = Some (typeStr, promoted) ->
  HasSuffix typeStr oneOfSuffix = false.
Proof. intros Hu Hk Hw. specialize (Hu _ _ Hk). simpl in Hu. by rewrite Hw in Hu. Qed.

(** *** One iteration that rewrites a wrapper *)

Lemma step_target_ne key val typeStr promoted :
  wrapperOf key val = Some (typeStr, promoted) ->
  HasSuffix typeStr oneOfSuffix = false -> typeStr <> key.
Proof. intros Hwrap Hs ->. apply wrapperOf_suffix in Hwrap. congruence. Qed.

Lemma step_lookup (m : gmap string value) key typeStr promoted j :
  (delete key (<[typeStr := promoted]> m)) !! j =
  if decide (j = key) then None
  else if decide (j = typeStr) then Some promoted else m !! j.
Proof.
  rewrite lookup_delete. case_decide; [by rewrite decide_True|].
  rewrite decide_False by done. rewrite lookup_insert.
  case_decide; [by rewrite decide_True|by rewrite decide_False].
Qed.

(** A well-formed wrapper of the rewritten mapping was one before. *)
Lemma step_wrapper_back (m : gmap string value) key typeStr promoted k x tp :
  HasSuffix typeStr oneOfSuffix = false ->
  delete key (<[typeStr := promoted]> m) !! k = Some x ->
  wrapperOf k x = Some tp -> m !! k = Some x /\ k <> key.
Proof.
  intros Hs. rewrite step_lookup. repeat case_decide; simplify_eq.
  - done.
  - intros [= <-] Hw. by rewrite (wrapperOf_no_suffix _ _ Hs) in Hw.
  - done.
Qed.

Lemma step_wrapper_fwd (m : gmap string value) key typeStr promoted k x tp :
  HasSuffix typeStr oneOfSuffix = false ->
  m !! k = Some x -> wrapperOf k x = Some tp -> k <> key ->
  delete key (<[typeStr := promoted]> m) !! k = Some x.
Proof.
  intros Hs Hk Hw Hkne. rewrite step_lookup.
  rewrite decide_False by done. rewrite decide_False; [done|].
  intros ->. by rewrite (wrapperOf_no_suffix _ _ Hs) in Hw.
Qed.

(** Entries whose key ends in ["OneOfType"] are never created or changed,
    only removed. *)
Lemma step_suffix_entry (m : gmap string value) key typeStr promoted j y :
  HasSuffix typeStr oneOfSuffix = false ->
  delete key (<[typeStr := promoted]> m) !! j = Some y ->
  HasSuffix j oneOfSuffix = true -> m !! j = Some y.
Proof.
  intros Hs. rewrite step_lookup.
  repeat case_decide; simplify_eq; [done| |done].
  intros _ Hj. congruence.
Qed.

Lemma step_unsuffixed (m : gmap string value) key typeStr promoted :
  HasSuffix typeStr oneOfSuffix = false ->
  targetsUnsuffixed m ->
  targetsUnsuffixed (delete key (<[typeStr := promoted]> m)).
Proof.
  intros Hs Hu k x Hk. destruct (wrapperOf k x) as [[t q]|] eqn:Hw; [|done].
  destruct (step_wrapper_back _ _ _ _ _ _ _ Hs Hk Hw) as [Hk0 _].
  by eapply unsuffixed_wrapper.
Qed.

(** *** The whole loop *)

Lemma rangeRewrite_unsuffixed keys (v : gmap string value) :
  targetsUnsuffixed v -> targetsUnsuffixed (rangeRewrite keys v).
Proof.
  revert v. induction keys as [|key rest IH]; intros v Hu; [done|]. simpl.
  destruct (v !! key) as [val|] eqn:Hk; [|by apply IH].
  apply IH. rewrite rewriteEntry_wrapperOf.
  destruct (wrapperOf key val) as [[t q]|] eqn:Hw; [|done].
  apply step_unsuffixed; [by eapply unsuffixed_wrapper|done].
Qed.

Lemma rangeRewrite_suffix_entry keys (v : gmap string value) j y :
  targetsUnsuffixed v -> rangeRewrite keys v !! j = Some y ->
  HasSuffix j oneOfSuffix = true -> v !! j = Some y.
Proof.
  revert v. induction keys as [|key rest IH]; intros v Hu; [done|]. simpl.
  destruct (v !! key) as [val|] eqn:Hk; [|by apply IH].
  rewrite rewriteEntry_wrapperOf.
  destruct (wrapperOf key val) as [[t q]|] eqn:Hw; [|by apply IH].
  pose proof (unsuffixed_wrapper _ _ _ _ _ Hu Hk Hw) as Hs.
  intros Hj Hsj. eapply step_suffix_entry; [exact Hs| |done].
  apply IH; [|done..]. by apply step_unsuffixed.
Qed.

(** A key the iterator came to holds no well-formed wrapper afterwards. *)
Lemma rangeRewrite_visited keys (v : gmap string value) j y :
  targetsUnsuffixed v -> j ∈ keys -> rangeRewrite keys v !! j = Some y ->
  wrapperOf j y = None.
Proof.
  revert v. induction keys as [|key rest IH]; intros v Hu Hin Hj.
  { by apply elem_of_nil in Hin. }
  destruct (wrapperOf j y) as [tp|] eqn:Hwj; [exfalso|done].
  pose proof (wrapperOf_suffix _ _ _ Hwj) as Hsj.
  simpl in Hj. apply elem_of_cons in Hin as [->|Hin].
  - destruct (v !! key) as [val|] eqn:Hk.
    + rewrite rewriteEntry_wrapperOf in Hj.
      destruct (wrapperOf key val) as [[t q]|] eqn:Hw.
      * pose proof (unsuffixed_wrapper _ _ _ _ _ Hu Hk Hw) as Hs.
        apply rangeRewrite_suffix_entry in Hj;
          [|by eapply step_unsuffixed|done].
        by rewrite lookup_delete_eq in Hj.
      * apply rangeRewrite_suffix_entry in Hj; [|done..]. congruence.
    + apply rangeRewrite_suffix_entry in Hj; [|done..]. congruence.
  - destruct (v !! key) as [val|] eqn:Hk.
    + rewrite rewriteEntry_wrapperOf in Hj.
      destruct (wrapperOf key val) as [[t q]|] eqn:Hw.
      * pose proof (unsuffixed_wrapper _ _ _ _ _ Hu Hk Hw) as Hs.
        apply IH in Hj; [congruence|by eapply step_unsuffixed|done].
      * apply IH in Hj; [congruence|done..].
    + apply IH in Hj; [congruence|done..].
Qed.

(** After a run that came to every key, no well-formed wrapper is left. *)
Lemma rangeRewrite_no_wrapper keys (v : gmap string value) k x :
  targetsUnsuffixed v -> (forall k, is_Some (v !! k) -> k ∈ keys) ->
  rangeRewrite keys v !! k = Some x -> wrapperOf k x = None.
Proof.
  intros Hu Hcov Hk. destruct (wrapperOf k x) as [tp|] eqn:Hw; [|done].
  rewrite <- Hw. eapply rangeRewrite_visited; [done| |done].
  apply Hcov. exists x. eapply rangeRewrite_suffix_entry; [done..|].
  by eapply wrapperOf_suffix.
Qed.

(** A key that does not end in ["OneOfType"] and is no wrapper's
    discriminator keeps its binding. *)
Lemma rangeRewrite_untargeted keys (v : gmap string value) j :
  targetsUnsuffixed v -> HasSuffix j oneOfSuffix = false ->
  (forall key val q, v !! key = Some val -> wrapperOf key val <> Some (j, q)) ->
  rangeRewrite keys v !! j = v !! j.
Proof.
  intros Hu Hsj. revert v Hu.
  induction keys as [|key rest IH]; intros v Hu Hno; [done|]. simpl.
  destruct (v !! key) as [val|] eqn:Hk; [|by apply IH].
  rewrite rewriteEntry_wrapperOf.
  destruct (wrapperOf key val) as [[t q]|] eqn:Hw; [|by apply IH].
  pose proof (unsuffixed_wrapper _ _ _ _ _ Hu Hk Hw) as Hs.
  rewrite IH.
  - rewrite step_lookup. rewrite decide_False.
    + rewrite decide_False; [done|]. intros ->. by eapply Hno.
    + intros ->. apply wrapperOf_suffix in Hw. congruence.
  - by eapply step_unsuffixed.
  - intros k x q' Hk' Hw'.
    destruct (step_wrapper_back _ _ _ _ _ _ _ Hs Hk' Hw') as [Hk0 _].
    by eapply Hno.
Qed.

(** A malformed wrapper entry stays in place through the whole loop. *)
Lemma rangeRewrite_malformed_kept keys (M : gmap string value) K val :
  targetsUnsuffixed M -> HasSuffix K oneOfSuffix = true ->
  M !! K = Some val -> malformed val ->
  rangeRewrite keys M !! K = Some val.
Proof.
  intros Hu Hs HK Hmal. revert M Hu HK.
  induction keys as [|key rest IH]; intros M Hu HK; [done|]. simpl.
  destruct (M !! key) as [x|] eqn:Hk; [|by apply IH].
  rewrite rewriteEntry_wrapperOf.
  destruct (wrapperOf key x) as [[T q]|] eqn:Hw; [|by apply IH].
  pose proof (unsuffixed_wrapper _ _ _ _ _ Hu Hk Hw) as HsT.
  apply IH; [by eapply step_unsuffixed|].
  rewrite step_lookup. rewrite decide_False.
  - rewrite decide_False; [done|]. congruence.
  - intros ->. simplify_eq. by rewrite wrapperOf_malformed in Hw.
Qed.

Lemma tidy_wrapper (m : gmap string value) key val typeStr promoted :
  tidy m -> m !! key = Some val -> wrapperOf key val = Some (typeStr, promoted) ->
  HasSuffix typeStr oneOfSuffix = false /\
  forall key' val' promoted',
    m !! key' = Some val' -> wrapperOf key' val' = Some (typeStr, promoted') ->
    key' = key.
Proof.
  intros Ht Hk Hw. specialize (Ht _ _ Hk). unfold tidyEntry in Ht.
  rewrite Hw in Ht. destruct Ht as (Hs & Hinj). split; [done|].
  intros key' val' promoted' Hk' Hw'. apply (Hinj _ _ Hk'). by rewrite Hw'.
Qed.

Lemma tidy_intro (m : gmap string value) :
  (forall key val typeStr promoted,
      m !! key = Some val -> wrapperOf key val = Some (typeStr, promoted) ->
      HasSuffix typeStr oneOfSuffix = false /\
      forall key' val' promoted',
        m !! key' = Some val' -> wrapperOf key' val' = Some (typeStr, promoted') ->
        key' = key) ->
  tidy m.
Proof.
  intros H key val Hk. unfold tidyEntry.
  destruct (wrapperOf key val) as [[typeStr promoted]|] eqn:Hw; [|done].
  destruct (H _ _ _ _ Hk Hw) as (Hs & Hinj). split; [done|].
  intros key' val' Hk' Hw'.
  destruct (wrapperOf key' val') as [[t' p']|] eqn:Hw''; [|done].
  simpl in Hw'. injection Hw' as ->. by eapply Hinj.
Qed.

Lemma tidy_unsuffixed (m : gmap string value) : tidy m -> targetsUnsuffixed m.
Proof.
  intros Ht key val Hk. destruct (wrapperOf key val) as [[t q]|] eqn:Hw; [|done].
  by destruct (tidy_wrapper _ _ _ _ _ Ht Hk Hw).
Qed.

(** *** One iteration on a tidy mapping *)

Section TidyStep.
Context (m : gmap string value) (key : string) (val : value)
        (typeStr : string) (promoted : value).
Hypothesis Htidy : tidy m.
Hypothesis Hkey : m !! key = Some val.
Hypothesis Hwrap : wrapperOf key val = Some (typeStr, promoted).

Lemma tidy_step_promotedTo j y :
  promotedTo (delete key (<[typeStr := promoted]> m)) j y <-> promotedTo m j y.
Proof.
  destruct (tidy_wrapper _ _ _ _ _ Htidy Hkey Hwrap) as (Hs & Hinj).
  pose proof (step_target_ne _ _ _ _ Hwrap Hs) as Hne.
  assert (Hback : forall k x tp,
             delete key (<[typeStr := promoted]> m) !! k = Some x ->
             wrapperOf k x = Some tp -> m !! k = Some x /\ k <> key).
  { intros k x tp. by apply step_wrapper_back. }
  assert (Hfwd : forall k x tp,
             m !! k = Some x -> wrapperOf k x = Some tp -> k <> key ->
             delete key (<[typeStr := promoted]> m) !! k = Some x).
  { intros k x tp. by apply step_wrapper_fwd. }
  unfold promotedTo. split.
  - intros [(key' & val' & Hk' & Hw')|(Hj & Hw & Hno)].
    + destruct (Hback _ _ _ Hk' Hw'). left. eauto.
    + rewrite step_lookup in Hj. repeat case_decide; simplify_eq.
      * left. eauto.
      * right. split; [done|]. split; [done|].
        intros key' val' q Hk' Hw'. apply (Hno key' val' q); [|done].
        eapply Hfwd; [done..|]. intros ->. congruence.
  - intros [(key' & val' & Hk' & Hw')|(Hj & Hw & Hno)].
    + destruct (decide (key' = key)) as [->|Hne'].
      * simplify_eq. right. split; [|split].
        -- rewrite step_lookup. rewrite decide_False by done.
           by rewrite decide_True.
        -- by apply wrapperOf_no_suffix.
        -- intros k x q Hk Hw.
           destruct (Hback _ _ _ Hk Hw) as [Hk0 Hkne].
           destruct Hkne. by eapply Hinj.
      * left. exists key', val'. split; [|done]. by eapply Hfwd.
    + right. split; [|split; [done|]].
      * rewrite step_lookup. rewrite decide_False by congruence.
        rewrite decide_False; [done|]. intros ->.
        by eapply (Hno key val promoted).
      * intros k x q Hk Hw'. destruct (Hback _ _ _ Hk Hw') as [Hk0 _].
        by eapply Hno.
Qed.

Lemma tidy_step_tidy : tidy (delete key (<[typeStr := promoted]> m)).
Proof.
  destruct (tidy_wrapper _ _ _ _ _ Htidy Hkey Hwrap) as (Hs & _).
  assert (Hback : forall k x tp,
             delete key (<[typeStr := promoted]> m) !! k = Some x ->
             wrapperOf k x = Some tp -> m !! k = Some x /\ k <> key).
  { intros k x tp. by apply step_wrapper_back. }
  apply tidy_intro. intros k x t q Hk Hw.
  destruct (Hback _ _ _ Hk Hw) as [Hk0 Hkne].
  destruct (tidy_wrapper _ _ _ _ _ Htidy Hk0 Hw) as (Hs' & Hinj').
  split; [done|].
  intros k' x' q' Hk' Hw'. destruct (Hback _ _ _ Hk' Hw') as [Hk0' _].
  by eapply Hinj'.
Qed.

End TidyStep.

(** *** The whole loop on a tidy mapping *)

Lemma rangeRewrite_tidy keys (v : gmap string value) :
  tidy v -> tidy (rangeRewrite keys v).
Proof.
  revert v. induction keys as [|key rest IH]; intros v Ht; [done|]. simpl.
  destruct (v !! key) as [val|] eqn:Hk; [|by apply IH].
  apply IH. rewrite rewriteEntry_wrapperOf.
  destruct (wrapperOf key val) as [[t q]|] eqn:Hw; [|done].
  by eapply tidy_step_tidy.
Qed.

Lemma rangeRewrite_promotedTo keys (v : gmap string value) j y :
  tidy v -> promotedTo (rangeRewrite keys v) j y <-> promotedTo v j y.
Proof.
  revert v. induction keys as [|key rest IH]; intros v Ht; [done|]. simpl.
  destruct (v !! key) as [val|] eqn:Hk; [|by apply IH].
  rewrite rewriteEntry_wrapperOf.
  destruct (wrapperOf key val) as [[t q]|] eqn:Hw; [|by apply IH].
  rewrite IH by (by eapply tidy_step_tidy). by eapply tidy_step_promotedTo.
Qed.

(** The result of the loop on a tidy mapping, for every run that comes to
    each of its keys: exactly the entries [promotedTo] describes. *)
Lemma rangeRewrite_tidy_lookup keys (v : gmap string value) j y :
  tidy v -> (forall k, is_Some (v !! k) -> k ∈ keys) ->
  rangeRewrite keys v !! j = Some y <-> promotedTo v j y.
Proof.
  intros Ht Hcov.
  assert (Hnone : forall k x, rangeRewrite keys v !! k = Some x ->
                              wrapperOf k x = None).
  { intros k x. apply rangeRewrite_no_wrapper; [by apply tidy_unsuffixed|done]. }
  rewrite <- (rangeRewrite_promotedTo keys) by done. split.
  - intros Hj. right. split; [done|]. split; [by eapply Hnone|].
    intros k x q Hk. by rewrite (Hnone _ _ Hk).
  - intros [(k & x & Hk & Hw)|[Hj _]]; [|done].
    rewrite (Hnone _ _ Hk) in Hw. done.
Qed.

Lemma rangeRewrite_tidy_order keys1 keys2 (v : gmap string value) :
  tidy v ->
  (forall k, is_Some (v !! k) -> k ∈ keys1) ->
  (forall k, is_Some (v !! k) -> k ∈ keys2) ->
  rangeRewrite keys1 v = rangeRewrite keys2 v.
Proof.
  intros Ht H1 H2. apply map_eq. intros j. apply option_eq. intros y.
  by rewrite !rangeRewrite_tidy_lookup.
Qed.

Lemma allMaps_VMap P (m : gmap string value) :
  allMaps P (VMap m) = true <->
  P m = true /\ forall k x, m !! k = Some x -> allMaps P x = true.
Proof.
  simpl. rewrite andb_true_iff.
  assert (map_fold (fun _ x acc => allMaps P x && acc) true m = true <->
          forall k x, m !! k = Some x -> allMaps P x = true) as ->; [|done].
  apply (map_fold_weak_ind
           (fun r m' => r = true <->
                        forall k x, m' !! k = Some x -> allMaps P x = true)).
  - split; [|done]. intros _ k x. by rewrite lookup_empty.
  - intros i y m' r Hi IH. rewrite andb_true_iff, IH. split.
    + intros [Hy Hall] k x. rewrite lookup_insert.
      case_decide; [by intros [= <-]|by apply Hall].
    + intros Hall. split.
      * apply (Hall i). by rewrite lookup_insert_eq.
      * intros k x Hk. apply (Hall k). rewrite lookup_insert_ne; [done|].
        intros ->. congruence.
Qed.

Lemma allMaps_VArray P (l : list value) :
  allMaps P (VArray l) = true <->
  forall i x, l !! i = Some x -> allMaps P x = true.
Proof.
  simpl. induction l as [|y l IH]; simpl.
  - split; [|done]. by intros _ [|?] ?.
  - rewrite andb_true_iff, IH. split.
    + intros [Hy Hall] [|i] x; simpl; [by intros [= <-]|by apply Hall].
    + intros Hall. split; [by apply (Hall 0)|].
      intros i x Hi. by apply (Hall (S i)).
Qed.

Lemma value_height_ind (P : value -> Prop) :
  (forall obj, (forall u, height u < height obj -> P u) -> P obj) ->
  forall obj, P obj.
Proof.
  intros Hstep obj. remember (height obj) as n eqn:Hn. revert obj Hn.
  induction (lt_wf n) as [n _ IH]. intros obj ->.
  apply Hstep. intros u Hu. by eapply IH.
Qed.

Section Hereditary.
Context (P : gmap string value -> bool).
Hypothesis P_strip : forall W, P W = true -> P (delete objectTypeKey W) = true.

Lemma wrapperOf_allMaps key val typeStr promoted :
  allMaps P val = true -> wrapperOf key val = Some (typeStr, promoted) ->
  allMaps P promoted = true.
Proof.
  unfold wrapperOf. destruct (HasSuffix key oneOfSuffix); [|done].
  destruct val as [| | | |?|unionObj]; try done.
  destruct (unionObj !! objectTypeKey) as [[| | |t| |]|]; try done.
  intros [HP Hall]%allMaps_VMap [= -> <-].
  destruct (unionObj !! typeStr) as [fieldValue|] eqn:Hf; simpl; [by eapply Hall|].
  rewrite variantObjOf_delete. apply allMaps_VMap. split; [by apply P_strip|].
  intros k x [_ Hk]%lookup_delete_Some. by eapply Hall.
Qed.

Lemma rangeRewrite_allMaps keys (v : gmap string value) :
  (forall k x, v !! k = Some x -> allMaps P x = true) ->
  forall k x, rangeRewrite keys v !! k = Some x -> allMaps P x = true.
Proof.
  revert v. induction keys as [|key rest IH]; intros v Hall; [done|]. simpl.
  destruct (v !! key) as [val|] eqn:Hk; [|by apply IH].
  apply IH. rewrite rewriteEntry_wrapperOf.
  destruct (wrapperOf key val) as [[t q]|] eqn:Hw; [|done].
  intros k x. rewrite lookup_delete. case_decide; [done|].
  rewrite lookup_insert. case_decide; [|by apply Hall].
  intros [= <-]. eapply wrapperOf_allMaps; [|done]. by eapply Hall.
Qed.

End Hereditary.

Lemma tidy_strip (W : gmap string value) :
  tidy W -> tidy (delete objectTypeKey W).
Proof.
  intros Ht. apply tidy_intro. intros key val t q [_ Hk]%lookup_delete_Some Hw.
  destruct (tidy_wrapper _ _ _ _ _ Ht Hk Hw) as (Hs & Hinj).
  split; [done|].
  intros key' val' q' [_ Hk']%lookup_delete_Some Hw'. by eapply Hinj.
Qed.

Lemma tidyb_strip W : tidyb W = true -> tidyb (delete objectTypeKey W) = true.
Proof.
  unfold tidyb. rewrite !bool_decide_eq_true. apply tidy_strip.
Qed.

Lemma unsuffixedb_strip W :
  unsuffixedb W = true -> unsuffixedb (delete objectTypeKey W) = true.
Proof.
  unfold unsuffixedb. rewrite !bool_decide_eq_true.
  intros Hu key val [_ Hk]%lookup_delete_Some. by apply (Hu key val).
Qed.

(** The result of the flattener on a value all of whose mappings are tidy does
    not depend on the iteration schedule. *)
Lemma transformAt_Tidy_order obj :
  Tidy obj ->
  forall order1 order2 p1 p2, covers order1 -> covers order2 ->
    transformAt order1 p1 obj = transformAt order2 p2 obj.
Proof.
  induction obj as [obj IH] using value_height_ind.
  intros HT order1 order2 p1 p2 Hc1 Hc2.
  destruct obj as [| | | |l|m]; try done.
  - rewrite !transformAt_VArray. f_equal. apply list_eq. intros i.
    rewrite !list_lookup_imap. destruct (l !! i) as [x|] eqn:Hi; [|done].
    simpl. f_equal. apply IH; [|by eapply allMaps_VArray|done..].
    rewrite height_VArray. pose proof (list_height_lookup _ _ _ Hi). lia.
  - rewrite !transformAt_VMap. apply allMaps_VMap in HT as [Htm Hall].
    apply bool_decide_eq_true in Htm.
    rewrite (rangeRewrite_tidy_order (order1 p1 m) (order2 p2 m))
      by (done || apply Hc1 || apply Hc2).
    f_equal. apply map_eq. intros k. rewrite !map_lookup_imap.
    destruct (rangeRewrite (order2 p2 m) m !! k) as [x|] eqn:Hk; [|done].
    simpl. f_equal. apply IH; [| |done..].
    + rewrite height_VMap.
      assert (height x <= map_height m); [|lia].
      eapply rangeRewrite_height; [|done]. apply map_height_lookup.
    + eapply (rangeRewrite_allMaps _ tidyb_strip); [|done]. done.
Qed.

Lemma allMaps_impl (P Q : gmap string value -> bool) obj :
  (forall m, P m = true -> Q m = true) ->
  allMaps P obj = true -> allMaps Q obj = true.
Proof.
  intros HPQ. induction obj as [obj IH] using value_height_ind.
  destruct obj as [| | | |l|m]; try done.
  - rewrite !allMaps_VArray. intros Hall i x Hi. apply IH; [|by eapply Hall].
    rewrite height_VArray. pose proof (list_height_lookup _ _ _ Hi). lia.
  - rewrite !allMaps_VMap. intros [HP Hall]. split; [by apply HPQ|].
    intros k x Hk. apply IH; [|by eapply Hall].
    rewrite height_VMap. pose proof (map_height_lookup _ _ _ Hk). lia.
Qed.

Lemma Flattened_Settled obj : Flattened obj -> Settled obj.
Proof.
  apply allMaps_impl. intros m. unfold noSuffixKeyb, settledb.
  rewrite !bool_decide_eq_true. intros Hm key val Hk.
  apply wrapperOf_no_suffix. by eapply Hm.
Qed.

Lemma rangeRewrite_settled keys (v : gmap string value) :
  settledMap v -> rangeRewrite keys v = v.
Proof.
  intros Hs. induction keys as [|key rest IH]; [done|]. simpl.
  destruct (v !! key) as [val|] eqn:Hk; [|done].
  rewrite rewriteEntry_wrapperOf, (Hs _ _ Hk). done.
Qed.

(** On a settled value the flattener is the identity, whatever the schedule. *)
Lemma transformAt_Settled obj :
  Settled obj -> forall order p, transformAt order p obj = obj.
Proof.
  induction obj as [obj IH] using value_height_ind. intros HS order p.
  destruct obj as [| | | |l|m]; try done.
  - rewrite transformAt_VArray. f_equal. apply list_eq. intros i.
    rewrite list_lookup_imap. destruct (l !! i) as [x|] eqn:Hi; [|done].
    simpl. f_equal. apply IH; [|by eapply allMaps_VArray].
    rewrite height_VArray. pose proof (list_height_lookup _ _ _ Hi). lia.
  - rewrite transformAt_VMap. apply allMaps_VMap in HS as [Hsm Hall].
    apply bool_decide_eq_true in Hsm. rewrite rangeRewrite_settled by done.
    f_equal. apply map_eq. intros k. rewrite map_lookup_imap.
    destruct (m !! k) as [x|] eqn:Hk; [|done]. simpl. f_equal.
    apply IH; [|by eapply Hall].
    rewrite height_VMap. pose proof (map_height_lookup _ _ _ Hk). lia.
Qed.

(** The flattener keeps the kind of a value. *)
Lemma transformAt_not_VString order p obj s :
  transformAt order p obj = VString s -> obj = VString s.
Proof.
  by destruct obj as [| | | |l|m].
Qed.

Lemma plainTargets_strip (W : gmap string value) :
  plainTargetsb W = true -> plainTargetsb (delete objectTypeKey W) = true.
Proof.
  unfold plainTargetsb. rewrite !bool_decide_eq_true.
  intros Hp key val [_ Hk]%lookup_delete_Some. by eapply Hp.
Qed.

(** When no discriminator ends in ["OneOfType"] or is ["object_type"], the
    loop leaves the binding of ["object_type"] as it was. *)
Lemma rangeRewrite_objectType keys (W : gmap string value) :
  targetsUnsuffixed W -> plainTargets W ->
  rangeRewrite keys W !! objectTypeKey = W !! objectTypeKey.
Proof.
  intros Hu Hp. apply rangeRewrite_untargeted; [done..|].
  intros key val q Hk Hw. specialize (Hp _ _ Hk). simpl in Hp.
  rewrite Hw in Hp. done.
Qed.

Lemma transformAt_malformed order p obj :
  Unsuffixed obj -> PlainTargets obj ->
  malformed obj -> malformed (transformAt order p obj).
Proof.
  intros HU HP. destruct obj as [| | | |l|W]; try done.
  rewrite transformAt_VMap. simpl. rewrite map_lookup_imap.
  apply allMaps_VMap in HU as [Hu%bool_decide_eq_true _].
  apply allMaps_VMap in HP as [Hp%bool_decide_eq_true _].
  rewrite rangeRewrite_objectType by done.
  destruct (W !! objectTypeKey) as [y|]; simpl; [|done].
  destruct (transformAt order (p ++ [Key objectTypeKey]) y) eqn:Hy; try done.
  apply transformAt_not_VString in Hy as ->. done.
Qed.

Lemma Tidy_Unsuffixed obj : Tidy obj -> Unsuffixed obj.
Proof.
  apply allMaps_impl. intros m. unfold tidyb, unsuffixedb.
  rewrite !bool_decide_eq_true. apply tidy_unsuffixed.
Qed.

Lemma Flattened_Unsuffixed obj : Flattened obj -> Unsuffixed obj.
Proof.
  apply allMaps_impl. intros m. unfold noSuffixKeyb, unsuffixedb.
  rewrite !bool_decide_eq_true. intros Hm key val Hk.
  by rewrite (wrapperOf_no_suffix _ _ (Hm _ _ Hk)).
Qed.

Lemma Flattened_PlainTargets obj : Flattened obj -> PlainTargets obj.
Proof.
  apply allMaps_impl. intros m. unfold noSuffixKeyb, plainTargetsb.
  rewrite !bool_decide_eq_true. intros Hm key val Hk. simpl.
  by rewrite (wrapperOf_no_suffix _ _ (Hm _ _ Hk)).
Qed.

(** After one pass over a value in whose mappings no discriminator ends in
    ["OneOfType"] or is ["object_type"], no well-formed wrapper is left. *)
Lemma transformAt_settles obj :
  Unsuffixed obj -> PlainTargets obj ->
  forall order p, covers order -> Settled (transformAt order p obj).
Proof.
  induction obj as [obj IH] using value_height_ind. intros HU HP order p Hc.
  destruct obj as [| | | |l|m]; try done.
  - rewrite transformAt_VArray. apply allMaps_VArray. intros i x.
    rewrite list_lookup_imap. destruct (l !! i) as [x0|] eqn:Hi; [|done].
    simpl. intros [= <-]. apply IH; [|by eapply allMaps_VArray..|done].
    rewrite height_VArray. pose proof (list_height_lookup _ _ _ Hi). lia.
  - rewrite transformAt_VMap.
    pose proof HU as [Hu%bool_decide_eq_true HUall]%allMaps_VMap.
    pose proof HP as [Hp%bool_decide_eq_true HPall]%allMaps_VMap.
    set (r := rangeRewrite (order p m) m).
    assert (Hr : forall k x, r !! k = Some x ->
                 height x < height (VMap m) /\ Unsuffixed x /\ PlainTargets x).
    { intros k x Hk. split; [|split].
      - rewrite height_VMap.
        assert (height x <= map_height m); [|lia].
        eapply rangeRewrite_height; [|done]. apply map_height_lookup.
      - by eapply (rangeRewrite_allMaps _ unsuffixedb_strip).
      - by eapply (rangeRewrite_allMaps _ plainTargets_strip). }
    apply allMaps_VMap. split.
    + apply bool_decide_eq_true. intros k y. rewrite map_lookup_imap.
      destruct (r !! k) as [x|] eqn:Hk; [|done]. simpl. intros [= <-].
      destruct (Hr _ _ Hk) as (_ & HUx & HPx).
      apply wrapperOf_None.
      destruct (HasSuffix k oneOfSuffix) eqn:Hs; [right|by left].
      apply transformAt_malformed; [done..|].
      apply rangeRewrite_no_wrapper in Hk; [|done|apply Hc].
      apply wrapperOf_None in Hk as [?|?]; [congruence|done].
    + intros k y. rewrite map_lookup_imap.
      destruct (r !! k) as [x|] eqn:Hk; [|done]. simpl. intros [= <-].
      destruct (Hr _ _ Hk) as (Hh & HUx & HPx). by apply IH.
Qed.

(** ** Concrete schedules *)

Lemma covers_initialKeys : covers initialKeys.
Proof.
  intros p v k [x Hk]. unfold initialKeys.
  apply list_elem_of_fmap. exists (k, x). split; [done|].
  by apply elem_of_map_to_list.
Qed.

Lemma covers_initialKeysRev : covers initialKeysRev.
Proof.
  intros p v k Hk. unfold initialKeysRev. apply elem_of_reverse.
  by apply (covers_initialKeys p).
Qed.

Lemma covers_initialThenCreated : covers initialThenCreated.
Proof.
  intros p v k Hk. unfold initialThenCreated. apply elem_of_app. left.
  by apply (covers_initialKeys p).
Qed.

(** ** The flattener on a tidy mapping *)


Lemma flatten_tidy_other order p (M : gmap string value) j y :
  tidy M -> covers order -> M !! j = Some y -> wrapperOf j y = None ->
  (forall key val q, M !! key = Some val -> wrapperOf key val <> Some (j, q)) ->
  exists M', transformAt order p (VMap M) = VMap M' /\
             M' !! j = Some (transformAt order (p ++ [Key j]) y).
Proof.
  intros Ht Hc Hj Hw Hno. rewrite transformAt_VMap. eexists. split; [done|].
  rewrite map_lookup_imap.
  assert (rangeRewrite (order p M) M !! j = Some y) as ->; [|done].
  apply rangeRewrite_tidy_lookup; [done|apply Hc|]. by right.
Qed.

Lemma flatten_Tidy_initialKeys order obj :
  Tidy obj -> covers order ->
  transformOneOfFieldsRecursive order obj =
  transformOneOfFieldsRecursive initialKeys obj.
Proof.
  intros HT Hc. apply transformAt_Tidy_order; [done..|apply covers_initialKeys].
Qed.




(** Whether the loop comes to an entry created during the iteration shows in
    the result when a discriminator ends in ["OneOfType"]: the created entry
    of [exChained] is rewritten in a run that comes to it, and stays as it is
    in a run that does not. *)
Lemma created_entries_matter :
  transformOneOfFieldsRecursive initialKeys exChained =
    VMap {[ "bOneOfType" :=
              VMap {[ "object_type" := VString "c"; "c" := VNumber 1 ]} ]} /\
  transformOneOfFieldsRecursive initialThenCreated exChained =
    VMap {[ "c" := VNumber 1 ]}.
Proof. split; reflexivity. Qed.

(** ** C1: promotion of a message-typed variant *)




(** ** C2: promotion of a primitive or inline variant *)




(** ** C7: applying the flattener twice *)

(** C7 (as stated, refuted).  On [exLateWrapper] the outer entry holds a map
    without ["object_type"], so the first pass leaves it in place; the
    recursion then promotes a value to the key ["object_type"] inside it, and
    a second pass finds a well-formed wrapper and rewrites it.  Every map
    involved has a single key, and the results are the same under every
    schedule. *)
Lemma flatten_twice_differs :
  let once : value :=
    VMap {[ "aOneOfType" := VMap {[ "object_type" := VString "object_type" ]} ]} in
  let twice : value := VMap {[ "object_type" := VString "object_type" ]} in
  (forall order, covers order ->
     transformOneOfFieldsRecursive order exLateWrapper = once) /\
  (forall order, covers order ->
     transformOneOfFieldsRecursive order once = twice) /\
  twice <> once /\
  transformOneOfFieldsRecursive initialKeys
    (transformOneOfFieldsRecursive initialKeys exLateWrapper) <>
  transformOneOfFieldsRecursive initialKeys exLateWrapper.
Proof.
  repeat split.
  - intros order Hc. by rewrite flatten_Tidy_initialKeys.
  - intros order Hc. by rewrite flatten_Tidy_initialKeys.
  - by vm_compute.
  - by vm_compute.
Qed.

(** C7 (amended).  For every JSON-shaped value in which, in each mapping, the
    discriminators of the well-formed wrappers do not end in ["OneOfType"]
    and are not ["object_type"], flattening twice gives the same result as
    flattening once, whatever the schedules of the two passes. *)
Theorem flatten_idempotent_on_plain (obj : value) (order1 order2 : schedule) :
  Unsuffixed obj -> PlainTargets obj -> covers order1 ->
  transformOneOfFieldsRecursive order2 (transformOneOfFieldsRecursive order1 obj)
  = transformOneOfFieldsRecursive order1 obj.
Proof.
  intros HT HP Hc. apply transformAt_Settled. by apply transformAt_settles.
Qed.

Lemma flatten_idempotent_on_plain_witness :
  transformOneOfFieldsRecursive initialKeysRev
    (transformOneOfFieldsRecursive initialKeys exSameTarget)
  = transformOneOfFieldsRecursive initialKeys exSameTarget.
Proof.
  apply (flatten_idempotent_on_plain exSameTarget initialKeys initialKeysRev);
    [reflexivity|reflexivity|exact covers_initialKeys].
Defined.

(** ** C8: the iteration order *)

(** C8 (as stated, refuted).  The two wrappers of [exSameTarget] have the same
    discriminator ["x"]: the one visited last overwrites what the other
    promoted.  [initialKeys] and [initialKeysRev] both come to exactly the two
    keys of the mapping, in opposite orders. *)
Lemma flatten_order_dependent :
  initialKeys [] {[ "aOneOfType" := VNull; "bOneOfType" := VNull ]}
    = ["aOneOfType"; "bOneOfType"] /\
  initialKeysRev [] {[ "aOneOfType" := VNull; "bOneOfType" := VNull ]}
    = ["bOneOfType"; "aOneOfType"] /\
  transformOneOfFieldsRecursive initialKeys exSameTarget
    = VMap {[ "x" := VNumber 2 ]} /\
  transformOneOfFieldsRecursive initialKeysRev exSameTarget
    = VMap {[ "x" := VNumber 1 ]} /\
  transformOneOfFieldsRecursive initialKeys exSameTarget <>
  transformOneOfFieldsRecursive initialKeysRev exSameTarget.
Proof. repeat split; try reflexivity. by vm_compute. Qed.

(** C8 (amended).  For every JSON-shaped value in which, in each mapping, the
    discriminators of the well-formed wrappers are pairwise distinct and do
    not end in ["OneOfType"], any two runs of the flattener (any two
    schedules) produce equal results. *)
Theorem flatten_order_independent_on_tidy (obj : value) (order1 order2 : schedule) :
  Tidy obj -> covers order1 -> covers order2 ->
  transformOneOfFieldsRecursive order1 obj
  = transformOneOfFieldsRecursive order2 obj.
Proof. intros HT Hc1 Hc2. by apply transformAt_Tidy_order. Qed.

Lemma flatten_order_independent_on_tidy_witness :
  transformOneOfFieldsRecursive initialKeys (VMap exSibling)
  = transformOneOfFieldsRecursive initialKeysRev (VMap exSibling).
Proof.
  apply (flatten_order_independent_on_tidy (VMap exSibling));
    [reflexivity|exact covers_initialKeys|exact covers_initialKeysRev].
Defined.

(** ** C10: a sibling already bound to the discriminator *)

(** C10.  [exSibling] holds the wrapper ["kOneOfType"] with discriminator
    ["a"] next to an entry already bound to ["a"]: the iteration at the
    wrapper, and the flattener under every schedule, replace the sibling's
    value [0] by the promoted value [1]; so an iteration does change a key
    other than the wrapper key it rewrites. *)
Theorem sibling_overwritten :
  exists (M W : gmap string value) (K T : string) (old new : value),
    HasSuffix K oneOfSuffix = true /\
    M !! K = Some (VMap W) /\
    W !! objectTypeKey = Some (VString T) /\
    W !! T = Some new /\
    T <> K /\ M !! T = Some old /\ old <> new /\
    rewriteEntry K (VMap W) M !! T = Some new /\
    (forall order, covers order ->
       transformOneOfFieldsRecursive order (VMap M) = VMap {[ T := new ]}) /\
    ~ (forall j, j <> K -> rewriteEntry K (VMap W) M !! j = M !! j).
Proof.
  exists exSibling,
    ({[ "object_type" := VString "a"; "a" := VNumber 1 ]} : gmap string value),
    "kOneOfType", "a", (VNumber 0), (VNumber 1).
  repeat split; try reflexivity; try discriminate.
  - intros order Hc. by rewrite flatten_Tidy_initialKeys.
  - intros Hframe. specialize (Hframe "a" ltac:(discriminate)).
    vm_compute in Hframe. discriminate.
Qed.

(** ** Further properties of the flattener *)

(** X1.  On a value none of whose keys ends in ["OneOfType"], the flattener
    is the identity, under every schedule. *)
Theorem flatten_identity_on_flattened (obj : value) (order : schedule) :
  Flattened obj -> transformOneOfFieldsRecursive order obj = obj.
Proof. intros HF. by apply transformAt_Settled, Flattened_Settled. Qed.

Lemma flatten_identity_on_flattened_witness :
  transformOneOfFieldsRecursive initialKeys exMessageVariantFlat
  = exMessageVariantFlat.
Proof.
  apply (flatten_identity_on_flattened exMessageVariantFlat initialKeys).
  reflexivity.
Defined.

(** X3.  The four cases of [TestOneOfTransformation] hold, under every
    schedule. *)
Theorem TestOneOfTransformation_holds (order : schedule) :
  covers order ->
  Forall (fun '(input, expected) =>
            transformOneOfFieldsRecursive order input = expected)
    TestOneOfTransformation_cases.
Proof.
  intros Hc. repeat constructor; by rewrite flatten_Tidy_initialKeys.
Qed.

Lemma TestOneOfTransformation_holds_witness :
  Forall (fun '(input, expected) =>
            transformOneOfFieldsRecursive initialKeysRev input = expected)
    TestOneOfTransformation_cases.
Proof.
  apply (TestOneOfTransformation_holds initialKeysRev).
  exact covers_initialKeysRev.
Defined.

(** ** What the flattener never does *)

Lemma rewriteEntry_size key val (v : gmap string value) :
  v !! key = Some val -> size (rewriteEntry key val v) <= size v.
Proof.
  intros Hk. rewrite rewriteEntry_wrapperOf.
  destruct (wrapperOf key val) as [[T q]|]; [|done].
  rewrite map_size_delete, map_size_insert, lookup_insert.
  destruct (decide (T = key)) as [->|Hne].
  - rewrite Hk. simpl. lia.
  - rewrite Hk. destruct (v !! T); simpl; lia.
Qed.

Lemma rangeRewrite_size keys (v : gmap string value) :
  size (rangeRewrite keys v) <= size v.
Proof.
  revert v. induction keys as [|key rest IH]; intros v; [done|]. simpl.
  destruct (v !! key) as [val|] eqn:Hk; [|apply IH].
  etrans; [apply IH|]. by apply rewriteEntry_size.
Qed.

Lemma size_imap_Some (f : string -> value -> value) (m : gmap string value) :
  size (map_imap (fun k x => Some (f k x)) m) = size m.
Proof.
  rewrite <- !size_dom. f_equal. apply set_eq. intros k.
  rewrite !elem_of_dom, map_lookup_imap. destruct (m !! k); simpl; split;
    intros [? ?]; done || by eexists.
Qed.

(** X4.  The flattener never adds to the number of keys of a mapping: each
    substitution stores one key and deletes one, under every schedule. *)
Theorem flatten_never_adds_keys (order : schedule) (v : gmap string value) :
  exists v', transformOneOfFieldsRecursive order (VMap v) = VMap v' /\
             size v' <= size v.
Proof.
  unfold transformOneOfFieldsRecursive. rewrite transformAt_VMap.
  eexists. split; [done|]. rewrite size_imap_Some. apply rangeRewrite_size.
Qed.

Lemma list_height_le (l : list value) H :
  (forall i x, l !! i = Some x -> height x <= H) -> list_height l <= H.
Proof.
  revert H. induction l as [|y l IHl]; intros H Hall; [unfold list_height; simpl; lia|].
  unfold list_height in *. simpl.
  pose proof (Hall 0 y eq_refl). specialize (IHl H (fun i => Hall (S i))). lia.
Qed.

Lemma transformAt_height (order : schedule) (obj : value) :
  forall p, height (transformAt order p obj) <= height obj.
Proof.
  induction obj as [obj IH] using value_height_ind. intros p.
  destruct obj as [| | | |l|v]; try done.
  - rewrite transformAt_VArray, !height_VArray. apply le_n_S.
    apply list_height_le. intros i x Hi. rewrite list_lookup_imap in Hi.
    destruct (l !! i) as [y|] eqn:Hy; [|done]. simpl in Hi. injection Hi as <-.
    pose proof (list_height_lookup _ _ _ Hy).
    etrans; [apply IH|done]. rewrite height_VArray. lia.
  - rewrite transformAt_VMap, !height_VMap. apply le_n_S.
    apply map_height_le. intros k x Hk. rewrite map_lookup_imap in Hk.
    destruct (rangeRewrite (order p v) v !! k) as [y|] eqn:Hy; [|done].
    simpl in Hk. injection Hk as <-.
    assert (height y <= map_height v).
    { eapply rangeRewrite_height; [|done]. apply map_height_lookup. }
    etrans; [apply IH|done]. rewrite height_VMap. lia.
Qed.

(** X5.  The flattener never deepens a value: a promoted payload moves one
    level up, and nothing moves down. *)
Theorem flatten_never_deepens (order : schedule) (obj : value) :
  height (transformOneOfFieldsRecursive order obj) <= height obj.
Proof. apply transformAt_height. Qed.

(** X6.  After one pass over a value in whose mappings no discriminator ends
    in ["OneOfType"] or is ["object_type"], no well-formed wrapper is left
    anywhere in the result. *)
Theorem flatten_leaves_no_wrapper (obj : value) (order : schedule) :
  Unsuffixed obj -> PlainTargets obj -> covers order ->
  Settled (transformOneOfFieldsRecursive order obj).
Proof. intros HU HP Hc. by apply transformAt_settles. Qed.

Lemma flatten_leaves_no_wrapper_witness :
  Settled (transformOneOfFieldsRecursive initialKeys exSameTarget).
Proof.
  apply (flatten_leaves_no_wrapper exSameTarget initialKeys);
    [reflexivity|reflexivity|exact covers_initialKeys].
Defined.

(** X7.  In a mapping none of whose discriminators ends in ["OneOfType"], a
    key that does not end in ["OneOfType"] and is no wrapper's discriminator
    keeps its place, and its value is the flattened old value; a key that
    is absent stays absent. *)
Theorem flatten_keeps_other_keys (order : schedule) (M : gmap string value) j :
  targetsUnsuffixed M -> HasSuffix j oneOfSuffix = false ->
  map_Forall (fun key val => fst <$> wrapperOf key val <> Some j) M ->
  exists M', transformOneOfFieldsRecursive order (VMap M) = VMap M' /\
             M' !! j = transformAt order [Key j] <$> M !! j.
Proof.
  intros Hu Hs Hno. unfold transformOneOfFieldsRecursive.
  rewrite transformAt_VMap. eexists. split; [done|].
  rewrite map_lookup_imap, rangeRewrite_untargeted; [by destruct (M !! j)|done..|].
  intros key val q Hk Hw. apply (Hno key val Hk). by rewrite Hw.
Qed.

Lemma flatten_keeps_other_keys_witness :
  exists M', transformOneOfFieldsRecursive initialKeys (VMap exMalformed) = VMap M' /\
             M' !! "name" = transformAt initialKeys [Key "name"] <$> exMalformed !! "name".
Proof.
  apply (flatten_keeps_other_keys initialKeys exMalformed "name").
  - apply (bool_decide_unpack _). vm_compute. exact I.
  - reflexivity.
  - apply (bool_decide_unpack _). vm_compute. exact I.
Defined.

(** * The run on the heap

    ** Representations: a larger part, another heap *)

Lemma variantObjOfRefs_delete (unionObj : gmap string iface) :
  variantObjOfRefs unionObj = delete objectTypeKey unionObj.
Proof.
  unfold variantObjOfRefs.
  apply (map_fold_weak_ind (fun r m => r = delete objectTypeKey m)).
  - by rewrite delete_empty.
  - intros i x m' r Hi ->. case_decide as Heq.
    + subst i. by rewrite delete_insert_eq.
    + by rewrite delete_insert_ne.
Qed.

Lemma repr_mono h c x F F' : repr h c x F -> F ⊆ F' -> repr h c x F'.
Proof.
  intros Hr HF.
  destruct Hr as [| | | |a items xs fp F Ha HaF Hlen Hkids Hfp Hdis
                 |l m xm fp F Hl HlF Hdom Hkids Hfp Hdis]; try by constructor.
  - eapply repr_slice; eauto. intros i c Hi. destruct (Hfp i c Hi). set_solver.
  - eapply repr_map; eauto. intros k c Hk. destruct (Hfp k c Hk). set_solver.
Qed.

Lemma repr_frame h h' c x F :
  repr h c x F -> (forall a, a ∈ F -> h' !! a = h !! a) -> repr h' c x F.
Proof.
  intros Hr. induction Hr as [| | | |a items xs fp F Ha HaF Hlen _ IH Hfp Hdis
                             |l m xm fp F Hl HlF Hdom _ IH Hfp Hdis];
    intros Hag; try by constructor.
  - eapply repr_slice; eauto.
    + by rewrite Hag.
    + intros i c y Hi Hy. eapply IH; eauto. intros b Hb. apply Hag.
      destruct (Hfp i c Hi). set_solver.
  - eapply repr_map; eauto.
    + by rewrite Hag.
    + intros k c y Hk Hy. eapply IH; eauto. intros b Hb. apply Hag.
      destruct (Hfp k c Hk). set_solver.
Qed.

Lemma repr_lookup (h : heap) (m : gmap string iface) (xm : gmap string value)
  (fp : string -> gset loc) k :
  dom m = dom xm ->
  (forall k c y, m !! k = Some c -> xm !! k = Some y -> repr h c y (fp k)) ->
  match m !! k, xm !! k with
  | Some c, Some y => repr h c y (fp k)
  | None, None => True
  | _, _ => False
  end.
Proof.
  intros Hdom Hkids.
  destruct (m !! k) as [c|] eqn:Hm, (xm !! k) as [y|] eqn:Hx; eauto.
  - apply not_elem_of_dom in Hx. rewrite <- Hdom in Hx.
    apply not_elem_of_dom in Hx. congruence.
  - apply not_elem_of_dom in Hm. rewrite Hdom in Hm.
    apply not_elem_of_dom in Hm. congruence.
Qed.

Lemma unchangedOutside_refl h F : unchangedOutside h F h.
Proof. split; [done|]. done. Qed.

Lemma unchangedOutside_trans h1 h2 h3 F :
  unchangedOutside h1 F h2 ->
  unchangedOutside h2 (F ∪ (dom h2 ∖ dom h1)) h3 ->
  unchangedOutside h1 F h3.
Proof.
  intros [Hd1 H1] [Hd2 H2]. split; [set_solver|].
  intros a Ha HaF. rewrite H2; [by apply H1|set_solver|set_solver].
Qed.

Lemma grown_trans (h1 h2 h3 : heap) (F : gset loc) :
  dom h1 ⊆ dom h2 -> dom h2 ⊆ dom h3 ->
  (F ∪ (dom h2 ∖ dom h1)) ∪ (dom h3 ∖ dom h2) = F ∪ (dom h3 ∖ dom h1).
Proof.
  intros H1 H2. apply set_eq. intros a.
  destruct (decide (a ∈ dom h2)); set_solver.
Qed.

(** ** One iteration of the first loop *)

Lemma mapdelete_mapassign (h : heap) l m key T g :
  h !! l = Some (OMap m) ->
  mapdelete l key (mapassign l T g h) = <[l := OMap (delete key (<[T := g]> m))]> h.
Proof.
  intros Hl. unfold mapassign. rewrite Hl. unfold mapdelete.
  rewrite lookup_insert_eq. by rewrite insert_insert_eq.
Qed.

(** The map at [l] after [v[T] = g; delete(v, key)], when [g] is held in a
    part [G] that is disjoint from the parts of the other entries. *)
Lemma repr_promote (h h' : heap) l (m : gmap string iface) (xm : gmap string value)
  fp (F F' G : gset loc) key T g yg :
  dom m = dom xm ->
  (forall k c y, m !! k = Some c -> xm !! k = Some y -> repr h c y (fp k)) ->
  (forall k c, m !! k = Some c -> fp k ⊆ F /\ l ∉ fp k) ->
  (forall k k' c c', k <> k' -> m !! k = Some c -> m !! k' = Some c' ->
                     fp k ## fp k') ->
  h' !! l = Some (OMap (delete key (<[T := g]> m))) ->
  (forall a, a ∈ F -> a <> l -> h' !! a = h !! a) ->
  l ∈ F' -> F ⊆ F' ->
  repr h' g yg G -> G ⊆ F' -> l ∉ G ->
  (forall k c, k <> key -> m !! k = Some c -> G ## fp k) ->
  repr h' (IMap l) (VMap (delete key (<[T := yg]> xm))) F'.
Proof.
  intros Hdom Hkids Hfp Hdis Hl' Hag HlF HFF Hg HG HlG HGdis.
  apply (repr_map h' l (delete key (<[T := g]> m)) _
           (fun k => if decide (k = T) then G else fp k)); [done|done|..].
  - by rewrite !dom_delete_L, !dom_insert_L, Hdom.
  - intros k c y Hk Hy.
    apply lookup_delete_Some in Hk as [Hne Hk].
    apply lookup_delete_Some in Hy as [_ Hy].
    rewrite lookup_insert in Hk. rewrite lookup_insert in Hy.
    destruct (decide (T = k)) as [HT|HT].
    + subst k. simplify_eq. by rewrite decide_True.
    + rewrite decide_False by congruence.
      eapply repr_frame; [by eapply Hkids|].
      intros a Ha. destruct (Hfp k c Hk) as [Hsub Hnl]. apply Hag; set_solver.
  - intros k c Hk. apply lookup_delete_Some in Hk as [Hne Hk].
    rewrite lookup_insert in Hk. destruct (decide (T = k)) as [HT|HT].
    + subst k. rewrite decide_True by done. done.
    + rewrite decide_False by congruence. destruct (Hfp k c Hk). set_solver.
  - intros k k' c c' Hne Hk Hk'.
    apply lookup_delete_Some in Hk as [Hn1 Hk].
    apply lookup_delete_Some in Hk' as [Hn2 Hk'].
    rewrite lookup_insert in Hk. rewrite lookup_insert in Hk'.
    repeat case_decide; simplify_eq; try done.
    + symmetry. eapply HGdis; [|done]. congruence.
    + eapply HGdis; [|done]. congruence.
    + by eapply Hdis.
Qed.

Ltac same_heap Hr :=
  split; [eapply repr_mono; [exact Hr|set_solver]|apply unchangedOutside_refl].

(** One iteration on the heap does to the map what [rewriteEntry] does to
    its value, and changes nothing outside the tree. *)
Lemma rewriteEntryInPlace_repr (h : heap) l (xm : gmap string value) F key c :
  repr h (IMap l) (VMap xm) F -> F ⊆ dom h -> mapaccess h l key = Some c ->
  exists y, xm !! key = Some y /\
    repr (rewriteEntryInPlace l key c h) (IMap l) (VMap (rewriteEntry key y xm))
      (F ∪ (dom (rewriteEntryInPlace l key c h) ∖ dom h)) /\
    unchangedOutside h F (rewriteEntryInPlace l key c h).
Proof.
  intros Hr HF Hacc.
  inversion Hr as [| | | | |l' m xm' fp F' Hl HlF Hdom Hkids Hfp Hdis]; subst.
  unfold mapaccess in Hacc. rewrite Hl in Hacc.
  pose proof (repr_lookup h m xm fp key Hdom Hkids) as Hc. rewrite Hacc in Hc.
  destruct (xm !! key) as [y|] eqn:Hy; [|done].
  exists y. split; [done|].
  unfold rewriteEntryInPlace, rewriteEntry.
  destruct (HasSuffix key oneOfSuffix); [|same_heap Hr].
  inversion Hc as [| | | | |u mu xu fp2 F2 Hu HuF Hdom2 Hkids2 Hfp2 Hdis2]; subst;
    try same_heap Hr.
  rewrite Hu.
  pose proof (repr_lookup h mu xu fp2 objectTypeKey Hdom2 Hkids2) as Hot.
  destruct (mu !! objectTypeKey) as [g|] eqn:Hg,
           (xu !! objectTypeKey) as [yg|] eqn:Hyg; try done; [|same_heap Hr].
  inversion Hot; subst; try same_heap Hr.
  pose proof (repr_lookup h mu xu fp2 s Hdom2 Hkids2) as Ht.
  destruct (mu !! s) as [fieldValue|] eqn:Hfv,
           (xu !! s) as [yfield|] eqn:Hyf; try done.
  - rewrite (mapdelete_mapassign h l m) by done.
    assert (Hd : dom (<[l:=OMap (delete key (<[s:=fieldValue]> m))]> h) = dom h).
    { rewrite dom_insert_L. apply elem_of_dom_2 in Hl. set_solver. }
    rewrite Hd. destruct (Hfp key _ Hacc) as [Hsub Hnl].
    destruct (Hfp2 s _ Hfv) as [Hsub2 _].
    split.
    + eapply (repr_promote h _ l m xm fp F _ (fp key) key s fieldValue yfield
                Hdom Hkids Hfp Hdis).
      * by rewrite lookup_insert_eq.
      * intros a _ Hne. by rewrite lookup_insert_ne.
      * set_solver.
      * set_solver.
      * eapply repr_frame; [eapply repr_mono; [exact Ht|done]|].
        intros a Ha. rewrite lookup_insert_ne; [done|]. intros ->. done.
      * set_solver.
      * done.
      * intros k c Hne Hk. eapply Hdis; [|done|done]. congruence.
    + split; [by rewrite Hd|]. intros a Ha HaF.
      rewrite lookup_insert_ne; [done|]. intros ->. done.
  - pose proof (is_fresh (dom h)) as Hn. set (n := fresh (dom h)) in *.
    assert (Hnl : n <> l) by (intros ->; apply Hn; by eapply elem_of_dom_2).
    rewrite (mapdelete_mapassign _ l m) by (by rewrite lookup_insert_ne).
    set (h' := <[l:=_]> _).
    assert (Hd : dom h' = {[n]} ∪ dom h).
    { unfold h'. rewrite !dom_insert_L. apply elem_of_dom_2 in Hl. set_solver. }
    rewrite Hd. destruct (Hfp key _ Hacc) as [Hsub Hnl'].
    assert (Hag : forall a, a ∈ F -> a <> l -> h' !! a = h !! a).
    { intros a Ha Hne. unfold h'. rewrite lookup_insert_ne by done.
      rewrite lookup_insert_ne; [done|]. intros ->. set_solver. }
    split.
    + eapply (repr_promote h h' l m xm fp F _ (fp key ∪ {[n]}) key s (IMap n)
                (VMap (variantObjOf xu)) Hdom Hkids Hfp Hdis).
      * unfold h'. by rewrite lookup_insert_eq.
      * done.
      * set_solver.
      * set_solver.
      * rewrite variantObjOf_delete.
        apply (repr_map h' n (delete objectTypeKey mu) _ fp2).
        -- unfold h'. rewrite lookup_insert_ne by done.
           by rewrite lookup_insert_eq, variantObjOfRefs_delete.
        -- set_solver.
        -- by rewrite !dom_delete_L, Hdom2.
        -- intros k c y Hk Hyk.
           apply lookup_delete_Some in Hk as [_ Hk].
           apply lookup_delete_Some in Hyk as [_ Hyk].
           eapply repr_frame; [by eapply Hkids2|].
           intros a Ha. destruct (Hfp2 k c Hk) as [Hs2 _].
           apply Hag; [set_solver|]. intros ->. set_solver.
        -- intros k c Hk. apply lookup_delete_Some in Hk as [_ Hk].
           destruct (Hfp2 k c Hk) as [Hs2 _]. split; [set_solver|].
           intros Hin. apply Hn. set_solver.
        -- intros k k' c c' Hne Hk Hk'.
           apply lookup_delete_Some in Hk as [_ Hk].
           apply lookup_delete_Some in Hk' as [_ Hk'].
           by eapply Hdis2.
      * set_solver.
      * set_solver.
      * intros k c Hne Hk.
        assert (fp key ## fp k) by (eapply Hdis; [|done|done]; congruence).
        destruct (Hfp k c Hk) as [Hs _]. set_solver.
    + split; [rewrite Hd; set_solver|]. intros a Ha HaF. unfold h'.
      rewrite lookup_insert_ne by (intros ->; done).
      rewrite lookup_insert_ne; [done|]. intros ->. done.
Qed.

(** ** The first loop *)

Lemma repr_mapaccess (h : heap) l (xm : gmap string value) F key :
  repr h (IMap l) (VMap xm) F ->
  mapaccess h l key = None -> xm !! key = None.
Proof.
  intros Hr Hacc.
  inversion Hr as [| | | | |l' m xm' fp F' Hl HlF Hdom Hkids Hfp Hdis]; subst.
  unfold mapaccess in Hacc. rewrite Hl in Hacc.
  apply not_elem_of_dom. rewrite <- Hdom. by apply not_elem_of_dom.
Qed.

Lemma rangeRewriteInPlace_repr l keys (h : heap) (xm : gmap string value) F :
  repr h (IMap l) (VMap xm) F -> F ⊆ dom h ->
  repr (rangeRewriteInPlace l keys h) (IMap l) (VMap (rangeRewrite keys xm))
    (F ∪ (dom (rangeRewriteInPlace l keys h) ∖ dom h)) /\
  unchangedOutside h F (rangeRewriteInPlace l keys h).
Proof.
  revert h xm F. induction keys as [|key rest IH]; intros h xm F Hr HF.
  { simpl. split; [eapply repr_mono; [done|set_solver]|apply unchangedOutside_refl]. }
  simpl. destruct (mapaccess h l key) as [c|] eqn:Hacc.
  - destruct (rewriteEntryInPlace_repr h l xm F key c Hr HF Hacc)
      as (y & Hy & Hr1 & Hu1).
    rewrite Hy. set (h1 := rewriteEntryInPlace l key c h) in *.
    destruct (IH h1 _ _ Hr1) as [Hr2 Hu2].
    { destruct Hu1. set_solver. }
    destruct Hu1 as [Hd1 Hu1]. pose proof Hu2 as [Hd2 _].
    split.
    + by rewrite <- (grown_trans h h1).
    + by eapply unchangedOutside_trans.
  - rewrite (repr_mapaccess h l xm F key Hr Hacc). by apply IH.
Qed.

(** ** The second loop, and the loop over an array *)

Lemma repr_child_step (h : heap) l (xm : gmap string value) F key c
  (body : heap -> option heap) (f : value -> value) :
  repr h (IMap l) (VMap xm) F -> F ⊆ dom h -> mapaccess h l key = Some c ->
  (forall y G, xm !! key = Some y -> repr h c y G -> G ⊆ dom h ->
     exists h', body h = Some h' /\
       repr h' c (f y) (G ∪ (dom h' ∖ dom h)) /\ unchangedOutside h G h') ->
  exists y h', xm !! key = Some y /\ body h = Some h' /\
    repr h' (IMap l) (VMap (<[key := f y]> xm)) (F ∪ (dom h' ∖ dom h)) /\
    unchangedOutside h F h'.
Proof.
  intros Hr HF Hacc Hbody.
  inversion Hr as [| | | | |l' m xm' fp F' Hl HlF Hdom Hkids Hfp Hdis]; subst.
  unfold mapaccess in Hacc. rewrite Hl in Hacc.
  pose proof (repr_lookup h m xm fp key Hdom Hkids) as Hc. rewrite Hacc in Hc.
  destruct (xm !! key) as [y|] eqn:Hy; [|done].
  destruct (Hfp key c Hacc) as [Hsub Hnl].
  destruct (Hbody y (fp key) eq_refl Hc) as (h' & Hrun & Hrc & Hd & Hu);
    [set_solver|].
  exists y, h'. split; [done|]. split; [done|].
  assert (Hl' : h' !! l = Some (OMap m)).
  { rewrite Hu; [done|by eapply elem_of_dom_2|done]. }
  split; [|split; [done|intros a Ha HaF; apply Hu; set_solver]].
  apply (repr_map h' l m _
           (fun k => if decide (k = key) then fp key ∪ (dom h' ∖ dom h) else fp k));
    [done|set_solver|..].
  - rewrite dom_insert_L, <- Hdom. apply elem_of_dom_2 in Hacc. set_solver.
  - intros k c' y' Hk Hy'. rewrite lookup_insert in Hy'.
    destruct (decide (key = k)) as [<-|Hne].
    + rewrite decide_True by done. by simplify_eq.
    + rewrite decide_False by congruence.
      eapply repr_frame; [by eapply Hkids|].
      intros a Ha. destruct (Hfp k c' Hk) as [Hs _].
      assert (fp key ## fp k) by (by eapply Hdis).
      apply Hu; set_solver.
  - intros k c' Hk. case_decide.
    + subst k. split; [set_solver|]. apply elem_of_dom_2 in Hl. set_solver.
    + destruct (Hfp k c' Hk). set_solver.
  - intros k k' c1 c2 Hne Hk Hk'.
    destruct (Hfp k c1 Hk) as [Hs1 _], (Hfp k' c2 Hk') as [Hs2 _].
    repeat case_decide; simplify_eq.
    + assert (fp key ## fp k') by (by eapply Hdis). set_solver.
    + assert (fp k ## fp key) by (by eapply Hdis). set_solver.
    + by eapply Hdis.
Qed.

Lemma rangeValues_repr (body : string -> iface -> heap -> option heap)
  (f : string -> value -> value) (P : value -> Prop) l :
  (forall k c y (h : heap) G, P y -> repr h c y G -> G ⊆ dom h ->
     exists h', body k c h = Some h' /\
       repr h' c (f k y) (G ∪ (dom h' ∖ dom h)) /\ unchangedOutside h G h') ->
  forall keys, NoDup keys ->
  forall (h : heap) (xm : gmap string value) F,
    repr h (IMap l) (VMap xm) F -> F ⊆ dom h ->
    (forall k y, xm !! k = Some y -> k ∈ keys -> P y) ->
    exists h', rangeValues body l keys h = Some h' /\
      repr h' (IMap l)
        (VMap (map_imap (fun k y => Some (if decide (k ∈ keys) then f k y else y)) xm))
        (F ∪ (dom h' ∖ dom h)) /\
      unchangedOutside h F h'.
Proof.
  intros Hbody keys Hnd.
  induction Hnd as [|key rest Hnotin Hnd IH]; intros h xm F Hr HF HP.
  { exists h. split; [done|]. split; [|apply unchangedOutside_refl].
    apply (repr_mono _ _ _ F); [|set_solver].
    replace (map_imap _ xm) with xm; [done|].
    apply map_eq. intros k. rewrite map_lookup_imap.
    destruct (xm !! k); [|done]. done. }
  simpl. destruct (mapaccess h l key) as [c|] eqn:Hacc.
  - destruct (repr_child_step h l xm F key c (body key c) (f key) Hr HF Hacc)
      as (y & h1 & Hy & Hrun & Hr1 & Hu1).
    { intros y G Hy Hc HG. apply Hbody; [|done|done].
      apply (HP key); [done|set_solver]. }
    rewrite Hrun. simpl.
    destruct (IH h1 _ _ Hr1) as (h2 & Hrun2 & Hr2 & Hu2).
    { destruct Hu1. set_solver. }
    { intros k y' Hk Hin. rewrite lookup_insert in Hk.
      case_decide; [subst; done|]. apply (HP k); [done|set_solver]. }
    exists h2. split; [done|].
    destruct Hu1 as [Hd1 Hu1]. pose proof Hu2 as [Hd2 _].
    split; [|by eapply unchangedOutside_trans].
    rewrite <- (grown_trans h h1) by done.
    replace (map_imap _ xm) with
      (map_imap (fun k y0 => Some (if decide (k ∈ rest) then f k y0 else y0))
         (<[key:=f key y]> xm)); [done|].
    apply map_eq. intros k. rewrite !map_lookup_imap, lookup_insert.
    destruct (decide (key = k)) as [<-|Hne].
    + rewrite Hy. simpl. rewrite decide_False by done.
      rewrite decide_True; [done|set_solver].
    + destruct (xm !! k); [|done]. simpl. f_equal.
      destruct (decide (k ∈ rest)).
      * rewrite decide_True; [done|set_solver].
      * rewrite decide_False; [done|set_solver].
  - destruct (IH h xm F Hr HF) as (h2 & Hrun2 & Hr2 & Hu2).
    { intros k y Hk Hin. apply (HP k); [done|set_solver]. }
    exists h2. split; [done|]. split; [|done].
    replace (map_imap _ xm) with
      (map_imap (fun k y0 => Some (if decide (k ∈ rest) then f k y0 else y0)) xm);
      [done|].
    apply map_eq. intros k. rewrite !map_lookup_imap.
    destruct (xm !! k) eqn:Hk; [|done]. simpl. f_equal.
    assert (k <> key).
    { intros ->. rewrite (repr_mapaccess h l xm F key Hr Hacc) in Hk. done. }
    destruct (decide (k ∈ rest)).
    + rewrite decide_True; [done|set_solver].
    + rewrite decide_False; [done|set_solver].
Qed.

Lemma repr_item_step (h : heap) a (xs : list value) F i c all
  (body : heap -> option heap) (f : value -> value) :
  repr h (ISlice a) (VArray xs) F -> F ⊆ dom h ->
  h !! a = Some (OSlice all) -> all !! i = Some c ->
  (forall y G, xs !! i = Some y -> repr h c y G -> G ⊆ dom h ->
     exists h', body h = Some h' /\
       repr h' c (f y) (G ∪ (dom h' ∖ dom h)) /\ unchangedOutside h G h') ->
  exists y h', xs !! i = Some y /\ body h = Some h' /\
    h' !! a = Some (OSlice all) /\
    repr h' (ISlice a) (VArray (<[i := f y]> xs)) (F ∪ (dom h' ∖ dom h)) /\
    unchangedOutside h F h'.
Proof.
  intros Hr HF Ha Hi Hbody.
  inversion Hr as [| | | |a' items xs' fp F' Ha' HaF Hlen Hkids Hfp Hdis|]; subst.
  rewrite Ha in Ha'. injection Ha' as <-.
  destruct (lookup_lt_is_Some_2 xs i) as [y Hy].
  { rewrite <- Hlen. by eapply lookup_lt_Some. }
  destruct (Hfp i c Hi) as [Hsub Hnl].
  destruct (Hbody y (fp i) Hy (Hkids i c y Hi Hy)) as (h' & Hrun & Hrc & Hd & Hu);
    [set_solver|].
  exists y, h'. split; [done|]. split; [done|].
  assert (Ha' : h' !! a = Some (OSlice all)).
  { rewrite Hu; [done|by eapply elem_of_dom_2|done]. }
  split; [done|].
  split; [|split; [done|intros b Hb HbF; apply Hu; set_solver]].
  apply (repr_slice h' a all _
           (fun j => if decide (j = i) then fp i ∪ (dom h' ∖ dom h) else fp j));
    [done|set_solver|..].
  - by rewrite length_insert.
  - intros j c' y' Hj Hy'.
    destruct (decide (j = i)) as [->|Hne].
    + rewrite list_lookup_insert_eq in Hy' by (by eapply lookup_lt_Some).
      by simplify_eq.
    + rewrite list_lookup_insert_ne in Hy' by done.
      eapply repr_frame; [by eapply Hkids|].
      intros b Hb. destruct (Hfp j c' Hj) as [Hs _].
      assert (fp i ## fp j) by (eapply Hdis; [|done|done]; congruence).
      apply Hu; set_solver.
  - intros j c' Hj. case_decide.
    + subst j. split; [set_solver|]. apply elem_of_dom_2 in Ha. set_solver.
    + destruct (Hfp j c' Hj). set_solver.
  - intros j j' c1 c2 Hne Hj Hj'.
    destruct (Hfp j c1 Hj) as [Hs1 _], (Hfp j' c2 Hj') as [Hs2 _].
    repeat case_decide; simplify_eq.
    + assert (fp i ## fp j') by (by eapply Hdis). set_solver.
    + assert (fp j ## fp i) by (by eapply Hdis). set_solver.
    + by eapply Hdis.
Qed.

Lemma rangeItems_repr (body : nat -> iface -> heap -> option heap)
  (f : nat -> value -> value) (P : value -> Prop) a all :
  (forall i c y (h : heap) G, P y -> repr h c y G -> G ⊆ dom h ->
     exists h', body i c h = Some h' /\
       repr h' c (f i y) (G ∪ (dom h' ∖ dom h)) /\ unchangedOutside h G h') ->
  forall rest i (h : heap) (xs : list value) F,
    h !! a = Some (OSlice all) -> drop i all = rest ->
    repr h (ISlice a) (VArray xs) F -> F ⊆ dom h ->
    (forall j y, xs !! j = Some y -> i <= j -> P y) ->
    exists h', rangeItems body i rest h = Some h' /\
      repr h' (ISlice a)
        (VArray (imap (fun j y => if decide (i <= j) then f j y else y) xs))
        (F ∪ (dom h' ∖ dom h)) /\
      unchangedOutside h F h'.
Proof.
  intros Hbody rest.
  induction rest as [|item rest IH]; intros i h xs F Ha Hdrop Hr HF HP.
  { exists h. split; [done|]. split; [|apply unchangedOutside_refl].
    apply (repr_mono _ _ _ F); [|set_solver].
    replace (imap _ xs) with xs; [done|].
    assert (Hlen : length xs <= i).
    { inversion Hr as [| | | |a' items xs' fp F' Ha' HaF Hlen Hkids Hfp Hdis|]; subst.
      rewrite Ha in Ha'. injection Ha' as <-. rewrite <- Hlen.
      apply drop_nil_inv in Hdrop. lia. }
    apply list_eq. intros j. rewrite list_lookup_imap.
    destruct (xs !! j) as [y|] eqn:Hj; [|done]. simpl.
    apply lookup_lt_Some in Hj. rewrite decide_False; [done|lia]. }
  assert (Hi : all !! i = Some item).
  { rewrite <- (Nat.add_0_r i), <- lookup_drop, Hdrop. done. }
  simpl.
  destruct (repr_item_step h a xs F i item all (body i item) (f i) Hr HF Ha Hi)
    as (y & h1 & Hy & Hrun & Ha1 & Hr1 & Hu1).
  { intros y G Hy Hc HG. apply Hbody; [|done|done]. by apply (HP i). }
  rewrite Hrun. simpl.
  destruct (IH (S i) h1 (<[i:=f i y]> xs) (F ∪ (dom h1 ∖ dom h)) Ha1)
    as (h2 & Hrun2 & Hr2 & Hu2).
  { replace (S i) with (i + 1) by lia. by rewrite <- drop_drop, Hdrop. }
  { done. }
  { destruct Hu1. set_solver. }
  { intros j y' Hj Hle. rewrite list_lookup_insert_ne in Hj by lia.
    apply (HP j); [done|lia]. }
  exists h2. split; [done|].
  destruct Hu1 as [Hd1 Hu1]. pose proof Hu2 as [Hd2 _].
  split; [|by eapply unchangedOutside_trans].
  rewrite <- (grown_trans h h1) by done.
  replace (imap _ xs) with
    (imap (fun j y0 => if decide (S i <= j) then f j y0 else y0) (<[i:=f i y]> xs));
    [done|].
  apply list_eq. intros j. rewrite !list_lookup_imap.
  destruct (decide (j = i)) as [->|Hne].
  - rewrite list_lookup_insert_eq by (by eapply lookup_lt_Some).
    rewrite Hy. simpl. rewrite decide_False by lia. by rewrite decide_True.
  - rewrite list_lookup_insert_ne by done.
    destruct (xs !! j); [|done]. simpl. f_equal.
    destruct (decide (S i <= j)).
    + rewrite decide_True; [done|lia].
    + rewrite decide_False; [done|lia].
Qed.

(** The run on a tree computes [transformAt], by induction on the fuel. *)
Lemma transformInPlace_repr order1 order2 fuel :
  eachOnce order2 ->
  forall p c x (h : heap) F,
    height x <= fuel -> repr h c x F -> F ⊆ dom h ->
    exists h', transformInPlace order1 order2 fuel p c h = Some h' /\
      repr h' c (transformAt (scheduleOf order1) p x) (F ∪ (dom h' ∖ dom h)) /\
      unchangedOutside h F h'.
Proof.
  intros Honce. induction fuel as [|fuel IH]; intros p c x h F Hh Hr HF.
  { destruct Hr; simpl in Hh; try lia;
      (exists h; split; [done|]; split; [|apply unchangedOutside_refl];
       eapply repr_mono; [constructor|set_solver]). }
  pose proof Hr as Hr0.
  destruct Hr as [| | | |a items xs fp F Ha HaF Hlen Hkids Hfp Hdis
                 |l m xm fp F Hl HlF Hdom Hkids Hfp Hdis];
    try (exists h; split; [done|]; split; [|apply unchangedOutside_refl];
         eapply repr_mono; [constructor|set_solver]).
  - simpl. rewrite Ha. rewrite height_VArray in Hh.
    destruct (rangeItems_repr
                (fun i x => transformInPlace order1 order2 fuel (p ++ [Idx i]) x)
                (fun i y => transformAt (scheduleOf order1) (p ++ [Idx i]) y)
                (fun y => height y <= fuel) a items
                (fun i c y h G => IH (p ++ [Idx i]) c y h G)
                items 0 h xs F Ha eq_refl Hr0 HF)
      as (h' & Hrun & Hr' & Hu).
    { intros j y Hj _. pose proof (list_height_lookup _ _ _ Hj). lia. }
    exists h'. split; [done|]. split; [|done].
    rewrite transformAt_VArray.
    replace (imap (fun i x => transformAt (scheduleOf order1) (p ++ [Idx i]) x) xs)
      with (imap (fun j y => if decide (0 <= j)
                             then transformAt (scheduleOf order1) (p ++ [Idx j]) y
                             else y) xs); [done|].
    apply imap_ext. intros j y _. rewrite decide_True; [done|lia].
  - simpl. rewrite Hl. rewrite height_VMap in Hh.
    destruct (rangeRewriteInPlace_repr l (order1 p (dom m)) h xm F Hr0 HF)
      as [Hr1 Hu1].
    set (h1 := rangeRewriteInPlace l (order1 p (dom m)) h) in *.
    set (x1 := rangeRewrite (order1 p (dom m)) xm) in *.
    inversion Hr1 as [| | | | |l' m1 xm' fp1 F' Hl1 HlF1 Hdom1 Hkids1 Hfp1 Hdis1];
      subst.
    rewrite Hl1.
    destruct (Honce p (dom m1)) as [Hnd Hcov].
    destruct (rangeValues_repr
                (fun k x => transformInPlace order1 order2 fuel (p ++ [Key k]) x)
                (fun k y => transformAt (scheduleOf order1) (p ++ [Key k]) y)
                (fun y => height y <= fuel) l
                (fun k c y h G => IH (p ++ [Key k]) c y h G)
                (order2 p (dom m1)) Hnd h1 x1 _ Hr1)
      as (h2 & Hrun & Hr2 & Hu2).
    { destruct Hu1. set_solver. }
    { intros k y Hk _. eapply (rangeRewrite_height _ xm fuel); [|exact Hk].
      intros k' x' Hk'. pose proof (map_height_lookup _ _ _ Hk'). lia. }
    exists h2. split; [done|].
    destruct Hu1 as [Hd1 Hu1]. pose proof Hu2 as [Hd2 _].
    split; [|by eapply unchangedOutside_trans].
    rewrite <- (grown_trans h h1) by done.
    rewrite transformAt_VMap. unfold scheduleOf at 2. rewrite <- Hdom. fold x1.
    replace (map_imap
               (fun k x => Some (transformAt (scheduleOf order1) (p ++ [Key k]) x)) x1)
      with (map_imap
              (fun k y => Some (if decide (k ∈ order2 p (dom m1))
                                then transformAt (scheduleOf order1) (p ++ [Key k]) y
                                else y)) x1); [done|].
    apply map_eq. intros k. rewrite !map_lookup_imap.
    destruct (x1 !! k) as [y|] eqn:Hk; [|done]. simpl.
    rewrite decide_True; [done|]. apply Hcov. rewrite Hdom1. by eapply elem_of_dom_2.
Qed.

(** ** deepCopyMap on any heap *)

Lemma copy_make (items : list iface) : copy (make (length items)) items = items.
Proof.
  unfold copy, make. rewrite length_replicate, firstn_all.
  rewrite drop_ge by (by rewrite length_replicate). by rewrite app_nil_r.
Qed.

Lemma copied_mono (h0 h h' : heap) v v' r :
  r ∈ dom h0 ->
  copied h0 h v v' ->
  dom h ⊆ dom h' -> (forall a, a ∈ dom h -> a <> r -> h' !! a = h !! a) ->
  copied h0 h' v v'.
Proof.
  intros Hr Hc Hd Hag. destruct v; try done; simpl in *.
  - destruct Hc as (a' & items & -> & Hn & Ha' & Hold).
    exists a', items. split; [done|]. split; [done|]. split; [|done].
    rewrite Hag; [done|by eapply elem_of_dom_2|]. intros ->. done.
  - destruct Hc as (u' & e & -> & Hn & Hu').
    exists u', e. split; [done|]. split; [done|].
    rewrite Hag; [done|by eapply elem_of_dom_2|]. intros ->. done.
Qed.

Lemma copyEntries_alloc rec r :
  (forall u (h : heap) c h', rec u h = Some (c, h') ->
     (c ∉ dom h) /\ unchangedOutside h ∅ h' /\ exists e, h' !! c = Some (OMap e)) ->
  forall es (h0 h1 : heap) mr0,
    h0 !! r = Some (OMap mr0) -> copyEntries rec r es h0 = Some h1 ->
    dom h0 ⊆ dom h1 /\
    (forall a, a ∈ dom h0 -> a <> r -> h1 !! a = h0 !! a) /\
    exists mr, h1 !! r = Some (OMap mr) /\
      (forall k, k ∉ es.*1 -> mr !! k = mr0 !! k) /\
      (NoDup es.*1 -> forall k v, (k, v) ∈ es ->
         exists v', mr !! k = Some v' /\ copied h0 h1 v v').
Proof.
  intros Hrec es. induction es as [|[k v] es IH]; intros h0 h1 mr0 Hr Hrun.
  { simpl in Hrun. injection Hrun as <-. split; [done|]. split; [done|].
    exists mr0. split; [done|]. split; [done|]. intros _ k v Hin. set_solver. }
  unfold copyEntries in Hrun. simpl in Hrun. fold (copyEntries rec r es h0) in Hrun.
  destruct (copyEntries rec r es h0) as [hm|] eqn:Hmid; [|done]. simpl in Hrun.
  destruct (IH h0 hm mr0 Hr Hmid) as (Hd & Hag & mr & Hrm & Hout & Hin).
  assert (Hr0 : r ∈ dom h0) by (by eapply elem_of_dom_2).
  assert (Hstep : exists v' h2,
             h1 = <[r := OMap (<[k := v']> mr)]> h2 /\
             dom hm ⊆ dom h2 /\ (forall a, a ∈ dom hm -> h2 !! a = hm !! a) /\
             copied h0 (<[r := OMap (<[k := v']> mr)]> h2) v v').
  { unfold copyEntry in Hrun. destruct v as [| | | |a|u].
    - exists INil, hm. injection Hrun as <-. unfold mapassign. rewrite Hrm. done.
    - exists (IBool b), hm. injection Hrun as <-. unfold mapassign. rewrite Hrm. done.
    - exists (INumber n), hm. injection Hrun as <-. unfold mapassign. by rewrite Hrm.
    - exists (IString s), hm. injection Hrun as <-. unfold mapassign. by rewrite Hrm.
    - destruct (hm !! a) as [[|items]|] eqn:Ha; try done.
      injection Hrun as <-.
      pose proof (is_fresh (dom hm)) as Hn. set (n := fresh (dom hm)) in *.
      assert (n <> r) by (intros ->; set_solver).
      exists (ISlice n), (<[n := OSlice (copy (make (length items)) items)]> hm).
      unfold mapassign. rewrite lookup_insert_ne by done. rewrite Hrm.
      split; [done|]. split; [rewrite dom_insert_L; set_solver|].
      split; [intros b Hb; rewrite lookup_insert_ne; [done|set_solver]|].
      exists n, items. split; [done|]. split; [set_solver|].
      split; [rewrite lookup_insert_ne by done;
              by rewrite lookup_insert_eq, copy_make|].
      intros Ha0. rewrite <- Hag; [done|done|]. intros ->. congruence.
    - destruct (rec u hm) as [[c h2]|] eqn:Hru; [|done]. simpl in Hrun.
      injection Hrun as <-.
      destruct (Hrec u hm c h2 Hru) as (Hc & [Hd2 Hag2] & e & He).
      assert (c <> r) by (intros ->; set_solver).
      exists (IMap c), h2. unfold mapassign.
      rewrite Hag2; [|set_solver|set_solver]. rewrite Hrm.
      split; [done|]. split; [done|].
      split; [intros b Hb; apply Hag2; set_solver|].
      exists c, e. split; [done|]. split; [set_solver|].
      by rewrite lookup_insert_ne. }
  destruct Hstep as (v' & h2 & -> & Hd2 & Hag2 & Hcop).
  split; [rewrite dom_insert_L; set_solver|].
  split.
  { intros a Ha Hne. rewrite lookup_insert_ne by done.
    rewrite Hag2 by set_solver. by apply Hag. }
  exists (<[k := v']> mr). split; [by rewrite lookup_insert_eq|].
  split.
  { intros k' Hk'. rewrite fmap_cons, not_elem_of_cons in Hk'. simpl in Hk'.
    destruct Hk' as [Hne Hk']. rewrite lookup_insert_ne by done. by apply Hout. }
  intros Hnd k' w Hkw. rewrite fmap_cons in Hnd. simpl in Hnd.
  apply NoDup_cons in Hnd as [Hnotin Hnd].
  apply elem_of_cons in Hkw as [[= -> ->]|Hkw].
  - exists v'. split; [by rewrite lookup_insert_eq|done].
  - assert (k' <> k).
    { intros ->. apply Hnotin. apply list_elem_of_fmap. by exists (k, w). }
    destruct (Hin Hnd k' w Hkw) as (w' & Hw' & Hcw).
    exists w'. split; [by rewrite lookup_insert_ne|].
    eapply (copied_mono h0 hm); [exact Hr0|done|..].
    + rewrite dom_insert_L. set_solver.
    + intros a Ha Hne. rewrite lookup_insert_ne by done. by apply Hag2.
Qed.

Lemma deepCopyMap_alloc fuel :
  forall m (h : heap) r h',
    deepCopyMap fuel m h = Some (r, h') ->
    (r ∉ dom h) /\ unchangedOutside h ∅ h' /\
    exists entries entries',
      h !! m = Some (OMap entries) /\ h' !! r = Some (OMap entries') /\
      dom entries' = dom entries /\
      forall k v, entries !! k = Some v ->
        exists v', entries' !! k = Some v' /\ copied h h' v v'.
Proof.
  induction fuel as [|fuel IH]; intros m h r h' Hrun; [done|].
  simpl in Hrun. destruct (h !! m) as [[entries|]|] eqn:Hm; try done.
  pose proof (is_fresh (dom h)) as Hn. set (n := fresh (dom h)) in *.
  destruct (copyEntries _ n _ _) as [h1|] eqn:Hloop; [|done].
  simpl in Hrun. injection Hrun as <- <-.
  destruct (copyEntries_alloc (deepCopyMap fuel) n) with (3:=Hloop) (mr0:=∅ : gmap string iface)
    as (Hd & Hag & mr & Hmr & Hout & Hin).
  { intros u h0 c h0' Hru. destruct (IH u h0 c h0' Hru) as (? & ? & ? & e & ? & ? & ?).
    eauto. }
  { by rewrite lookup_insert_eq. }
  rewrite dom_insert_L in Hd, Hag.
  split; [done|]. split.
  { split; [set_solver|]. intros a Ha _. rewrite Hag; [|set_solver|set_solver].
    rewrite lookup_insert_ne; [done|set_solver]. }
  exists entries, mr. split; [done|]. split; [done|].
  assert (Hall : forall k v, entries !! k = Some v ->
            exists v', mr !! k = Some v' /\ copied h h1 v v').
  { intros k v Hk.
    destruct (Hin (NoDup_fst_map_to_list _) k v) as (v' & Hv' & Hc).
    { by apply elem_of_map_to_list. }
    exists v'. split; [done|]. destruct v; try done; simpl in *.
    - destruct Hc as (a' & items & -> & Hna & Ha' & Hold).
      exists a', items. split; [done|]. split; [set_solver|]. split; [done|].
      intros Ha. rewrite <- Hold; [|set_solver].
      rewrite lookup_insert_ne; [done|set_solver].
    - destruct Hc as (u' & e & -> & Hnu & Hu').
      exists u', e. split; [done|]. split; [set_solver|]. done. }
  split; [|done].
  apply set_eq. intros k. rewrite !elem_of_dom. split.
  - intros [v' Hv']. destruct (entries !! k) as [v|] eqn:Hk; [done|].
    rewrite Hout in Hv'; [by rewrite lookup_empty in Hv'|].
    intros Hin'. apply list_elem_of_fmap in Hin' as ([k' v] & -> & Hkv).
    apply elem_of_map_to_list in Hkv. simpl in Hk. congruence.
  - intros [v Hk]. destruct (Hall k v Hk) as (v' & -> & _). done.
Qed.

(** ** deepCopyMap on a tree *)

Lemma shareable_subseteq flat (G : gset loc) : shareable flat G ⊆ G.
Proof. destruct flat; set_solver. Qed.

Lemma repr_shareable (h : heap) c y G flat :
  repr h c y G -> (flat = true -> scalar y = true) -> repr h c y (shareable flat G).
Proof.
  intros Hr Hs. destruct flat; [|done].
  specialize (Hs eq_refl). destruct Hr; try done; constructor.
Qed.

Lemma copyEntry_repr rec flat f (h1 : heap) r k c y G mr :
  copySpec rec flat f ->
  h1 !! r = Some (OMap mr) ->
  repr h1 c y G -> G ⊆ dom h1 -> height y <= f ->
  (flat = true -> NoSharing y /\ scalarItems y = true) ->
  exists c' h2 G',
    copyEntry rec r k c h1 = Some (<[r := OMap (<[k := c']> mr)]> h2) /\
    dom h1 ⊆ dom h2 /\ (forall a, a ∈ dom h1 -> h2 !! a = h1 !! a) /\
    repr h2 c' y G' /\ G' ⊆ (dom h2 ∖ dom h1) ∪ shareable flat G.
Proof.
  intros Hrec Hr Hc HG Hh Hflat.
  assert (Hsame : forall c0, mapassign r k c0 h1 = <[r := OMap (<[k := c0]> mr)]> h1).
  { intros c0. unfold mapassign. by rewrite Hr. }
  destruct Hc as [| | | |a items xs fp F Ha HaF Hlen Hkids Hfp Hdis
                 |l m xm fp F Hl HlF Hdom Hkids Hfp Hdis]; simpl.
  - exists INil, h1, ∅. rewrite Hsame.
    split; [done|]. split; [done|]. split; [done|]. split; [constructor|set_solver].
  - exists (IBool b), h1, ∅. rewrite Hsame.
    split; [done|]. split; [done|]. split; [done|]. split; [constructor|set_solver].
  - exists (INumber n), h1, ∅. rewrite Hsame.
    split; [done|]. split; [done|]. split; [done|]. split; [constructor|set_solver].
  - exists (IString s), h1, ∅. rewrite Hsame.
    split; [done|]. split; [done|]. split; [done|]. split; [constructor|set_solver].
  - rewrite Ha.
    pose proof (is_fresh (dom h1)) as Hn. set (n := fresh (dom h1)) in *.
    assert (Hnr : n <> r) by (intros ->; apply Hn; by eapply elem_of_dom_2).
    rewrite copy_make.
    exists (ISlice n), (<[n := OSlice items]> h1), ({[n]} ∪ shareable flat F).
    split.
    { unfold mapassign. rewrite lookup_insert_ne by done. by rewrite Hr. }
    split; [rewrite dom_insert_L; set_solver|].
    split; [intros b Hb; rewrite lookup_insert_ne; [done|set_solver]|].
    split; [|rewrite dom_insert_L; set_solver].
    apply (repr_slice _ n items xs (fun i => shareable flat (fp i)));
      [by rewrite lookup_insert_eq|set_solver|done|..].
    + intros i c y Hi Hy. apply repr_shareable.
      * eapply repr_frame; [by eapply Hkids|].
        intros b Hb. rewrite lookup_insert_ne; [done|].
        intros ->. destruct (Hfp i c Hi). set_solver.
      * intros Hf. destruct (Hflat Hf) as [_ Hsc]. simpl in Hsc.
        rewrite forallb_forall in Hsc. apply Hsc.
        apply list_elem_of_In. by eapply list_elem_of_lookup_2.
    + intros i c Hi. destruct (Hfp i c Hi) as [Hs Hna].
      pose proof (shareable_subseteq flat (fp i)).
      split; [destruct flat; set_solver|].
      intros Hin. apply Hn. set_solver.
    + intros i j c c' Hne Hi Hj.
      pose proof (shareable_subseteq flat (fp i)).
      pose proof (shareable_subseteq flat (fp j)).
      assert (fp i ## fp j) by (by eapply Hdis). set_solver.
  - assert (Hr0 : repr h1 (IMap l) (VMap xm) F) by (by eapply repr_map).
    destruct (Hrec l h1 xm F Hh) as (c & h2 & Hrun & Hcn & [Hd Hag] & Hrc);
      [by intros Hf; destruct (Hflat Hf)|done|done|].
    rewrite Hrun. simpl.
    exists (IMap c), h2, ((dom h2 ∖ dom h1) ∪ shareable flat (F ∖ {[l]})).
    split.
    { unfold mapassign. rewrite Hag; [|by eapply elem_of_dom_2|set_solver].
      by rewrite Hr. }
    split; [done|]. split; [intros b Hb; apply Hag; set_solver|].
    split; [done|]. destruct flat; simpl; set_solver.
Qed.

Lemma copy_regions_disjoint (G' G'' Sk Sj Fk Fj Db Dm D2 : gset loc) (r : loc) :
  G' ⊆ (D2 ∖ Dm) ∪ Sk -> G'' ⊆ ((Dm ∖ Db) ∖ {[r]}) ∪ Sj ->
  Sk ⊆ Fk -> Sj ⊆ Fj -> Fk ## Fj -> Fk ⊆ Db -> Fj ⊆ Db -> Db ⊆ Dm ->
  G' ## G''.
Proof. set_solver. Qed.

(** The loop of [deepCopyMap]: after the entries [es], the new map holds a
    copy of each of them, in parts that are pairwise disjoint. *)
Lemma copyEntries_repr rec flat f (hb : heap) r (m : gmap string iface)
  (xm : gmap string value) fp (F : gset loc) :
  copySpec rec flat f ->
  r ∉ dom hb -> F ⊆ dom hb -> dom m = dom xm ->
  (forall k c y, m !! k = Some c -> xm !! k = Some y -> repr hb c y (fp k)) ->
  (forall k c, m !! k = Some c -> fp k ⊆ F) ->
  (forall k k' c c', k <> k' -> m !! k = Some c -> m !! k' = Some c' ->
                     fp k ## fp k') ->
  (forall k y, xm !! k = Some y -> height y <= f) ->
  (flat = true ->
   forall k y, xm !! k = Some y -> NoSharing y /\ scalarItems y = true) ->
  forall es, NoDup es.*1 -> (forall k c, (k, c) ∈ es -> m !! k = Some c) ->
  exists h1 mr fp',
    copyEntries rec r es (<[r := OMap ∅]> hb) = Some h1 /\
    h1 !! r = Some (OMap mr) /\
    (forall k, is_Some (mr !! k) <-> k ∈ es.*1) /\
    dom hb ⊆ dom h1 /\ (forall a, a ∈ dom hb -> h1 !! a = hb !! a) /\
    (forall k c' y, mr !! k = Some c' -> xm !! k = Some y -> repr h1 c' y (fp' k)) /\
    (forall k, is_Some (mr !! k) ->
               fp' k ⊆ ((dom h1 ∖ dom hb) ∖ {[r]}) ∪ shareable flat (fp k)) /\
    (forall k k', k <> k' -> is_Some (mr !! k) -> is_Some (mr !! k') ->
                  fp' k ## fp' k').
Proof.
  intros Hrec Hr HF Hdom Hkids Hfp Hdis Hh Hflat es.
  induction es as [|[k c] es IH]; intros Hnd Hes.
  { exists (<[r := OMap ∅]> hb), ∅, (fun _ => ∅).
    split; [done|]. split; [by rewrite lookup_insert_eq|].
    split.
    { intros k. rewrite lookup_empty. split; [by intros [? ?]|set_solver]. }
    split; [rewrite dom_insert_L; set_solver|].
    split; [intros a Ha; rewrite lookup_insert_ne; [done|set_solver]|].
    split; [intros k c' y; by rewrite lookup_empty|].
    split; [intros k [? Hk]; by rewrite lookup_empty in Hk|].
    intros k k' _ [? Hk]; by rewrite lookup_empty in Hk. }
  rewrite fmap_cons in Hnd. simpl in Hnd. apply NoDup_cons in Hnd as [Hnotin Hnd].
  destruct (IH Hnd) as (hm & mr & fp' & Hrun & Hrm & Hkeys & Hd & Hag & Hk' & Hb & Hdj).
  { intros k0 c0 Hin. apply Hes. set_solver. }
  assert (Hmk : m !! k = Some c) by (apply Hes; set_solver).
  pose proof (repr_lookup hb m xm fp k Hdom Hkids) as Hc. rewrite Hmk in Hc.
  destruct (xm !! k) as [y|] eqn:Hy; [|done].
  assert (Hrk : r ∉ fp k) by (specialize (Hfp k c Hmk); set_solver).
  assert (Hfpk : fp k ⊆ dom hm) by (specialize (Hfp k c Hmk); set_solver).
  destruct (copyEntry_repr rec flat f hm r k c y (fp k) mr Hrec Hrm)
    as (c' & h2 & G' & Hstep & Hd2 & Hag2 & Hrc & HG').
  { eapply repr_frame; [exact Hc|]. intros a Ha. apply Hag.
    specialize (Hfp k c Hmk). set_solver. }
  { done. }
  { by eapply Hh. }
  { intros Hf. by eapply Hflat. }
  assert (Hrm' : r ∈ dom hm) by (by eapply elem_of_dom_2).
  assert (Hmrk : mr !! k = None).
  { destruct (mr !! k) eqn:E; [|done]. destruct Hnotin. apply Hkeys. by eexists. }
  pose proof (shareable_subseteq flat (fp k)) as Hsk.
  assert (HG'r : r ∉ G') by (clear -HG' Hrk Hrm' Hsk; set_solver).
  assert (Hold : forall j, is_Some (mr !! j) -> fp' j ⊆ dom hm ∖ {[r]} /\ j <> k).
  { intros j Hj. split.
    - specialize (Hb j Hj). pose proof (shareable_subseteq flat (fp j)) as Hsj0.
      apply Hkeys in Hj. apply list_elem_of_fmap in Hj as ([j' cj] & -> & Hin).
      assert (m !! j' = Some cj) as Hmj by (apply Hes; set_solver).
      specialize (Hfp j' cj Hmj). simpl in *. clear -Hb Hsj0 Hfp HF Hd Hr. set_solver.
    - intros ->. destruct Hj as [? Hj]. congruence. }
  exists (<[r := OMap (<[k := c']> mr)]> h2), (<[k := c']> mr),
    (fun j => if decide (j = k) then G' else fp' j).
  split.
  { unfold copyEntries in *. simpl. rewrite Hrun. simpl. exact Hstep. }
  split; [by rewrite lookup_insert_eq|].
  split.
  { intros j. rewrite fmap_cons, elem_of_cons. simpl. rewrite lookup_insert.
    case_decide; [subst; split; [by left|by eexists]|].
    rewrite Hkeys. split; [by right|]. intros [?|?]; [congruence|done]. }
  split; [rewrite dom_insert_L; set_solver|].
  split.
  { intros a Ha. rewrite lookup_insert_ne by set_solver.
    rewrite Hag2 by set_solver. by apply Hag. }
  split.
  { intros j cj yj Hj Hyj. rewrite lookup_insert in Hj.
    destruct (decide (k = j)) as [<-|Hne].
    - rewrite decide_True by done. simplify_eq.
      eapply repr_frame; [exact Hrc|].
      intros a Ha. rewrite lookup_insert_ne; [done|]. intros ->. done.
    - rewrite decide_False by congruence.
      destruct (Hold j) as [Hsub _]; [by eexists|].
      eapply repr_frame; [by eapply Hk'|].
      intros a Ha. rewrite lookup_insert_ne by set_solver.
      apply Hag2. set_solver. }
  split.
  { intros j Hj. rewrite lookup_insert in Hj. rewrite dom_insert_L.
    destruct (decide (k = j)) as [<-|Hne].
    - rewrite decide_True by done.
      intros a Ha. apply HG' in Ha. apply elem_of_union in Ha as [Ha|Ha].
      + apply elem_of_union_l. set_solver.
      + by apply elem_of_union_r.
    - rewrite decide_False by congruence. specialize (Hb j Hj).
      intros a Ha. apply Hb in Ha. apply elem_of_union in Ha as [Ha|Ha].
      + apply elem_of_union_l. set_solver.
      + by apply elem_of_union_r. }
  assert (Hcross : forall j, is_Some (mr !! j) -> G' ## fp' j).
  { intros j Hj. destruct (Hold j Hj) as [Hsub Hne]. specialize (Hb j Hj).
    pose proof (shareable_subseteq flat (fp j)) as Hsj.
    apply Hkeys in Hj. apply list_elem_of_fmap in Hj as ([j' cj] & Hjeq & Hin).
    simpl in Hjeq. subst j'.
    assert (m !! j = Some cj) as Hmj by (apply Hes; set_solver).
    assert (fp k ## fp j) by (eapply Hdis; [|done|done]; congruence).
    pose proof (Hfp k c Hmk) as Hfk. pose proof (Hfp j cj Hmj) as Hfj.
    exact (copy_regions_disjoint G' (fp' j) (shareable flat (fp k))
             (shareable flat (fp j)) (fp k) (fp j) (dom hb) (dom hm) (dom h2) r
             HG' Hb Hsk Hsj ltac:(done) ltac:(clear -Hfk HF; set_solver)
             ltac:(clear -Hfj HF; set_solver) Hd). }
  intros j j' Hne Hj Hj'. rewrite lookup_insert in Hj. rewrite lookup_insert in Hj'.
  destruct (decide (k = j)) as [<-|Hn1], (decide (k = j')) as [<-|Hn2]; try done.
  - rewrite decide_True by done. rewrite decide_False by congruence. by apply Hcross.
  - rewrite decide_False by congruence. rewrite decide_True by done.
    symmetry. by apply Hcross.
  - rewrite !decide_False by congruence. by apply Hdj.
Qed.

Lemma NoSharing_VMap (xm : gmap string value) :
  NoSharing (VMap xm) ->
  forall k y, xm !! k = Some y -> NoSharing y /\ scalarItems y = true.
Proof.
  intros Hn k y Hk. apply allMaps_VMap in Hn as [Hs Hall].
  split; [by eapply Hall|].
  unfold scalarArrays in Hs. apply bool_decide_eq_true in Hs. by eapply Hs.
Qed.

Lemma deepCopyMap_repr flat fuel : copySpec (deepCopyMap fuel) flat fuel.
Proof.
  induction fuel as [|fuel IH]; intros l h xm F Hh Hflat Hr HF.
  { rewrite height_VMap in Hh. lia. }
  inversion Hr as [| | | | |l' m xm' fp F' Hl HlF Hdom Hkids Hfp Hdis]; subst.
  simpl. rewrite Hl.
  pose proof (is_fresh (dom h)) as Hn. set (r := fresh (dom h)) in *.
  rewrite height_VMap in Hh.
  destruct (copyEntries_repr (deepCopyMap fuel) flat fuel h r m xm fp F IH Hn HF
              Hdom Hkids) with (es := map_to_list m)
    as (h1 & mr & fp' & Hrun & Hrm & Hkeys & Hd & Hag & Hk' & Hb & Hdj).
  { intros k c Hk. by destruct (Hfp k c Hk). }
  { done. }
  { intros k y Hk. pose proof (map_height_lookup _ _ _ Hk). lia. }
  { intros Hf. apply NoSharing_VMap. by apply Hflat. }
  { apply NoDup_fst_map_to_list. }
  { intros k c Hin. by apply elem_of_map_to_list. }
  rewrite Hrun. simpl. exists r, h1.
  split; [done|]. split; [done|].
  split; [split; [done|intros a Ha _; by apply Hag]|].
  assert (Hrd : r ∈ dom h1) by (by eapply elem_of_dom_2).
  assert (Hkeys' : forall k, is_Some (mr !! k) <-> is_Some (m !! k)).
  { intros k. rewrite Hkeys. split.
    - intros Hin. apply list_elem_of_fmap in Hin as ([k' c] & -> & Hin).
      apply elem_of_map_to_list in Hin. by eexists.
    - intros [c Hk]. apply list_elem_of_fmap. exists (k, c).
      split; [done|]. by apply elem_of_map_to_list. }
  apply (repr_map h1 r mr xm fp'); [done|set_solver|..].
  - rewrite <- Hdom. apply set_eq. intros k. by rewrite !elem_of_dom.
  - done.
  - intros k c Hk. assert (is_Some (mr !! k)) as Hs by (by eexists).
    specialize (Hb k Hs). apply Hkeys' in Hs as [c0 Hc0].
    destruct (Hfp k c0 Hc0) as [Hsub Hnl].
    split.
    + intros a Ha. apply Hb in Ha. apply elem_of_union in Ha as [Ha|Ha].
      * apply elem_of_union_l. set_solver.
      * apply elem_of_union_r. destruct flat; [done|]. simpl in *. set_solver.
    + intros Hin. apply Hb in Hin. apply elem_of_union in Hin as [Hin|Hin].
      * set_solver.
      * pose proof (shareable_subseteq flat (fp k)). set_solver.
  - intros k k' c c' Hne Hk1 Hk2. apply Hdj; [done|by eexists|by eexists].
Qed.

(** ** What a run leaves alone *)

Lemma quiet_refl (h : heap) : quiet h h.
Proof. split; [done|]. split; [done|]. intros l m Hl. split; [by eexists|done]. Qed.

Lemma quiet_trans (h1 h2 h3 : heap) : quiet h1 h2 -> quiet h2 h3 -> quiet h1 h3.
Proof.
  intros (Hd1 & Hs1 & Hm1) (Hd2 & Hs2 & Hm2).
  split; [set_solver|]. split; [intros a items Ha; by apply Hs2, Hs1|].
  intros l m Hl. destruct (Hm1 l m Hl) as [[m' Hm'] Hq].
  split; [by apply (Hm2 l m')|].
  intros Hsf. specialize (Hq Hsf). by apply (Hm2 l m).
Qed.

Lemma quiet_alloc (h : heap) n o : n ∉ dom h -> quiet h (<[n := o]> h).
Proof.
  intros Hn. split; [rewrite dom_insert_L; set_solver|].
  assert (forall a o', h !! a = Some o' -> <[n:=o]> h !! a = Some o') as Hne.
  { intros a o' Ha. rewrite lookup_insert_ne; [done|].
    intros ->. apply Hn. by eapply elem_of_dom_2. }
  split; [intros a items Ha; by apply Hne|].
  intros l m Hl. split; [eexists|intros _]; by apply Hne.
Qed.

Lemma quiet_update (h : heap) v mv mv' :
  h !! v = Some (OMap mv) -> ~ suffixFree mv -> quiet h (<[v := OMap mv']> h).
Proof.
  intros Hv Hns. split; [rewrite dom_insert_L; set_solver|].
  split.
  - intros a items Ha. rewrite lookup_insert_ne; [done|]. intros ->. congruence.
  - intros l m Hl. destruct (decide (l = v)) as [->|Hne].
    + rewrite lookup_insert_eq. split; [by eexists|].
      intros Hsf. rewrite Hv in Hl. injection Hl as ->. done.
    + rewrite lookup_insert_ne by done. split; [by eexists|done].
Qed.

Lemma rewriteEntryInPlace_quiet (h : heap) v key value :
  mapaccess h v key = Some value -> quiet h (rewriteEntryInPlace v key value h).
Proof.
  intros Hacc. unfold mapaccess in Hacc.
  destruct (h !! v) as [[mv|]|] eqn:Hv; try done.
  unfold rewriteEntryInPlace.
  destruct (HasSuffix key oneOfSuffix) eqn:Hsuf; [|apply quiet_refl].
  assert (Hns : ~ suffixFree mv).
  { intros Hsf. rewrite Hsf in Hsuf; [done|by eexists]. }
  destruct value as [| | | | |u]; try apply quiet_refl.
  destruct (h !! u) as [[unionObj|]|] eqn:Hu; try apply quiet_refl.
  destruct (unionObj !! objectTypeKey) as [[| | |typeStr| |]|]; try apply quiet_refl.
  destruct (unionObj !! typeStr) as [fieldValue|].
  - rewrite (mapdelete_mapassign h v mv) by done. by eapply quiet_update.
  - pose proof (is_fresh (dom h)) as Hn. set (n := fresh (dom h)) in *.
    assert (n <> v) by (intros ->; apply Hn; by eapply elem_of_dom_2).
    rewrite (mapdelete_mapassign _ v mv) by (by rewrite lookup_insert_ne).
    eapply quiet_trans; [by apply quiet_alloc|].
    eapply quiet_update; [by rewrite lookup_insert_ne|done].
Qed.

Lemma rangeRewriteInPlace_quiet v keys (h : heap) :
  quiet h (rangeRewriteInPlace v keys h).
Proof.
  revert h. induction keys as [|key rest IH]; intros h; [apply quiet_refl|].
  simpl. destruct (mapaccess h v key) as [value|] eqn:Hacc; [|apply IH].
  eapply quiet_trans; [by apply rewriteEntryInPlace_quiet|apply IH].
Qed.

Lemma rangeValues_quiet body v keys :
  (forall k x (h h' : heap), body k x h = Some h' -> quiet h h') ->
  forall (h h' : heap), rangeValues body v keys h = Some h' -> quiet h h'.
Proof.
  intros Hbody. induction keys as [|key rest IH]; intros h h' Hrun; simpl in Hrun.
  { injection Hrun as <-. apply quiet_refl. }
  destruct (mapaccess h v key) as [value|]; [|by apply IH].
  destruct (body key value h) as [h1|] eqn:Hb; [|done]. simpl in Hrun.
  eapply quiet_trans; [by eapply Hbody|by apply IH].
Qed.

Lemma rangeItems_quiet body items :
  (forall i x (h h' : heap), body i x h = Some h' -> quiet h h') ->
  forall i (h h' : heap), rangeItems body i items h = Some h' -> quiet h h'.
Proof.
  intros Hbody. induction items as [|item rest IH]; intros i h h' Hrun; simpl in Hrun.
  { injection Hrun as <-. apply quiet_refl. }
  destruct (body i item h) as [h1|] eqn:Hb; [|done]. simpl in Hrun.
  eapply quiet_trans; [by eapply Hbody|by eapply IH].
Qed.

Lemma transformInPlace_quiet order1 order2 fuel :
  forall p obj (h h' : heap),
    transformInPlace order1 order2 fuel p obj h = Some h' -> quiet h h'.
Proof.
  induction fuel as [|fuel IH]; intros p obj h h' Hrun.
  { destruct obj; simpl in Hrun; try done; injection Hrun as <-; apply quiet_refl. }
  destruct obj as [| | | |a|v]; simpl in Hrun;
    try (injection Hrun as <-; apply quiet_refl).
  - destruct (h !! a) as [[|items]|]; try done.
    eapply rangeItems_quiet; [|exact Hrun]. intros i x h0 h0'. apply IH.
  - destruct (h !! v) as [[entries|]|]; try done.
    destruct (rangeRewriteInPlace v _ h !! v) as [[entries1|]|]; try done.
    eapply quiet_trans; [apply rangeRewriteInPlace_quiet|].
    eapply rangeValues_quiet; [|exact Hrun]. intros k x h0 h0'. apply IH.
Qed.

(** ** Copy, then flatten *)

Lemma copy_then_flatten_regions order1 order2 fuel flat (h : heap) l
  (xm : gmap string value) F :
  eachOnce order2 -> repr h (IMap l) (VMap xm) F -> F ⊆ dom h ->
  height (VMap xm) <= fuel -> (flat = true -> NoSharing (VMap xm)) ->
  exists r h1 h2,
    deepCopyMap fuel l h = Some (r, h1) /\
    transformInPlace order1 order2 fuel [] (IMap r) h1 = Some h2 /\
    (r ∉ dom h) /\ unchangedOutside h ∅ h1 /\
    unchangedOutside h1 ((dom h1 ∖ dom h) ∪ shareable flat (F ∖ {[l]})) h2 /\
    repr h1 (IMap r) (VMap xm) ((dom h1 ∖ dom h) ∪ shareable flat (F ∖ {[l]})) /\
    repr h2 (IMap r) (transformOneOfFieldsRecursive (scheduleOf order1) (VMap xm))
      ((dom h2 ∖ dom h) ∪ shareable flat (F ∖ {[l]})).
Proof.
  intros Ho Hr HF Hh Hflat.
  destruct (deepCopyMap_repr flat fuel l h xm F Hh Hflat Hr HF)
    as (r & h1 & Hcopy & Hrn & [Hd1 Hu1] & Hr1).
  pose proof (shareable_subseteq flat (F ∖ {[l]})) as Hsh.
  destruct (transformInPlace_repr order1 order2 fuel Ho [] (IMap r) (VMap xm) h1 _
              Hh Hr1) as (h2 & Hrun & Hr2 & Hu2).
  { set_solver. }
  exists r, h1, h2. split; [done|]. split; [done|]. split; [done|].
  split; [done|]. split; [done|]. split; [done|].
  eapply repr_mono; [exact Hr2|]. destruct Hu2 as [Hd2 _]. set_solver.
Qed.

Lemma noSuffixKey_rangeRewrite keys (xm : gmap string value) :
  noSuffixKey xm -> rangeRewrite keys xm = xm.
Proof.
  intros Hn. apply rangeRewrite_settled. intros key val Hk.
  apply wrapperOf_no_suffix. by eapply Hn.
Qed.

(** ** The example heaps *)

Lemma repr_map_singleton (h : heap) l k c y (G F : gset loc) :
  h !! l = Some (OMap {[k := c]}) -> repr h c y G ->
  G ⊆ F -> l ∈ F -> l ∉ G ->
  repr h (IMap l) (VMap {[k := y]}) F.
Proof.
  intros Hl Hc HG HlF HlG.
  apply (repr_map h l {[k := c]} _ (fun _ => G)); [done|done|..].
  - by rewrite !dom_singleton_L.
  - intros k' c' y' Hk Hy. apply lookup_singleton_Some in Hk as [<- <-].
    apply lookup_singleton_Some in Hy as [_ <-]. done.
  - done.
  - intros k1 k2 c1 c2 Hne Hk1 Hk2.
    apply lookup_singleton_Some in Hk1 as [<- _].
    apply lookup_singleton_Some in Hk2 as [<- _]. done.
Qed.

Lemma repr_slice_singleton (h : heap) a c y (G F : gset loc) :
  h !! a = Some (OSlice [c]) -> repr h c y G ->
  G ⊆ F -> a ∈ F -> a ∉ G ->
  repr h (ISlice a) (VArray [y]) F.
Proof.
  intros Ha Hc HG HaF HaG.
  apply (repr_slice h a [c] _ (fun _ => G)); [done|done|done|..].
  - intros [|i] c' y' Hi Hy; [|done]. by simplify_eq/=.
  - done.
  - intros [|i] [|j] c1 c2 Hne Hi Hj; done.
Qed.

Lemma repr_map_leaves (h : heap) l (m : gmap string iface)
  (xm : gmap string value) (F : gset loc) :
  h !! l = Some (OMap m) -> l ∈ F -> dom m = dom xm ->
  (forall k c y, m !! k = Some c -> xm !! k = Some y -> repr h c y ∅) ->
  repr h (IMap l) (VMap xm) F.
Proof.
  intros Hl HlF Hdom Hkids.
  apply (repr_map h l m _ (fun _ => ∅)); first [done|set_solver].
Qed.

Lemma exVariantObject_repr (h : heap) l F :
  h !! l = Some (OMap {[ "object_type" := IString "s"; "value" := IString "hi" ]}) ->
  l ∈ F ->
  repr h (IMap l)
    (VMap {[ "object_type" := VString "s"; "value" := VString "hi" ]}) F.
Proof.
  intros Hl HlF. eapply repr_map_leaves; [done|done|by rewrite !dom_insert_L, !dom_singleton_L|].
  intros k c y Hk Hy.
  apply lookup_insert_Some in Hk as [[<- <-]|[Hne Hk]].
  - rewrite lookup_insert_eq in Hy. injection Hy as <-. constructor.
  - rewrite lookup_insert_ne in Hy by done.
    apply lookup_singleton_Some in Hk as [<- <-].
    apply lookup_singleton_Some in Hy as [_ <-]. constructor.
Qed.

Lemma exHeapVariant_repr :
  repr exHeapVariant (IMap 1%positive) exPrimitiveVariant
    {[ 1%positive; 2%positive ]}.
Proof.
  eapply (repr_map_singleton _ _ _ _ _ {[ 2%positive ]});
    [done| |set_solver|set_solver|set_solver].
  apply exVariantObject_repr; [done|set_solver].
Qed.

Lemma exHeapItems_repr :
  repr exHeapItems (IMap 1%positive) exItems
    {[ 1%positive; 2%positive; 3%positive; 4%positive ]}.
Proof.
  eapply (repr_map_singleton _ _ _ _ _ {[ 2%positive; 3%positive; 4%positive ]});
    [done| |set_solver|set_solver|set_solver].
  eapply (repr_slice_singleton _ _ _ _ {[ 3%positive; 4%positive ]});
    [done| |set_solver|set_solver|set_solver].
  eapply (repr_map_singleton _ _ _ _ _ {[ 4%positive ]});
    [done| |set_solver|set_solver|set_solver].
  apply exVariantObject_repr; [done|set_solver].
Qed.

Lemma eachOnce_sortedKeys : eachOnce sortedKeys.
Proof.
  intros p D. split; [apply NoDup_elements|]. intros k Hk. by apply elem_of_elements.
Qed.

Lemma exHeapVariant_dom :
  ({[ 1%positive; 2%positive ]} : gset loc) ⊆ dom exHeapVariant.
Proof. unfold exHeapVariant. rewrite !dom_insert_L. set_solver. Qed.

Lemma exHeapItems_dom :
  ({[ 1%positive; 2%positive; 3%positive; 4%positive ]} : gset loc) ⊆ dom exHeapItems.
Proof. unfold exHeapItems. rewrite !dom_insert_L. set_solver. Qed.


(** ** C9: malformed wrappers *)

Lemma rangeRewrite_scalar_singleton keys K (x : value) :
  scalar x = true -> rangeRewrite keys {[ K := x ]} = {[ K := x ]}.
Proof.
  intros Hx. induction keys as [|key rest IH]; [done|]. simpl.
  destruct (decide (key = K)) as [->|Hne].
  - rewrite lookup_singleton_eq. unfold rewriteEntry.
    destruct (HasSuffix K oneOfSuffix); [|done]. by destruct x.
  - by rewrite lookup_singleton_ne.
Qed.

Lemma exMalformedOverwritten_loop keys :
  "aOneOfType" ∈ keys ->
  rangeRewrite keys
    {[ "kOneOfType" := VString "opt_a";
       "aOneOfType" := VMap {[ "object_type" := VString "kOneOfType";
                               "kOneOfType" := VNumber 5 ]} ]}
  = {[ "kOneOfType" := VNumber 5 ]}.
Proof.
  induction keys as [|key rest IH]; [by intros ?%elem_of_nil|].
  intros Hin. simpl.
  destruct (decide (key = "aOneOfType")) as [->|Ha].
  - change (rangeRewrite rest {[ "kOneOfType" := VNumber 5 ]}
            = {[ "kOneOfType" := VNumber 5 ]}).
    by apply rangeRewrite_scalar_singleton.
  - apply elem_of_cons in Hin as [?|Hin]; [done|].
    destruct (decide (key = "kOneOfType")) as [->|Hk].
    + by apply IH.
    + rewrite lookup_insert_ne by done. rewrite lookup_singleton_ne by done.
      by apply IH.
Qed.

Lemma exMalformedOverwritten_flat order :
  covers order ->
  transformOneOfFieldsRecursive order exMalformedOverwritten
  = exMalformedOverwrittenFlat.
Proof.
  intros Hc. unfold transformOneOfFieldsRecursive, exMalformedOverwritten.
  rewrite transformAt_VMap, exMalformedOverwritten_loop; [reflexivity|].
  apply Hc. by eexists.
Qed.

(** C9 (as stated, refuted).  The wrapper ["kOneOfType"] of
    [exMalformedNested] is malformed, it has no ["object_type"], and the
    flattener changes it under every schedule: the recursion goes into it and
    promotes the wrapper it holds.  The wrapper ["kOneOfType"] of
    [exMalformedOverwritten] is malformed, it is a string, and the flattener
    replaces it under every schedule: the sibling wrapper, whose
    discriminator is ["kOneOfType"], is promoted to that key, whichever of
    the two the loop comes to first. *)
Lemma malformed_wrapper_changed :
  (exists (M : gmap string value) val,
     exMalformedNested = VMap M /\
     HasSuffix "kOneOfType" oneOfSuffix = true /\
     M !! "kOneOfType" = Some val /\ malformed val /\
     forall order, covers order -> exists M',
       transformOneOfFieldsRecursive order (VMap M) = VMap M' /\
       M' !! "kOneOfType" = Some (VMap {[ "a" := VNumber 1 ]}) /\
       M' !! "kOneOfType" <> Some val) /\
  (exists (M : gmap string value) val,
     exMalformedOverwritten = VMap M /\
     HasSuffix "kOneOfType" oneOfSuffix = true /\
     M !! "kOneOfType" = Some val /\ malformed val /\
     forall order, covers order -> exists M',
       transformOneOfFieldsRecursive order (VMap M) = VMap M' /\
       M' !! "kOneOfType" = Some (VNumber 5) /\
       M' !! "kOneOfType" <> Some val).
Proof.
  split.
  - eexists _, _. split; [reflexivity|]. split; [reflexivity|].
    split; [reflexivity|]. split; [exact I|]. intros order Hc.
    exists {[ "kOneOfType" := VMap {[ "a" := VNumber 1 ]} ]}.
    split; [by rewrite flatten_Tidy_initialKeys|]. split; [reflexivity|].
    vm_compute. discriminate.
  - eexists _, _. split; [reflexivity|]. split; [reflexivity|].
    split; [reflexivity|]. split; [exact I|]. intros order Hc.
    exists {[ "kOneOfType" := VNumber 5 ]}.
    split; [by apply exMalformedOverwritten_flat|]. split; [reflexivity|].
    vm_compute. discriminate.
Qed.

(** C9 (amended).  For every mapping [M] with a key [K] ending in
    ["OneOfType"] whose value is malformed (not a mapping, a mapping without
    ["object_type"], or one whose ["object_type"] is not a string), the
    iteration at [K] leaves [M] as it is.  The value is traversed by the
    recursion like any other: if no discriminator of a wrapper of [M] ends in
    ["OneOfType"], the entry stays in place through the whole loop, under
    every sequence of keys, and the result binds [K] to the flattened value,
    which is the value itself when no substitution fires inside it.  The
    flattener has no error result, and its in-place run on [M] held as a
    tree returns, within the nesting depth, under every schedule. *)
Theorem malformed_wrapper_untouched
  (M : gmap string value) (K : string) (val : value) :
  HasSuffix K oneOfSuffix = true ->
  M !! K = Some val ->
  malformed val ->
  rewriteEntry K val M = M /\
  (targetsUnsuffixed M -> forall keys, rangeRewrite keys M !! K = Some val) /\
  (forall order, exists M',
      transformOneOfFieldsRecursive order (VMap M) = VMap M' /\
      (targetsUnsuffixed M ->
       M' !! K = Some (transformAt order [Key K] val) /\
       (Settled val -> M' !! K = Some val))) /\
  (forall order1 order2 (h : heap) c F,
      eachOnce order2 -> repr h c (VMap M) F -> F ⊆ dom h ->
      exists h',
        transformInPlace order1 order2 (height (VMap M)) [] c h = Some h').
Proof.
  intros Hs HK Hmal. split; [|split; [|split]].
  - by rewrite rewriteEntry_wrapperOf, wrapperOf_malformed.
  - intros Hu keys. by apply rangeRewrite_malformed_kept.
  - intros order. unfold transformOneOfFieldsRecursive.
    rewrite transformAt_VMap. eexists. split; [done|]. intros Hu.
    rewrite map_lookup_imap.
    rewrite (rangeRewrite_malformed_kept _ M K val) by done. simpl.
    split; [done|]. intros HS. by rewrite transformAt_Settled.
  - intros order1 order2 h c F Ho Hr HF.
    destruct (transformInPlace_repr order1 order2 (height (VMap M)) Ho []
                c (VMap M) h F) as (h' & Hrun & _); [lia|done|done|].
    by exists h'.
Qed.

Lemma malformed_wrapper_untouched_witness :
  rewriteEntry "kOneOfType" (VString "opt_a") exMalformed = exMalformed /\
  exists M',
    transformOneOfFieldsRecursive initialKeys (VMap exMalformed) = VMap M' /\
    M' !! "kOneOfType" = Some (VString "opt_a").
Proof.
  destruct (malformed_wrapper_untouched exMalformed "kOneOfType"
              (VString "opt_a")) as (H1 & _ & H2 & _);
    [reflexivity|reflexivity|exact I|].
  split; [exact H1|].
  destruct (H2 initialKeys) as (M' & Hrun & HM'). exists M'.
  split; [exact Hrun|]. apply HM'.
  - apply (bool_decide_unpack _). vm_compute. exact I.
  - reflexivity.
Defined.

(** ** The in-place run and the function on values *)

(** X8.  On a value held as a tree, the run on the heap terminates within
    the nesting depth and leaves the reference holding the value that
    [transformOneOfFieldsRecursive] computes, for the schedule of the first
    loops and whatever the order of the second; it changes no object outside
    the tree. *)
Theorem transformInPlace_refines order1 order2 (h : heap) c x F :
  eachOnce order2 -> repr h c x F -> F ⊆ dom h ->
  exists h', transformInPlace order1 order2 (height x) [] c h = Some h' /\
    repr h' c (transformOneOfFieldsRecursive (scheduleOf order1) x)
      (F ∪ (dom h' ∖ dom h)) /\
    dom h ⊆ dom h' /\
    forall a, a ∈ dom h -> a ∉ F -> h' !! a = h !! a.
Proof. intros Ho Hr HF. by apply transformInPlace_repr. Qed.

Lemma transformInPlace_refines_witness :
  exists h',
    transformInPlace sortedKeys sortedKeys (height exPrimitiveVariant) []
      (IMap 1%positive) exHeapVariant = Some h' /\
    repr h' (IMap 1%positive)
      (transformOneOfFieldsRecursive (scheduleOf sortedKeys) exPrimitiveVariant)
      ({[ 1%positive; 2%positive ]} ∪ (dom h' ∖ dom exHeapVariant)) /\
    dom exHeapVariant ⊆ dom h' /\
    forall a, a ∈ dom exHeapVariant -> a ∉ ({[ 1%positive; 2%positive ]} : gset loc) ->
              h' !! a = exHeapVariant !! a.
Proof.
  apply (transformInPlace_refines sortedKeys sortedKeys exHeapVariant
           (IMap 1%positive) exPrimitiveVariant {[ 1%positive; 2%positive ]}).
  - exact eachOnce_sortedKeys.
  - exact exHeapVariant_repr.
  - exact exHeapVariant_dom.
Defined.

(** X9.  On every heap, shared or not, a run of the flattener removes no
    object, changes no array, and changes no map none of whose keys ends in
    ["OneOfType"]. *)
Theorem transformInPlace_never_touches order1 order2 fuel p obj (h h' : heap) :
  transformInPlace order1 order2 fuel p obj h = Some h' ->
  dom h ⊆ dom h' /\
  (forall a items, h !! a = Some (OSlice items) -> h' !! a = Some (OSlice items)) /\
  (forall l m, h !! l = Some (OMap m) -> suffixFree m -> h' !! l = Some (OMap m)).
Proof.
  intros Hrun. destruct (transformInPlace_quiet _ _ _ _ _ _ _ Hrun) as (Hd & Hs & Hm).
  split; [done|]. split; [done|]. intros l m Hl. by apply (Hm l m Hl).
Qed.

Lemma transformInPlace_never_touches_witness :
  dom exHeapVariant ⊆ dom exHeapVariantFlat /\
  (forall a items, exHeapVariant !! a = Some (OSlice items) ->
                   exHeapVariantFlat !! a = Some (OSlice items)) /\
  (forall l m, exHeapVariant !! l = Some (OMap m) -> suffixFree m ->
               exHeapVariantFlat !! l = Some (OMap m)).
Proof.
  apply (transformInPlace_never_touches sortedKeys sortedKeys 2 []
           (IMap 1%positive) exHeapVariant exHeapVariantFlat).
  vm_compute. reflexivity.
Defined.

(** ** deepCopyMap *)

Lemma copyable_agree fuel :
  forall (h h' : heap) m,
    (forall a, a ∈ dom h -> h' !! a = h !! a) ->
    copyable fuel h m = true -> copyable fuel h' m = true.
Proof.
  induction fuel as [|f IH]; intros h h' m Hag; simpl; [done|].
  destruct (h !! m) as [[entries|]|] eqn:Hm; try done.
  rewrite (Hag m) by (apply elem_of_dom; eauto). rewrite Hm.
  rewrite !forallb_forall. intros Hall kv Hin. specialize (Hall kv Hin).
  destruct (kv.2) as [| | | |a|u]; try done.
  - destruct (h !! a) as [[|items]|] eqn:Ha; try done.
    rewrite (Hag a) by (apply elem_of_dom; eauto). by rewrite Ha.
  - by apply (IH h).
Qed.

Lemma copyEntries_returns f (h : heap) r :
  (forall m (h1 : heap), copyable f h1 m = true ->
     exists c h2, deepCopyMap f m h1 = Some (c, h2)) ->
  r ∉ dom h ->
  forall es (h0 : heap) mr0,
    h0 !! r = Some (OMap mr0) ->
    (forall a, a ∈ dom h -> h0 !! a = h !! a) ->
    forallb (fun kv : string * iface =>
               match kv.2 with
               | IMap val => copyable f h val
               | ISlice val =>
                   match h !! val with
                   | Some (OSlice _) => true
                   | _ => false
                   end
               | _ => true
               end) es = true ->
    exists h1, copyEntries (deepCopyMap f) r es h0 = Some h1.
Proof.
  intros IHf Hr es h0 mr0 Hr0 Hag.
  induction es as [|[k v] es IH]; intros Hall; [by eexists|].
  simpl in Hall. apply andb_true_iff in Hall as [Hv Hall].
  destruct (IH Hall) as [hm Hm].
  unfold copyEntries in *. simpl. rewrite Hm. simpl.
  assert (Hagm : forall a, a ∈ dom h -> hm !! a = h !! a).
  { destruct (copyEntries_alloc (deepCopyMap f) r) with (es := es) (h0 := h0)
      (h1 := hm) (mr0 := mr0) as (_ & Hkeep & _); [|done|done|].
    - intros u h1 c h2 Hrun.
      destruct (deepCopyMap_alloc f u h1 c h2 Hrun) as (Hc & Hu & e & e' & _ & He' & _).
      eauto.
    - intros a Ha. rewrite Hkeep; [by apply Hag| |].
      + apply elem_of_dom. rewrite Hag by done. by apply elem_of_dom.
      + intros ->. done. }
  destruct v as [| | | |a|u]; simpl in *; try by eexists.
  - destruct (h !! a) as [[|items]|] eqn:Ha; try done.
    rewrite (Hagm a) by (apply elem_of_dom; eauto). rewrite Ha. by eexists.
  - destruct (IHf u hm) as (c & h2 & Hrun).
    { by apply (copyable_agree f h). }
    rewrite Hrun. simpl. by eexists.
Qed.

Lemma deepCopyMap_returns fuel :
  forall m (h : heap), copyable fuel h m = true ->
    exists r h', deepCopyMap fuel m h = Some (r, h').
Proof.
  induction fuel as [|f IH]; intros m h; simpl; [done|].
  destruct (h !! m) as [[entries|]|] eqn:Hm; try done. intros Hall.
  destruct (copyEntries_returns f h (fresh (dom h)) IH (is_fresh _)
              (map_to_list entries) (<[fresh (dom h) := OMap ∅]> h) ∅)
    as [h1 Hh1]; [by rewrite lookup_insert_eq| |done|].
  - intros a Ha. rewrite lookup_insert_ne; [done|].
    intros <-. by apply is_fresh in Ha.
  - rewrite Hh1. simpl. by eexists _, _.
Qed.

(** X10.  On every heap in which the maps held in maps below [m] nest less
    than [fuel] deep and every reference names an object of its kind, shared
    objects allowed, [deepCopyMap] returns: the map it returns was not there
    before, and no object that was is changed.  The new map has the keys of
    the old one; under each key it holds a new map where the old one holds a
    map, a new array with the same elements, references included, where the
    old one holds an array, and the old contents otherwise. *)
Theorem deepCopyMap_one_level fuel m (h : heap) :
  copyable fuel h m = true ->
  exists r h',
    deepCopyMap fuel m h = Some (r, h') /\
    (r ∉ dom h) /\ (forall a, a ∈ dom h -> h' !! a = h !! a) /\
    exists entries entries',
      h !! m = Some (OMap entries) /\ h' !! r = Some (OMap entries') /\
      dom entries' = dom entries /\
      forall k v, entries !! k = Some v ->
        exists v', entries' !! k = Some v' /\ copied h h' v v'.
Proof.
  intros Hc. destruct (deepCopyMap_returns fuel m h Hc) as (r & h' & Hrun).
  exists r, h'. split; [done|].
  destruct (deepCopyMap_alloc fuel m h r h' Hrun) as (Hr & [_ Hu] & Hrest).
  split; [done|]. split; [|done]. intros a Ha. apply Hu; [done|set_solver].
Qed.

Lemma deepCopyMap_one_level_witness :
  exists r h',
    deepCopyMap 2 1%positive exHeapShared = Some (r, h') /\
    (r ∉ dom exHeapShared) /\
    (forall a, a ∈ dom exHeapShared -> h' !! a = exHeapShared !! a) /\
    exists entries entries',
      exHeapShared !! 1%positive = Some (OMap entries) /\
      h' !! r = Some (OMap entries') /\
      dom entries' = dom entries /\
      forall k v, entries !! k = Some v ->
        exists v', entries' !! k = Some v' /\ copied exHeapShared h' v v'.
Proof.
  apply (deepCopyMap_one_level 2 1%positive exHeapShared).
  vm_compute. reflexivity.
Defined.

(** X11.  On a map held as a tree, [deepCopyMap] terminates within the
    nesting depth; the original still holds its value, and the new map holds
    the same value, as a tree made of new objects and of objects below the
    original map. *)
Theorem deepCopyMap_copies_value fuel (h : heap) l (xm : gmap string value) F :
  repr h (IMap l) (VMap xm) F -> F ⊆ dom h -> height (VMap xm) <= fuel ->
  exists r h',
    deepCopyMap fuel l h = Some (r, h') /\ (r ∉ dom h) /\
    (forall a, a ∈ dom h -> h' !! a = h !! a) /\
    repr h' (IMap l) (VMap xm) F /\
    repr h' (IMap r) (VMap xm) ((dom h' ∖ dom h) ∪ (F ∖ {[l]})).
Proof.
  intros Hr HF Hh.
  destruct (deepCopyMap_repr false fuel l h xm F Hh) as (r & h' & Hrun & Hrn & [Hd Hu] & Hc);
    [done..|].
  exists r, h'. split; [done|]. split; [done|].
  assert (Hsame : forall a, a ∈ dom h -> h' !! a = h !! a).
  { intros a Ha. apply Hu; [done|set_solver]. }
  split; [done|]. split; [|done].
  eapply repr_frame; [exact Hr|]. intros a Ha. apply Hsame. set_solver.
Qed.

Lemma deepCopyMap_copies_value_witness :
  exists r h',
    deepCopyMap 2 1%positive exHeapVariant = Some (r, h') /\
    (r ∉ dom exHeapVariant) /\
    (forall a, a ∈ dom exHeapVariant -> h' !! a = exHeapVariant !! a) /\
    repr h' (IMap 1%positive) exPrimitiveVariant {[ 1%positive; 2%positive ]} /\
    repr h' (IMap r) exPrimitiveVariant
      ((dom h' ∖ dom exHeapVariant) ∪ ({[ 1%positive; 2%positive ]} ∖ {[ 1%positive ]})).
Proof.
  apply (deepCopyMap_copies_value 2 exHeapVariant 1%positive _
           {[ 1%positive; 2%positive ]}).
  - exact exHeapVariant_repr.
  - exact exHeapVariant_dom.
  - vm_compute. lia.
Defined.

(** ** The test's harness: copy, then flatten the copy *)

(** X12.  [input := deepCopyMap(tt.input); transformOneOfFieldsRecursive(input)]
    on a map held as a tree: both calls return, the copy then holds the value
    [transformOneOfFieldsRecursive] computes from the original's, and the
    original map object itself is as it was. *)
Theorem copy_then_flatten order1 order2 fuel (h : heap) l
  (xm : gmap string value) F :
  eachOnce order2 -> repr h (IMap l) (VMap xm) F -> F ⊆ dom h ->
  height (VMap xm) <= fuel ->
  exists r h1 h2,
    deepCopyMap fuel l h = Some (r, h1) /\
    transformInPlace order1 order2 fuel [] (IMap r) h1 = Some h2 /\
    h2 !! l = h !! l /\
    repr h2 (IMap r) (transformOneOfFieldsRecursive (scheduleOf order1) (VMap xm))
      ((dom h2 ∖ dom h) ∪ (F ∖ {[l]})).
Proof.
  intros Ho Hr HF Hh.
  destruct (copy_then_flatten_regions order1 order2 fuel false h l xm F Ho Hr HF Hh)
    as (r & h1 & h2 & Hcopy & Hrun & Hrn & [Hd1 Hu1] & [Hd2 Hu2] & Hr1 & Hr2);
    [done|].
  exists r, h1, h2. split; [done|]. split; [done|]. split; [|done].
  assert (l ∈ dom h).
  { inversion Hr as [| | | | |l' m' xm' fp' F' Hl' _ _ _ _ _]; subst.
    by eapply elem_of_dom_2. }
  rewrite Hu2; [|set_solver|simpl; set_solver].
  apply Hu1; [done|set_solver].
Qed.

Lemma copy_then_flatten_witness :
  exists r h1 h2,
    deepCopyMap 2 1%positive exHeapVariant = Some (r, h1) /\
    transformInPlace sortedKeys sortedKeys 2 [] (IMap r) h1 = Some h2 /\
    h2 !! 1%positive = exHeapVariant !! 1%positive /\
    repr h2 (IMap r)
      (transformOneOfFieldsRecursive (scheduleOf sortedKeys) exPrimitiveVariant)
      ((dom h2 ∖ dom exHeapVariant) ∪ ({[ 1%positive; 2%positive ]} ∖ {[ 1%positive ]})).
Proof.
  apply (copy_then_flatten sortedKeys sortedKeys 2 exHeapVariant 1%positive _
           {[ 1%positive; 2%positive ]}).
  - exact eachOnce_sortedKeys.
  - exact exHeapVariant_repr.
  - exact exHeapVariant_dom.
  - vm_compute. lia.
Defined.

(** X13.  When no array of the input holds a mapping or an array, flattening
    the copy changes no object that was there before the copy: the original
    holds its value unchanged. *)
Theorem copy_keeps_original order1 order2 fuel (h : heap) l
  (xm : gmap string value) F :
  eachOnce order2 -> repr h (IMap l) (VMap xm) F -> F ⊆ dom h ->
  height (VMap xm) <= fuel -> NoSharing (VMap xm) ->
  exists r h1 h2,
    deepCopyMap fuel l h = Some (r, h1) /\
    transformInPlace order1 order2 fuel [] (IMap r) h1 = Some h2 /\
    (forall a, a ∈ dom h -> h2 !! a = h !! a) /\
    repr h2 (IMap l) (VMap xm) F /\
    repr h2 (IMap r) (transformOneOfFieldsRecursive (scheduleOf order1) (VMap xm))
      (dom h2 ∖ dom h).
Proof.
  intros Ho Hr HF Hh Hns.
  destruct (copy_then_flatten_regions order1 order2 fuel true h l xm F Ho Hr HF Hh)
    as (r & h1 & h2 & Hcopy & Hrun & Hrn & [Hd1 Hu1] & [Hd2 Hu2] & Hr1 & Hr2);
    [done|].
  exists r, h1, h2. split; [done|]. split; [done|]. simpl in *.
  assert (Hsame : forall a, a ∈ dom h -> h2 !! a = h !! a).
  { intros a Ha. rewrite Hu2; [by apply Hu1|set_solver|set_solver]. }
  split; [done|]. split.
  - eapply repr_frame; [exact Hr|]. intros a Ha. apply Hsame. set_solver.
  - eapply repr_mono; [exact Hr2|set_solver].
Qed.

Lemma copy_keeps_original_witness :
  exists r h1 h2,
    deepCopyMap 2 1%positive exHeapVariant = Some (r, h1) /\
    transformInPlace sortedKeys sortedKeys 2 [] (IMap r) h1 = Some h2 /\
    (forall a, a ∈ dom exHeapVariant -> h2 !! a = exHeapVariant !! a) /\
    repr h2 (IMap 1%positive) exPrimitiveVariant {[ 1%positive; 2%positive ]} /\
    repr h2 (IMap r)
      (transformOneOfFieldsRecursive (scheduleOf sortedKeys) exPrimitiveVariant)
      (dom h2 ∖ dom exHeapVariant).
Proof.
  apply (copy_keeps_original sortedKeys sortedKeys 2 exHeapVariant 1%positive _
           {[ 1%positive; 2%positive ]}).
  - exact eachOnce_sortedKeys.
  - exact exHeapVariant_repr.
  - exact exHeapVariant_dom.
  - vm_compute. lia.
  - reflexivity.
Defined.

(** X14.  [deepCopyMap] copies an array one level deep, so the copy shares
    the array's elements with the original.  When no key of the input
    mapping ends in ["OneOfType"] and the mapping holds an array under [k],
    flattening the copy flattens element [i] of the original's array in
    place: the original map and its array are as they were, but the element
    now holds the flattened value. *)
Theorem copy_shares_array_elements order1 order2 fuel (h : heap) l m
  (xm : gmap string value) F k s items i c xs y :
  eachOnce order2 -> repr h (IMap l) (VMap xm) F -> F ⊆ dom h ->
  height (VMap xm) <= fuel -> noSuffixKey xm ->
  h !! l = Some (OMap m) -> m !! k = Some (ISlice s) ->
  h !! s = Some (OSlice items) -> items !! i = Some c ->
  xm !! k = Some (VArray xs) -> xs !! i = Some y ->
  exists r h1 h2,
    deepCopyMap fuel l h = Some (r, h1) /\
    transformInPlace order1 order2 fuel [] (IMap r) h1 = Some h2 /\
    h2 !! l = Some (OMap m) /\ h2 !! s = Some (OSlice items) /\
    exists G, repr h2 c (transformAt (scheduleOf order1) [Key k; Idx i] y) G.
Proof.
  intros Ho Hr HF Hh Hns Hl Hk Hs Hi Hxk Hy.
  destruct (copy_then_flatten_regions order1 order2 fuel false h l xm F Ho Hr HF Hh)
    as (r & h1 & h2 & Hcopy & Hrun & Hrn & [Hd1 Hu1] & [Hd2 Hu2] & Hr1 & Hr2);
    [done|].
  exists r, h1, h2. split; [done|]. split; [done|].
  pose proof (transformInPlace_quiet _ _ _ _ _ _ _ Hrun) as (_ & Hsl & Hmp).
  destruct (deepCopyMap_alloc fuel l h r h1 Hcopy)
    as (_ & _ & m0 & mr & Hl0 & Hmr & Hdom & Hcop).
  rewrite Hl in Hl0. injection Hl0 as <-.
  assert (HlF : l ∈ F) by (inversion Hr; by subst).
  split.
  { assert (l ∈ dom h) by (by eapply elem_of_dom_2).
    rewrite Hu2; [|set_solver|simpl; set_solver].
    rewrite Hu1; [done|done|set_solver]. }
  split.
  { apply Hsl. rewrite Hu1; [done|by eapply elem_of_dom_2|set_solver]. }
  destruct (Hcop k (ISlice s) Hk) as (v' & Hv' & a' & items' & -> & Ha'n & Ha' & Hold).
  rewrite Hold in Hs by (by eapply elem_of_dom_2). injection Hs as ->.
  assert (Hdx : dom m = dom xm).
  { inversion Hr as [| | | | |l' m' xm' fp' F' Hl' _ Hdm _ _ _]; subst.
    rewrite Hl in Hl'. by injection Hl' as <-. }
  assert (Hr2' : h2 !! r = Some (OMap mr)).
  { apply (Hmp r mr Hmr). intros key Hkey. apply elem_of_dom in Hkey.
    rewrite Hdom, Hdx in Hkey. apply elem_of_dom in Hkey as [val Hval].
    by eapply Hns. }
  apply Hsl in Ha'.
  unfold transformOneOfFieldsRecursive in Hr2. rewrite transformAt_VMap in Hr2.
  rewrite noSuffixKey_rangeRewrite in Hr2 by done.
  inversion Hr2 as [| | | | |r' m2 X fp2 F2 Hr2c _ _ Hkids2 _ _]; subst.
  rewrite Hr2' in Hr2c. injection Hr2c as <-.
  assert (Hrk : repr h2 (ISlice a')
                  (transformAt (scheduleOf order1) ([] ++ [Key k]) (VArray xs))
                  (fp2 k)).
  { eapply Hkids2; [done|]. rewrite map_lookup_imap, Hxk. done. }
  rewrite transformAt_VArray in Hrk.
  inversion Hrk as [| | | |a'' items2 xs2 fp3 F3 Ha2 _ _ Hkids3 _ _|]; subst.
  rewrite Ha' in Ha2. injection Ha2 as <-.
  exists (fp3 i). eapply Hkids3; [done|].
  rewrite list_lookup_imap, Hy. done.
Qed.

Lemma copy_shares_array_elements_witness :
  exists r h1 h2,
    deepCopyMap 4 1%positive exHeapItems = Some (r, h1) /\
    transformInPlace sortedKeys sortedKeys 4 [] (IMap r) h1 = Some h2 /\
    h2 !! 1%positive = Some (OMap {[ "items" := ISlice 2%positive ]}) /\
    h2 !! 2%positive = Some (OSlice [IMap 3%positive]) /\
    exists G, repr h2 (IMap 3%positive)
                (transformAt (scheduleOf sortedKeys) [Key "items"; Idx 0]
                   exPrimitiveVariant) G.
Proof.
  apply (copy_shares_array_elements sortedKeys sortedKeys 4 exHeapItems 1%positive
           {[ "items" := ISlice 2%positive ]} {[ "items" := VArray [exPrimitiveVariant] ]}
           {[ 1%positive; 2%positive; 3%positive; 4%positive ]}
           "items" 2%positive [IMap 3%positive] 0 (IMap 3%positive)
           [exPrimitiveVariant] exPrimitiveVariant).
  - exact eachOnce_sortedKeys.
  - exact exHeapItems_repr.
  - exact exHeapItems_dom.
  - vm_compute. lia.
  - apply (bool_decide_unpack _). vm_compute. exact I.
  - reflexivity.
  - reflexivity.
  - reflexivity.
  - reflexivity.
  - reflexivity.
  - reflexivity.
Defined.

(** The run of the harness on [exHeapItems]: the copy is at location 5, and
    the map that is the element of the original's array, at location 3, has
    lost its wrapper. *)
Lemma copy_shares_array_elements_example :
  exists h1 h2,
    deepCopyMap 4 1%positive exHeapItems = Some (5%positive, h1) /\
    transformInPlace sortedKeys sortedKeys 4 [] (IMap 5%positive) h1 = Some h2 /\
    exHeapItems !! 3%positive = Some (OMap {[ "kOneOfType" := IMap 4%positive ]}) /\
    h2 !! 3%positive = Some (OMap {[ "s" := IMap 7%positive ]}) /\
    h2 !! 7%positive = Some (OMap {[ "value" := IString "hi" ]}).
Proof.
  eexists _, _. split; [vm_compute; reflexivity|].
  split; [vm_compute; reflexivity|]. repeat split; vm_compute; reflexivity.
Qed.

(** ** Maps that contain themselves *)

Lemma rangeValues_cycle (body : string -> iface -> heap -> option heap) l
  (m : gmap string iface) k :
  (forall key x (h h' : heap), body key x h = Some h' -> quiet h h') ->
  (forall h : heap, h !! l = Some (OMap m) -> body k (IMap l) h = None) ->
  suffixFree m -> m !! k = Some (IMap l) ->
  forall keys (h : heap),
    k ∈ keys -> h !! l = Some (OMap m) -> rangeValues body l keys h = None.
Proof.
  intros Hq Hnone Hsf Hk keys.
  induction keys as [|key rest IH]; intros h Hin Hl; [set_solver|].
  simpl. unfold mapaccess. rewrite Hl.
  destruct (decide (key = k)) as [->|Hne].
  - rewrite Hk. by rewrite Hnone.
  - assert (k ∈ rest) by set_solver.
    destruct (m !! key) as [value|]; [|by apply IH].
    destruct (body key value h) as [h'|] eqn:Hb; [|done]. simpl.
    apply IH; [done|]. destruct (Hq _ _ _ _ Hb) as (_ & _ & Hm).
    by apply (Hm l m Hl).
Qed.

(** X15.  A map that holds itself under one of its keys, and has no key
    ending in ["OneOfType"], is never left: the recursion of the second loop
    comes back to the map, so the run returns for no bound on the depth. *)
Theorem transformInPlace_diverges_on_cycle order1 order2 (h : heap) l
  (m : gmap string iface) k fuel p :
  (forall p (D : gset string), k ∈ D -> k ∈ order2 p D) ->
  h !! l = Some (OMap m) -> suffixFree m -> m !! k = Some (IMap l) ->
  transformInPlace order1 order2 fuel p (IMap l) h = None.
Proof.
  intros Hcov Hl Hsf Hk. revert h p Hl.
  induction fuel as [|fuel IH]; intros h p Hl; [done|].
  simpl. rewrite Hl.
  destruct (rangeRewriteInPlace_quiet l (order1 p (dom m)) h) as (_ & _ & Hm).
  rewrite (proj2 (Hm l m Hl) Hsf).
  eapply rangeValues_cycle; [|by intros h0 Hl0; apply IH|done|done| |].
  - intros key x h0 h0'. apply transformInPlace_quiet.
  - apply Hcov. by eapply elem_of_dom_2.
  - by apply (Hm l m Hl).
Qed.

Lemma copyEntries_cycle (rec : loc -> heap -> option (loc * heap)) r l
  (m : gmap string iface) k :
  (forall u (h : heap) c h', rec u h = Some (c, h') ->
     (c ∉ dom h) /\ unchangedOutside h ∅ h' /\ exists e, h' !! c = Some (OMap e)) ->
  (forall h : heap, h !! l = Some (OMap m) -> rec l h = None) ->
  l <> r ->
  forall es (h : heap) mr,
    (k, IMap l) ∈ es -> h !! l = Some (OMap m) -> h !! r = Some (OMap mr) ->
    copyEntries rec r es h = None.
Proof.
  intros Hrec Hnone Hne es. induction es as [|[k' v] es IH]; intros h mr Hin Hl Hr;
    [set_solver|].
  unfold copyEntries. simpl. fold (copyEntries rec r es h).
  destruct (copyEntries rec r es h) as [hm|] eqn:Hmid; [|done]. simpl.
  apply elem_of_cons in Hin as [[= <- <-]|Hin].
  - simpl. rewrite Hnone; [done|].
    destruct (copyEntries_alloc rec r Hrec es h hm mr Hr Hmid) as (_ & Hag & _).
    rewrite Hag; [done|by eapply elem_of_dom_2|done].
  - by rewrite (IH h mr Hin Hl Hr) in Hmid.
Qed.

(** X16.  [deepCopyMap] of a map that holds itself under one of its keys
    returns for no bound on the depth: copying the entry calls [deepCopyMap]
    on the same map again. *)
Theorem deepCopyMap_diverges_on_cycle (h : heap) l (m : gmap string iface) k fuel :
  h !! l = Some (OMap m) -> m !! k = Some (IMap l) ->
  deepCopyMap fuel l h = None.
Proof.
  intros Hl Hk. revert h Hl.
  induction fuel as [|fuel IH]; intros h Hl; [done|].
  simpl. rewrite Hl.
  pose proof (is_fresh (dom h)) as Hn. set (r := fresh (dom h)) in *.
  assert (l <> r) by (intros ->; apply Hn; by eapply elem_of_dom_2).
  rewrite (copyEntries_cycle (deepCopyMap fuel) r l m k) with (mr := ∅); [done|..].
  - intros u h0 c h0' Hru.
    destruct (deepCopyMap_alloc fuel u h0 c h0' Hru) as (? & ? & ? & e & ? & ? & ?).
    eauto.
  - intros h0 Hl0. by apply IH.
  - done.
  - by apply elem_of_map_to_list.
  - by rewrite lookup_insert_ne.
  - by rewrite lookup_insert_eq.
Qed.

Lemma transformInPlace_diverges_on_cycle_witness :
  transformInPlace sortedKeys sortedKeys 100 [] (IMap 1%positive) exHeapCycle = None.
Proof.
  apply (transformInPlace_diverges_on_cycle sortedKeys sortedKeys exHeapCycle
           1%positive {[ "self" := IMap 1%positive ]} "self" 100 []).
  - intros p D Hk. by apply elem_of_elements.
  - reflexivity.
  - intros key [x Hx]. apply lookup_singleton_Some in Hx as [<- _]. reflexivity.
  - reflexivity.
Defined.

Lemma deepCopyMap_diverges_on_cycle_witness :
  deepCopyMap 100 1%positive exHeapCycle = None.
Proof.
  apply (deepCopyMap_diverges_on_cycle exHeapCycle 1%positive
           {[ "self" := IMap 1%positive ]} "self" 100); reflexivity.
Defined.

Section References.
Context (env : gmap string MessageDescriptor).

Lemma pending_mono (defs defs' : DefinitionsTable) :
  dom defs ⊆ dom defs' -> pending env defs' <= pending env defs.
Proof.
  intros Hsub. unfold pending. apply subseteq_size.
  intros x [Hx Hnx]%elem_of_difference. apply elem_of_difference.
  split; [done|]. intros Hd. apply Hnx. by apply Hsub.
Qed.

Lemma pending_insert (defs : DefinitionsTable) n node md :
  env !! n = Some md -> defs !! n = None ->
  pending env (<[n := node]> defs) < pending env defs.
Proof.
  intros Hn Hd. unfold pending. apply subset_size.
  rewrite dom_insert_L. apply elem_of_dom_2 in Hn. apply not_elem_of_dom in Hd.
  split.
  - intros x [Hx Hnx]%elem_of_difference. apply elem_of_difference.
    split; [done|]. intros Hxd. apply Hnx. apply elem_of_union. by right.
  - intros Hsub. assert (n ∈ dom env ∖ dom defs) as Hin.
    { by apply elem_of_difference. }
    apply Hsub in Hin. apply elem_of_difference in Hin as [_ Hin].
    apply Hin. apply elem_of_union. left. by apply elem_of_singleton.
Qed.

Lemma pending_empty : pending env ∅ = size env.
Proof.
  unfold pending. rewrite dom_empty_L, difference_empty_L. apply size_dom.
Qed.

Lemma grows_refl (defs : DefinitionsTable) : grows env defs defs [].
Proof.
  split; [done|]. split; [by intros n ?%elem_of_nil|]. split; by intros.
Qed.

Lemma grows_trans (defs defs1 defs2 : DefinitionsTable) R1 R2 :
  grows env defs defs1 R1 -> grows env defs1 defs2 R2 -> grows env defs defs2 (R1 ++ R2).
Proof.
  intros (Hs1 & Hin1 & Hr1 & Hc1) (Hs2 & Hin2 & Hr2 & Hc2).
  split; [by etrans|]. split; [|split].
  - intros n [?|?]%elem_of_app; [|by apply Hin2]. apply Hs2. by apply Hin1.
  - intros x Hx Hnx. destruct (decide (x ∈ dom defs1)) as [Hx1|Hx1].
    + destruct (Hr1 _ Hx1 Hnx) as (r & Hr & Hp). exists r. split; [|done].
      apply elem_of_app. by left.
    + destruct (Hr2 _ Hx Hx1) as (r & Hr & Hp). exists r. split; [|done].
      apply elem_of_app. by right.
  - intros x y Hx Hnx He. destruct (decide (x ∈ dom defs1)) as [Hx1|Hx1].
    + apply Hs2. by eapply Hc1.
    + by eapply Hc2.
Qed.

Lemma grows_same_names (defs defs' : DefinitionsTable) R R' :
  (forall n, n ∈ R <-> n ∈ R') -> grows env defs defs' R -> grows env defs defs' R'.
Proof.
  intros HR (Hs & Hin & Hr & Hc). split; [done|]. split; [|split; [|done]].
  - intros n Hn. apply Hin. by apply HR.
  - intros x Hx Hnx. destruct (Hr _ Hx Hnx) as (r & Hrr & Hp).
    exists r. split; [by apply HR|done].
Qed.

Section Meets.
Context (ok : Prop) (bound : nat).

Lemma meets_ret {A : Type} (a : A) : meets env ok bound (ret a) [].
Proof. intros defs _. apply grows_refl. Qed.

Lemma meets_fail {A : Type} why : ~ ok -> meets env ok bound (@fail A why) [].
Proof. by intros Hno defs _. Qed.

Lemma meets_bind {A B : Type} (c : compile A) (k : A -> compile B) R1 R2 :
  meets env ok bound c R1 -> (forall a, meets env ok bound (k a) R2) ->
  meets env ok bound (bind c k) (R1 ++ R2).
Proof.
  intros Hc Hk defs Hb. unfold bind. specialize (Hc defs Hb).
  destruct (c defs) as [[a defs1]| |]; [|done..].
  assert (Hb1 : pending env defs1 <= bound).
  { etrans; [apply pending_mono, Hc|done]. }
  specialize (Hk a defs1 Hb1).
  destruct (k a defs1) as [[b defs2]| |]; [|done..].
  by eapply grows_trans.
Qed.

Lemma meets_same_names {A : Type} (c : compile A) R R' :
  (forall n, n ∈ R <-> n ∈ R') -> meets env ok bound c R -> meets env ok bound c R'.
Proof.
  intros HR Hc defs Hb. specialize (Hc defs Hb).
  destruct (c defs) as [[a defs1]| |]; [|done..]. by eapply grows_same_names.
Qed.

Lemma meets_bind_ret {A B : Type} (c : compile A) (f : A -> B) R :
  meets env ok bound c R -> meets env ok bound (bind c (fun a => ret (f a))) R.
Proof.
  intros Hc. eapply meets_same_names; [|apply meets_bind; [done|]].
  - intros n. by rewrite app_nil_r.
  - intros a. apply meets_ret.
Qed.

Lemma meets_mapM {A B : Type} (f : A -> compile B) (F : A -> list string) l :
  (forall a, a ∈ l -> meets env ok bound (f a) (F a)) ->
  meets env ok bound (mapM f l) (flat_map F l).
Proof.
  induction l as [|a l IH]; intros Hf; simpl.
  - apply meets_ret.
  - apply meets_bind; [apply Hf; by left|]. intros b.
    apply meets_bind_ret. apply IH. intros a' Ha'. apply Hf. by right.
Qed.

End Meets.

End References.

Section CompilerMeets.
Context (env : gmap string MessageDescriptor).
Context (oneofRequired : FileGenerator -> string -> bool) (g : FileGenerator).
Context (ensure : string -> compile unit) (ok : Prop) (bound : nat).
Hypothesis ensure_meets :
  forall name, (ok -> is_Some (env !! name)) ->
               meets env ok bound (ensure name) [name].

Lemma valueSchema_meets fd :
  (ok -> supportedField env fd = true) ->
  meets env ok bound (valueSchema ensure fd) (refersTo fd).
Proof.
  intros Hfd. unfold valueSchema, refersTo.
  assert (Hkind : ValueKind fd <> MessageKind ->
                  kindToType (ValueKind fd) = None -> ~ ok).
  { intros Hk Hnone Hok. specialize (Hfd Hok). unfold supportedField in Hfd.
    apply andb_true_iff in Hfd as [Hfd _].
    destruct (ValueKind fd); try done;
      apply bool_decide_eq_true in Hfd; rewrite Hnone in Hfd;
      by destruct Hfd. }
  destruct (ValueKind fd) eqn:Hvk;
    try (destruct (kindToType _) eqn:Hkt;
         [apply meets_ret|apply meets_fail; by apply Hkind]).
  destruct (wellKnown (Message fd)) eqn:Hwk; [apply meets_ret|].
  apply meets_bind_ret, ensure_meets. intros Hok. specialize (Hfd Hok).
  unfold supportedField in Hfd. rewrite Hvk, Hwk in Hfd.
  apply andb_true_iff in Hfd as [Hfd _]. by apply bool_decide_eq_true in Hfd.
Qed.

Lemma keySchema_meets keyKind :
  (ok -> is_Some (kindToType keyKind)) ->
  meets env ok bound (keySchema keyKind) [].
Proof.
  intros Hk. unfold keySchema. destruct (kindToType keyKind) eqn:Hkt;
    [apply meets_ret|apply meets_fail].
  intros Hok. by destruct (Hk Hok).
Qed.

Lemma getType_meets fd :
  (ok -> supportedField env fd = true) ->
  meets env ok bound (getType ensure fd) (refersTo fd).
Proof.
  intros Hfd. unfold getType. apply meets_bind_ret.
  destruct (FieldCardinality fd) eqn:Hc.
  - by apply valueSchema_meets.
  - by apply meets_bind_ret, valueSchema_meets.
  - eapply meets_same_names; [|apply meets_bind; [by apply valueSchema_meets|]].
    + intros n. by rewrite app_nil_r.
    + intros v. apply meets_bind_ret, keySchema_meets.
      intros Hok. specialize (Hfd Hok). unfold supportedField in Hfd.
      rewrite Hc in Hfd. apply andb_true_iff in Hfd as [_ Hfd].
      by apply bool_decide_eq_true in Hfd.
Qed.

Lemma variantPayload_meets fd :
  (ok -> supportedField env fd = true) ->
  meets env ok bound (variantPayload ensure fd) (refersTo fd).
Proof.
  intros Hfd. unfold variantPayload.
  destruct (refersTo fd) as [|name [|? ?]] eqn:Hrefs.
  - rewrite <- Hrefs. by apply meets_bind_ret, getType_meets.
  - destruct (FieldCardinality fd);
      try (rewrite <- Hrefs; by apply meets_bind_ret, getType_meets).
    intros defs Hb. destruct (defs !! name) as [node|] eqn:Hd.
    + split; [done|]. split; [|split; by intros].
      intros n ->%list_elem_of_singleton. by eapply elem_of_dom_2.
    + assert (Hres : ok -> is_Some (env !! name)).
      { intros Hok. specialize (Hfd Hok). unfold supportedField in Hfd.
        unfold refersTo in Hrefs. destruct (ValueKind fd); try done.
        destruct (wellKnown (Message fd)); [done|].
        injection Hrefs as <-. apply andb_true_iff in Hfd as [Hfd _].
        by apply bool_decide_eq_true in Hfd. }
      pose proof (ensure_meets name Hres defs Hb) as He.
      destruct (ensure name defs) as [[[] defs']| |]; [|done..].
      destruct (defs' !! name) as [node|] eqn:Hd'.
      * by destruct (node !! "properties") as [[| | | | |props]|].
      * destruct He as (_ & Hin & _).
        assert (name ∈ dom defs') as Hdom by (apply Hin; by left).
        apply elem_of_dom in Hdom as [? ?]. congruence.
  - rewrite <- Hrefs. by apply meets_bind_ret, getType_meets.
Qed.

Lemma variantSchema_meets fd :
  (ok -> supportedField env fd = true) ->
  meets env ok bound (variantSchema ensure fd) (refersTo fd).
Proof.
  intros Hfd. unfold variantSchema. by apply meets_bind_ret, variantPayload_meets.
Qed.

Lemma oneofNames_spec (fields : list FieldDescriptor) o :
  o ∈ oneofNames fields <-> exists fd, fd ∈ fields /\ ContainingOneof fd = Some o.
Proof.
  induction fields as [|fd rest IH]; simpl.
  - split; [by intros ?%elem_of_nil|]. by intros (fd & ?%elem_of_nil & _).
  - destruct (ContainingOneof fd) as [o'|] eqn:Ho.
    + rewrite elem_of_cons, list_elem_of_filter, IH. split.
      * intros [->|[_ (fd' & Hin & Hfd')]].
        -- exists fd. split; [by left|done].
        -- exists fd'. split; [by right|done].
      * intros (fd' & [->|Hin]%elem_of_cons & Hfd').
        -- left. congruence.
        -- destruct (decide (o = o')) as [->|Hne]; [by left|].
           right. split; [done|]. eauto.
    + rewrite IH. split.
      * intros (fd' & Hin & Hfd'). exists fd'. split; [by right|done].
      * intros (fd' & [->|Hin]%elem_of_cons & Hfd'); [congruence|eauto].
Qed.

Lemma supportedMessage_field md fd :
  supportedMessage env md = true -> In fd (Fields md) ->
  supportedField env fd = true.
Proof.
  unfold supportedMessage. rewrite forallb_forall. intros H Hin. by apply H.
Qed.

Lemma messageSchemaFromDescriptor_meets md :
  (ok -> supportedMessage env md = true) ->
  meets env ok bound (messageSchemaFromDescriptor oneofRequired g ensure md)
    (references md).
Proof.
  intros Hmd. unfold messageSchemaFromDescriptor.
  eapply meets_same_names; [|apply meets_bind].
  2: { apply (meets_mapM _ _ _ _ refersTo). intros fd Hin.
       apply meets_bind_ret, getType_meets. intros Hok.
       eapply supportedMessage_field; [by apply Hmd|].
       apply list_elem_of_In. unfold plainFields in Hin.
       by apply list_elem_of_filter in Hin as [_ ?]. }
  2: { intros plain. apply meets_bind_ret.
       apply (meets_mapM _ _ _ _
                (fun o => flat_map refersTo (List.filter (inOneof o) (Fields md)))).
       intros o _. apply meets_bind_ret.
       apply meets_mapM. intros fd Hin. apply variantSchema_meets.
       intros Hok. eapply supportedMessage_field; [by apply Hmd|].
       apply list_elem_of_In in Hin. by apply filter_In in Hin as [? _]. }
  intros n. unfold references, plainFields.
  rewrite elem_of_app, !list_elem_of_In, !in_flat_map. split.
  - intros [(fd & Hin & Hn)|(o & Ho & Hn)].
    + exists fd. split; [|done]. apply list_elem_of_In.
      apply list_elem_of_In in Hin. by apply list_elem_of_filter in Hin as [_ ?].
    + apply in_flat_map in Hn as (fd & Hin & Hn). exists fd. split; [|done].
      by apply filter_In in Hin as [? _].
  - intros (fd & Hin & Hn). destruct (ContainingOneof fd) as [o|] eqn:Ho.
    + right. exists o. split.
      * apply list_elem_of_In, oneofNames_spec. exists fd.
        split; [by apply list_elem_of_In|done].
      * apply in_flat_map. exists fd. split; [|done].
        apply filter_In. split; [done|].
        unfold inOneof. by apply bool_decide_eq_true.
    + left. exists fd. split; [|done]. apply list_elem_of_In.
      apply list_elem_of_filter. split; [done|by apply list_elem_of_In].
Qed.

End CompilerMeets.

Lemma ensureDefinition_meets env oneofRequired g (ok : Prop) fuel name :
  (ok -> supportedEnv env) -> (ok -> is_Some (env !! name)) ->
  meets env ok fuel (ensureDefinition env oneofRequired g fuel name) [name].
Proof.
  intros Henv. revert name.
  induction fuel as [|fuel IH]; intros name Hres defs Hb.
  - simpl. destruct (defs !! name) as [node|] eqn:Hd.
    + split; [done|]. split; [|split; by intros].
      intros n ->%list_elem_of_singleton. by eapply elem_of_dom_2.
    + destruct (env !! name) as [md|] eqn:He.
      * pose proof (pending_insert env defs name ∅ md He Hd). lia.
      * intros Hok. by destruct (Hres Hok).
  - simpl. destruct (defs !! name) as [node|] eqn:Hd.
    + split; [done|]. split; [|split; by intros].
      intros n ->%list_elem_of_singleton. by eapply elem_of_dom_2.
    + destruct (env !! name) as [md|] eqn:He.
      2: { intros Hok. by destruct (Hres Hok). }
      pose proof (pending_insert env defs name ∅ md He Hd) as Hlt.
      assert (Hmd : ok -> supportedMessage env md = true).
      { intros Hok. by apply (Henv Hok name md). }
      pose proof (messageSchemaFromDescriptor_meets env oneofRequired g
                    (ensureDefinition env oneofRequired g fuel) ok fuel IH md Hmd
                    (<[name := ∅]> defs) ltac:(lia)) as Hm.
      destruct (messageSchemaFromDescriptor _ _ _ md _) as [[node defs']| |];
        [|done..].
      destruct Hm as (Hs & Hin & Hr & Hc).
      rewrite dom_insert_L in Hs.
      assert (Hname : name ∈ dom defs').
      { apply Hs. apply elem_of_union. left. by apply elem_of_singleton. }
      assert (Hdom : dom (<[name := node]> defs') = dom defs').
      { rewrite dom_insert_L. apply set_eq. intros x.
        rewrite elem_of_union, elem_of_singleton. naive_solver. }
      unfold grows. rewrite Hdom. split; [|split; [|split]].
      * intros x Hx. apply Hs. apply elem_of_union. by right.
      * by intros n ->%list_elem_of_singleton.
      * intros x Hx Hnx. exists name. split; [by left|].
        destruct (decide (x = name)) as [->|Hne]; [done|].
        destruct (Hr x Hx) as (r & Hrin & Hpath).
        { rewrite dom_insert_L, elem_of_union, elem_of_singleton. naive_solver. }
        eapply rtc_l; [|done]. by exists md.
      * intros x y Hx Hnx Hedge.
        destruct (decide (x = name)) as [->|Hne].
        -- destruct Hedge as (md' & He' & Hy). simplify_eq. by apply Hin.
        -- apply (Hc x y); [done| |done].
           rewrite dom_insert_L, elem_of_union, elem_of_singleton. naive_solver.
Qed.

(** ** The tests' tables hold of the model *)

Lemma TestKindToType_holds :
  Forall (fun '(kind, want) => kindToType kind = Some want) TestKindToType_cases.
Proof. repeat constructor. Qed.

Lemma TestOptionalKeywordSupport_holds :
  Forall (fun '(support, card, optional, annotated, want) =>
            isFieldRequiredWithOptionalSupport (mkGenerator support)
              (mkField "f" StringKind card optional annotated None "" "" [])
            = want)
    TestOptionalKeywordSupport_cases.
Proof. repeat constructor. Qed.






Lemma withDescription_lookup comment (node : SchemaNode) key :
  key <> "description" -> withDescription comment node !! key = node !! key.
Proof.
  intros Hne. unfold withDescription. case_decide; [done|].
  destruct (node !! "description"); [done|].
  by rewrite lookup_insert_ne.
Qed.

Lemma withDescription_described comment (node : SchemaNode) d :
  node !! "description" = Some d -> withDescription comment node = node.
Proof.
  intros Hd. unfold withDescription. case_decide; [done|]. by rewrite Hd.
Qed.



(** The expectations of [TestMessageSchemaWithOptionalSupport] on the
    required list of [CreateItemRequest], with a oneof group taken as required
    exactly when optional-keyword support is on. *)
Lemma TestMessageSchemaWithOptionalSupport_holds :
  let byOptionalSupport : FileGenerator -> string -> bool :=
    fun g _ => optionalKeywordSupport g in
  requiredNames byOptionalSupport (mkGenerator false) exCreateItemRequest
    = ["name"] /\
  requiredNames byOptionalSupport (mkGenerator true) exCreateItemRequest
    = ["name"; "thumbnail"; "item_typeOneOfType"].
Proof. split; reflexivity. Qed.

(** ** C3: repeated and map fields are never required *)




(** ** C4: compilation terminates, one entry per reachable type *)

(** C4.  For every descriptor provider and every message descriptor (with or
    without self-references, mutual recursion or shared sub-messages),
    compiling the message with fuel equal to the number of message types does
    not run out of fuel; if every field is of a supported shape it returns a
    schema and a definitions table; and whenever it returns, the table's
    entries, of which no two have the same name, are exactly the message types
    reachable from the message through its message-typed fields. *)
Theorem compilation_terminates_one_entry_per_type
  (env : gmap string MessageDescriptor)
  (oneofRequired : FileGenerator -> string -> bool) (g : FileGenerator)
  (md : MessageDescriptor) :
  messageSchema env oneofRequired g md <> OutOfFuel /\
  (forall node defs,
     messageSchema env oneofRequired g md = Ok (node, defs) ->
     (forall n, is_Some (defs !! n) <-> reachableFrom env md n) /\
     NoDup (map_to_list defs).*1) /\
  (supportedEnv env /\ supportedMessage env md = true ->
   exists node defs, messageSchema env oneofRequired g md = Ok (node, defs)).
Proof.
  set (ok := supportedEnv env /\ supportedMessage env md = true).
  assert (Hm : meets env ok (size env)
                 (messageSchemaFromDescriptor oneofRequired g
                    (ensureDefinition env oneofRequired g (size env)) md)
                 (references md)).
  { apply messageSchemaFromDescriptor_meets.
    - intros name Hres. apply ensureDefinition_meets; [|done]. by intros [? _].
    - by intros [_ ?]. }
  specialize (Hm ∅). rewrite pending_empty in Hm. specialize (Hm (le_n _)).
  unfold messageSchema.
  destruct (messageSchemaFromDescriptor _ _ _ md ∅) as [[node defs]|why|];
    [|split; [done|split; [done|]]; intros Hok; by destruct Hm|done].
  split; [done|]. split; [|eauto].
  intros node' defs' [= <- <-]. split; [|apply NoDup_fst_map_to_list].
  destruct Hm as (_ & Hin & Hr & Hc). intros n. rewrite <- elem_of_dom. split.
  - intros Hn. apply Hr; [done|]. by rewrite dom_empty_L.
  - intros (r & Hrin & Hpath). apply Hin in Hrin.
    induction Hpath as [r|r x z Hedge _ IH]; [done|].
    apply IH. eapply Hc; [done| |done]. by rewrite dom_empty_L.
Qed.

(** The example graph is made of supported fields, so compiling [exA], whose
    references lead back to itself and twice to [t.D], returns a schema and a
    table. *)
Lemma compilation_terminates_witness :
  (supportedEnv exEnv /\ supportedMessage exEnv exA = true) /\
  exists node defs,
    messageSchema exEnv noOneofRequired (mkGenerator true) exA = Ok (node, defs).
Proof.
  assert (H : supportedEnv exEnv /\ supportedMessage exEnv exA = true).
  { split; [|reflexivity]. apply (bool_decide_unpack _). vm_compute. exact I. }
  split; [exact H|].
  exact (proj2 (proj2 (compilation_terminates_one_entry_per_type
                         exEnv noOneofRequired (mkGenerator true) exA)) H).
Defined.

(** The example graph: compiling [exA] returns a table with one entry for
    each of [t.A], [t.B], [t.C] and [t.D] ([t.D] is referred to twice and
    [t.A] refers back to itself through [t.C]); compiling the
    self-referential [exNode] returns a table holding [t.Node] alone, and the
    self-reference is a [$ref]. *)
Lemma compilation_examples :
  tableNames (messageSchema exEnv noOneofRequired (mkGenerator true) exA)
    = Some (["t.C"; "t.A"; "t.B"; "t.D"], 4) /\
  tableNames (messageSchema exEnv noOneofRequired (mkGenerator true) exNode)
    = Some (["t.Node"], 1) /\
  schemaProperties (messageSchema exEnv noOneofRequired (mkGenerator true) exNode)
    = Some (VMap {[ "children" :=
                      VMap {[ "type" := VString "array";
                              "items" := VMap (refNode "t.Node") ]};
                    "id" := VMap {[ "type" := VString "string" ]} ]}).
Proof. repeat split; vm_compute; reflexivity. Qed.

(** ** The schema of a field and the schema of its values *)

(** [getType] returns for every field whose values have a schema, except for
    a map whose key kind has no JSON type; the schema of the values is the
    part [valuePart] of the result, with the comment attached when it has no
    description of its own, and the type of the result follows the
    cardinality. *)
Lemma getType_of_kind (ensure : string -> compile unit) (fd : FieldDescriptor)
  (defs : DefinitionsTable) (v : SchemaNode) :
  valueSchema ensure fd defs = Ok (v, defs) ->
  match getType ensure fd defs with
  | Ok (node, defs') =>
      defs' = defs /\
      (exists v', valuePart fd node = Some (VMap v') /\
                  (forall key, key <> "description" -> v' !! key = v !! key) /\
                  (forall d, v !! "description" = Some d -> v' = v)) /\
      (forall t, v !! "type" = Some (VString t) ->
                 node !! "type" = Some (VString (fieldType fd t)))
  | Failed _ =>
      exists keyKind, FieldCardinality fd = MapOf keyKind /\
                      kindToType keyKind = None
  | OutOfFuel => False
  end.
Proof.
  intros Hv. unfold getType, bind, valuePart, fieldType.
  destruct (FieldCardinality fd) as [| |keyKind] eqn:Hc; rewrite Hv.
  - simpl. split; [done|]. split.
    + eexists. split; [done|]. split.
      * intros key Hkey. by apply withDescription_lookup.
      * intros d Hd. by eapply withDescription_described.
    + intros t Ht. by rewrite withDescription_lookup.
  - simpl. split; [done|]. split.
    + exists v. by rewrite withDescription_lookup.
    + intros t Ht. by rewrite withDescription_lookup.
  - unfold keySchema. destruct (kindToType keyKind) as [t|] eqn:Hk; simpl.
    + split; [done|]. split.
      * exists v. by rewrite withDescription_lookup.
      * intros t' Ht. by rewrite withDescription_lookup.
    + by exists keyKind.
Qed.

(** ** C5: fields of enum kind *)




(** ** C6: fields of 64-bit integer kind *)

(** C6 (as stated, refuted).  The schema [getType] gives for a repeated field
    of kind int64 has the type ["array"], and the one for a map with int64
    values has the type ["object"]: the string schema is that of the items
    and of the additional properties. *)
Lemma repeated_int64_is_array :
  ValueKind (scalarField "ids" Int64Kind Repeated) = Int64Kind /\
  schemaType (getType (fun _ => ret tt) (scalarField "ids" Int64Kind Repeated) ∅)
  = Some (VString "array") /\
  schemaType (getType (fun _ => ret tt)
                (scalarField "counts" Int64Kind (MapOf StringKind)) ∅)
  = Some (VString "object").
Proof. repeat split. Qed.

(** C6 (amended).  For every field of kind int64, uint64, sint64 or fixed64,
    [kindToType] gives ["string"], neither ["integer"] nor ["number"], and
    the schema of a value of the field is [{"type": "string"}].  [getType]
    returns a schema, except for a map whose key kind has no JSON type; the
    type of that schema is ["string"], ["array"] or ["object"], by the
    cardinality of the field, never ["integer"] or ["number"], and its part
    for the values of the field (the schema itself for a singular field, the
    items for a repeated field, the additional properties for a map) has
    ["type"] equal to ["string"]. *)
Theorem int64_field_schema
  (ensure : string -> compile unit) (fd : FieldDescriptor)
  (defs : DefinitionsTable) :
  ValueKind fd ∈ [Int64Kind; Uint64Kind; Sint64Kind; Fixed64Kind] ->
  kindToType (ValueKind fd) = Some "string" /\
  kindToType (ValueKind fd) <> Some "integer" /\
  kindToType (ValueKind fd) <> Some "number" /\
  valueSchema ensure fd defs = Ok ({[ "type" := VString "string" ]}, defs) /\
  match getType ensure fd defs with
  | Ok (node, defs') =>
      defs' = defs /\
      node !! "type" = Some (VString (fieldType fd "string")) /\
      node !! "type" <> Some (VString "integer") /\
      node !! "type" <> Some (VString "number") /\
      exists v,
        valuePart fd node = Some (VMap v) /\
        v !! "type" = Some (VString "string")
  | Failed _ =>
      exists keyKind, FieldCardinality fd = MapOf keyKind /\
                      kindToType keyKind = None
  | OutOfFuel => False
  end.
Proof.
  intros Hk.
  assert (Hv : valueSchema ensure fd defs
               = Ok ({[ "type" := VString "string" ]}, defs)).
  { unfold valueSchema. rewrite !elem_of_cons in Hk.
    destruct Hk as [->|[->|[->|[->|?%elem_of_nil]]]]; done. }
  assert (Ht : kindToType (ValueKind fd) = Some "string").
  { rewrite !elem_of_cons in Hk.
    destruct Hk as [->|[->|[->|[->|?%elem_of_nil]]]]; done. }
  rewrite Ht. split; [done|]. split; [done|]. split; [done|]. split; [done|].
  pose proof (getType_of_kind ensure fd defs _ Hv) as Hg.
  destruct (getType ensure fd defs) as [[node defs']| |]; [|done..].
  destruct Hg as (-> & (v' & Hpart & Hkeys & _) & Htype).
  split; [done|]. rewrite (Htype "string") by done.
  split; [done|]. unfold fieldType.
  split; [by destruct (FieldCardinality fd)|].
  split; [by destruct (FieldCardinality fd)|].
  exists v'. split; [done|]. by rewrite Hkeys.
Qed.

Lemma int64_field_schema_witness :
  kindToType Int64Kind = Some "string" /\
  schemaType (getType (fun _ => ret tt) (scalarField "id" Int64Kind Singular) ∅)
  = Some (VString "string").
Proof.
  pose proof (int64_field_schema (fun _ => ret tt)
                (scalarField "id" Int64Kind Singular) ∅) as H.
  destruct H as (H1 & _ & _ & _ & H5); [left|].
  split; [exact H1|]. simpl in H5. unfold schemaType. simpl.
  destruct H5 as (_ & H5 & _). exact H5.
Defined.
